(** * Allocators: linear, fixed buffer, arena and block allocator

    A shallow embedding of the four allocators of
    [assets/src/allocators] ([linear.c], [fba.h], [arena.h],
    [block_allocator.h]) and the properties their description states.

    Target: an LP64 machine with a flat address space.  [size_t],
    [uintptr_t] and object pointers are 64-bit words, modelled in [Z] with
    the wrap-around at [2^64] written out; pointer arithmetic is the
    addition of addresses modulo [2^64] and pointers are compared as the
    addresses they hold.  The null pointer is address [0].

    The definitions come first, each function of the sources under its
    own name; the vocabulary of the statements follows, then the facts.
    Well-formed states place buffers and blocks in the lower half of
    the address space, where rounding an address up to a power of two
    cannot wrap around. *)

From Stdlib Require Import ZArith Lia List Bool Sorted Permutation.
Import ListNotations.
Local Open Scope Z_scope.

(** ** Machine words *)

(** Reduction of an integer to a 64-bit unsigned word. *)
Definition wrap (x : Z) : Z := x mod 2 ^ 64.

Definition NULL : Z := 0.

(** Largest object size of the platform, [PTRDIFF_MAX]. *)
Definition PTRDIFF_MAX : Z := 2 ^ 63 - 1.

(** [align] is a power of two that a [size_t] can hold. *)
Definition pow2_align (align : Z) : Prop :=
  exists k, 0 <= k < 64 /\ align = 2 ^ k.

(** [ALIGN_TO(_value, _alignment)]:
    [((_value) + ((_alignment) - 1) & -(_alignment))], where [+] binds
    tighter than [&] and every operation is on 64-bit unsigned words. *)
Definition ALIGN_TO (value alignment : Z) : Z :=
  Z.land (wrap (value + wrap (alignment - 1))) (wrap (- alignment)).

(** ** Memory

    Byte-addressed memory; a pointer-sized field is eight bytes, least
    significant first. *)

Definition memory : Type := Z -> Z.

Definition byte_of (v i : Z) : Z := (v / 2 ^ (8 * i)) mod 256.

Definition load64 (m : memory) (p : Z) : Z :=
  (m p) mod 256
  + 2 ^ 8 * ((m (p + 1)) mod 256)
  + 2 ^ 16 * ((m (p + 2)) mod 256)
  + 2 ^ 24 * ((m (p + 3)) mod 256)
  + 2 ^ 32 * ((m (p + 4)) mod 256)
  + 2 ^ 40 * ((m (p + 5)) mod 256)
  + 2 ^ 48 * ((m (p + 6)) mod 256)
  + 2 ^ 56 * ((m (p + 7)) mod 256).

Definition store64 (m : memory) (p v : Z) : memory :=
  fun a => if (p <=? a) && (a <? p + 8) then byte_of v (a - p) else m a.

(** Outcome of a call that can stop the program (a failed [assert], an
    access through the null pointer). *)
Inductive result (A : Type) : Type :=
| Fault : result A
| Ok : A -> result A.
Arguments Fault {A}.
Arguments Ok {A} _.

(** ** Linear allocator ([linear.c])

    The buffer is a global array of [BUFFER_SIZE] bytes and the head a
    global [size_t]; [buffer] below is the address of the array, and the
    head is passed in and handed back next to the returned pointer. *)

Module Linear.

Definition BUFFER_SIZE : Z := 1024.

Definition allocate (buffer head size : Z) : Z * Z :=
  let mem := wrap (buffer + head) in
  let head := wrap (head + size) in
  if head >? BUFFER_SIZE then (NULL, head) else (mem, head).

(** A run of calls: the pointers returned, in call order, and the last
    head. *)
Fixpoint allocate_all (buffer head : Z) (sizes : list Z) : list Z * Z :=
  match sizes with
  | [] => ([], head)
  | size :: rest =>
      let (p, head1) := allocate buffer head size in
      let (ps, head2) := allocate_all buffer head1 rest in
      (p :: ps, head2)
  end.

End Linear.

(** ** Fixed buffer allocator ([fba.h]) *)

Module Fba.

Record fba_t : Type := {
  buffer : Z;
  buffer_end : Z;
  head : Z
}.

Definition fba_init (buffer buffer_size : Z) : fba_t :=
  {| buffer := buffer;
     buffer_end := wrap (buffer + buffer_size);
     head := buffer |}.

Definition fba_reset (fba : fba_t) : fba_t :=
  {| buffer := buffer fba; buffer_end := buffer_end fba; head := buffer fba |}.

Definition fba_alloc_opt (fba : fba_t) (size align : Z) : Z * fba_t :=
  let head := ALIGN_TO (head fba) align in
  if wrap (head + size) >? buffer_end fba then (NULL, fba)
  else (head,
        {| buffer := buffer fba;
           buffer_end := buffer_end fba;
           head := wrap (head + size) |}).

(** The alignment of a pointer, [_Alignof] of [void] pointer, is 8. *)
Definition fba_alloc (fba : fba_t) (size : Z) : Z * fba_t :=
  fba_alloc_opt fba size 8.

(** A run of calls, each request a pair [(size, align)]. *)
Fixpoint fba_alloc_all (fba : fba_t) (reqs : list (Z * Z)) : list Z * fba_t :=
  match reqs with
  | [] => ([], fba)
  | (size, align) :: rest =>
      let (p, fba1) := fba_alloc_opt fba size align in
      let (ps, fba2) := fba_alloc_all fba1 rest in
      (p :: ps, fba2)
  end.

End Fba.

(** ** Arena ([arena.h])

    An [arena_block_t] is laid out as [next] at offset 0, [buffer_end] at
    offset 8, [head] at offset 16 and the flexible array [buffer] at
    offset 24.  The blocks live in memory; the [arena_t] itself is a
    value.  The backing allocator is an oracle: [heap] lists the answers
    of the coming [malloc] calls, [NULL] standing for a refusal, and an
    exhausted list refuses. *)

Module Arena.

Record arena_t : Type := { blocks : Z }.

Definition ARENA_BLOCK_SIZE : Z := 1024.

(** [sizeof(arena_block_t)], the offset of [buffer]. *)
Definition HEADER_SIZE : Z := 24.

Definition next_field (b : Z) : Z := b.
Definition buffer_end_field (b : Z) : Z := b + 8.
Definition head_field (b : Z) : Z := b + 16.
Definition buffer_field (b : Z) : Z := wrap (b + HEADER_SIZE).

Record world : Type := {
  mem : memory;
  heap : list Z
}.

Definition set_mem (w : world) (m : memory) : world :=
  {| mem := m; heap := heap w |}.

Definition malloc (size : Z) (w : world) : Z * world :=
  match heap w with
  | [] => (NULL, w)
  | p :: rest => (p, {| mem := mem w; heap := rest |})
  end.

Definition arena_block_init (b next : Z) (m : memory) : memory :=
  let m := store64 m (next_field b) next in
  let m := store64 m (buffer_end_field b) (wrap (b + ARENA_BLOCK_SIZE)) in
  store64 m (head_field b) (buffer_field b).

(** Every access goes through [b]; with [b] null the first one,
    [b->head], faults. *)
Definition arena_block_alloc (b size align : Z) (m : memory)
  : result (Z * memory) :=
  if b =? NULL then Fault
  else
    let head := ALIGN_TO (load64 m (head_field b)) align in
    if wrap (head + size) >? load64 m (buffer_end_field b) then Ok (NULL, m)
    else Ok (head, store64 m (head_field b) (wrap (head + size))).

Definition arena_new_block (a : arena_t) (w : world) : Z * arena_t * world :=
  let (blk, w) := malloc ARENA_BLOCK_SIZE w in
  if blk =? NULL then (NULL, a, w)
  else (blk, {| blocks := blk |},
        set_mem w (arena_block_init blk (blocks a) (mem w))).

Definition arena_get_block (a : arena_t) (w : world) : Z * arena_t * world :=
  if negb (blocks a =? NULL) then (blocks a, a, w)
  else arena_new_block a w.

Definition arena_alloc (a : arena_t) (size align : Z) (w : world)
  : result (Z * arena_t * world) :=
  let '(blk, a, w) := arena_get_block a w in
  if blk =? NULL then Ok (NULL, a, w)
  else
    match arena_block_alloc blk size align (mem w) with
    | Fault => Fault
    | Ok (buf, m) =>
        if negb (buf =? NULL) then Ok (buf, a, set_mem w m)
        else
          let '(blk, a, w) := arena_new_block a (set_mem w m) in
          match arena_block_alloc blk size align (mem w) with
          | Fault => Fault
          | Ok (buf, m) => Ok (buf, a, set_mem w m)
          end
    end.

(** [free] belongs to the backing allocator and its code is not part of
    the program: [arena_clear] takes it as a parameter, [free b w] being
    the world once [free(b)] has returned.  What it leaves in the bytes
    of the block it was given is its own business.

    The loop of [arena_clear]; [fuel] bounds the number of blocks walked,
    [None] when it does not suffice.  [b->next] is read before [b] is
    handed to [free]. *)
Fixpoint arena_clear_loop (free : Z -> world -> world) (fuel : nat) (b : Z)
  (w : world) : option world :=
  if b =? NULL then Some w
  else
    match fuel with
    | O => None
    | S fuel =>
        let next := load64 (mem w) (next_field b) in
        arena_clear_loop free fuel next (free b w)
    end.

Definition arena_clear (free : Z -> world -> world) (fuel : nat)
  (a : arena_t) (w : world) : option (arena_t * world) :=
  match arena_clear_loop free fuel (blocks a) w with
  | Some w => Some ({| blocks := NULL |}, w)
  | None => None
  end.

(** A run of calls, each request a pair [(size, align)].  Every call is
    recorded as [(block, pointer, size)], [block] being the most recent
    block of the arena when the call returns: a successful call has
    drawn its pointer from that block. *)
Fixpoint arena_alloc_all (a : arena_t) (w : world) (reqs : list (Z * Z))
  : result (list (Z * Z * Z) * arena_t * world) :=
  match reqs with
  | [] => Ok ([], a, w)
  | (size, align) :: rest =>
      match arena_alloc a size align w with
      | Fault => Fault
      | Ok (p, a1, w1) =>
          match arena_alloc_all a1 w1 rest with
          | Fault => Fault
          | Ok (tr, a2, w2) => Ok ((blocks a1, p, size) :: tr, a2, w2)
          end
      end
  end.

End Arena.

(** ** Block allocator ([block_allocator.h])

    [sizeof(block_allocator_block_t)] is 8: the link of a free cell is
    the pointer stored in its first eight bytes. *)

Module BlockAllocator.

Record block_allocator_t : Type := {
  buffer : Z;
  buffer_end : Z;
  blocks : Z
}.

Definition LINK_SIZE : Z := 8.

(** The loop of [ba_init], [n] iterations left, [i] the loop counter. *)
Fixpoint ba_init_loop (n : nat) (i buffer item_size prev : Z) (m : memory)
  : Z * memory :=
  match n with
  | O => (prev, m)
  | S n =>
      let b := wrap (buffer + wrap (i * item_size)) in
      ba_init_loop n (i + 1) buffer item_size b (store64 m b prev)
  end.

(** The [assert] stops the program when it fails; it also keeps the
    division from being one by zero. *)
Definition ba_init (buffer buffer_size item_size : Z) (m : memory)
  : result (block_allocator_t * memory) :=
  if negb (item_size >=? LINK_SIZE) then Fault
  else
    let item_count := buffer_size / item_size in
    let (prev, m) :=
      ba_init_loop (Z.to_nat item_count) 0 buffer item_size NULL m in
    Ok ({| buffer := buffer;
           buffer_end := wrap (buffer + buffer_size);
           blocks := prev |}, m).

Definition ba_alloc (ba : block_allocator_t) (m : memory)
  : Z * block_allocator_t * memory :=
  if blocks ba =? NULL then (NULL, ba, m)
  else
    let blk := blocks ba in
    (blk,
     {| buffer := buffer ba;
        buffer_end := buffer_end ba;
        blocks := load64 m blk |},
     store64 m blk 0).

Definition ba_free (ba : block_allocator_t) (ptr : Z) (m : memory)
  : block_allocator_t * memory :=
  if (ptr <? buffer ba) || (ptr >? buffer_end ba) then (ba, m)
  else
    ({| buffer := buffer ba; buffer_end := buffer_end ba; blocks := ptr |},
     store64 m ptr (blocks ba)).

(** [n] calls of [ba_alloc] in a row: the pointers returned, in call
    order. *)
Fixpoint ba_alloc_n (n : nat) (ba : block_allocator_t) (m : memory)
  : list Z * block_allocator_t * memory :=
  match n with
  | O => ([], ba, m)
  | S n =>
      let '(p, ba1, m1) := ba_alloc ba m in
      let '(ps, ba2, m2) := ba_alloc_n n ba1 m1 in
      (p :: ps, ba2, m2)
  end.

End BlockAllocator.

(** ** Vocabulary of the statements *)

(** *** Returned ranges

    An allocation of the linear and of the fixed buffer allocator is
    recorded as [(pointer, size)].  [laid_out x y] says that [y] starts
    at or after the end of [x]; [follows x y] is what it gives for [y]
    allocated after [x]: the pointers do not decrease, they increase
    strictly when [x] has a positive size, and the two ranges share no
    byte. *)

Definition disjoint_ranges (p1 s1 p2 s2 : Z) : Prop :=
  forall a, ~ (p1 <= a < p1 + s1 /\ p2 <= a < p2 + s2).

Definition laid_out (x y : Z * Z) : Prop := fst x + snd x <= fst y.

Definition follows (x y : Z * Z) : Prop :=
  fst x <= fst y
  /\ (0 < snd x -> fst x < fst y)
  /\ disjoint_ranges (fst x) (snd x) (fst y) (snd y).

(** A request [(size, align)] within the contract of [fba_alloc_opt] and
    [arena_alloc]: a size an object can have and a power-of-two
    alignment. *)
Definition request_ok (req : Z * Z) : Prop :=
  0 <= fst req <= PTRDIFF_MAX /\ pow2_align (snd req).

(** *** Fixed buffer allocator *)

(** The head lies in the buffer, and the buffer in the lower half of
    the address space, null excluded. *)
Definition fba_wf (fba : Fba.fba_t) : Prop :=
  0 < Fba.buffer fba <= Fba.head fba
  /\ Fba.head fba <= Fba.buffer_end fba <= 2 ^ 63.

(** *** Arena *)

(** What [malloc] promises of a block it hands out: a non-null address
    with the [ARENA_BLOCK_SIZE] bytes after it in the lower half of the
    address space. *)
Definition valid_block (p : Z) : Prop :=
  0 < p /\ p + Arena.ARENA_BLOCK_SIZE <= 2 ^ 63.

(** The header at [b] is that of a block the arena set up: the end is
    [ARENA_BLOCK_SIZE] bytes after [b] and the head lies between the
    start of the payload and that end. *)
Definition block_wf (m : memory) (b : Z) : Prop :=
  valid_block b
  /\ load64 m (Arena.buffer_end_field b) = b + Arena.ARENA_BLOCK_SIZE
  /\ b + Arena.HEADER_SIZE <= load64 m (Arena.head_field b)
       <= b + Arena.ARENA_BLOCK_SIZE.

(** The arena is empty or its most recent block is well formed; older
    blocks are never looked at by [arena_alloc]. *)
Definition arena_wf (a : Arena.arena_t) (w : Arena.world) : Prop :=
  Arena.blocks a = NULL \/ block_wf (Arena.mem w) (Arena.blocks a).

(** The next call of the backing allocator is refused. *)
Definition refuses (w : Arena.world) : Prop :=
  fst (Arena.malloc Arena.ARENA_BLOCK_SIZE w) = NULL.

(** The block at [b] has no room for the request: the bump allocation
    against it returns null. *)
Definition cannot_satisfy (m : memory) (b size align : Z) : Prop :=
  match Arena.arena_block_alloc b size align m with
  | Ok (p, _) => p = NULL
  | Fault => False
  end.

(** The chain of blocks that starts at [b], followed through the [next]
    fields. *)
Inductive block_list (m : memory) : Z -> list Z -> Prop :=
| block_list_nil : block_list m NULL []
| block_list_cons b l :
    b <> NULL ->
    block_list m (load64 m (Arena.next_field b)) l ->
    block_list m b (b :: l).

(** Two blocks share no byte. *)
Definition blocks_disjoint (x y : Z) : Prop :=
  x + Arena.ARENA_BLOCK_SIZE <= y \/ y + Arena.ARENA_BLOCK_SIZE <= x.

(** What the backing allocator promises of the blocks to come: each is
    a valid block, and they overlap neither each other nor the most
    recent block [b] of the arena. *)
Definition heap_fresh (b : Z) (h : list Z) : Prop :=
  Forall valid_block h
  /\ ForallOrdPairs blocks_disjoint h
  /\ (b <> NULL -> Forall (blocks_disjoint b) h).

(** The pointer a call of [arena_alloc] returned, when the call did
    not fault. *)
Definition returned (r : result (Z * Arena.arena_t * Arena.world)) : option Z :=
  match r with
  | Ok (p, _, _) => Some p
  | Fault => None
  end.

(** The trace of a run, when the run did not fault. *)
Definition trace_of (r : result (list (Z * Z * Z) * Arena.arena_t * Arena.world))
  : option (list (Z * Z * Z)) :=
  match r with
  | Ok (tr, _, _) => Some tr
  | Fault => None
  end.

(** The components of an entry [(block, pointer, size)] of a trace. *)
Definition entry_block (t : Z * Z * Z) : Z := fst (fst t).

Definition entry_ptr (t : Z * Z * Z) : Z := snd (fst t).

Definition entry_size (t : Z * Z * Z) : Z := snd t.

(** The range of the entry lies in the payload of its block. *)
Definition in_block (t : Z * Z * Z) : Prop :=
  entry_block t + Arena.HEADER_SIZE <= entry_ptr t
  /\ 0 <= entry_size t
  /\ entry_ptr t + entry_size t <= entry_block t + Arena.ARENA_BLOCK_SIZE.

(** In one block [y] starts at or after the end of [x]; two different
    blocks share no byte. *)
Definition arena_laid_out (x y : Z * Z * Z) : Prop :=
  (entry_block x = entry_block y -> entry_ptr x + entry_size x <= entry_ptr y)
  /\ (entry_block x <> entry_block y ->
      blocks_disjoint (entry_block x) (entry_block y)).

(** [y] was allocated after [x]: within one block the pointers do not
    decrease and increase strictly past an allocation of positive size,
    and in any case the two ranges share no byte. *)
Definition arena_follows (x y : Z * Z * Z) : Prop :=
  (entry_block x = entry_block y ->
   entry_ptr x <= entry_ptr y
   /\ (0 < entry_size x -> entry_ptr x < entry_ptr y))
  /\ disjoint_ranges (entry_ptr x) (entry_size x) (entry_ptr y) (entry_size y).

(** Where an allocation made from the state [(a, w)] on can lie: in the
    most recent block at or above its head, or in a block still to be
    handed out. *)
Definition from_state (a : Arena.arena_t) (w : Arena.world) (t : Z * Z * Z)
  : Prop :=
  (Arena.blocks a <> NULL /\ entry_block t = Arena.blocks a
   /\ load64 (Arena.mem w) (Arena.head_field (Arena.blocks a)) <= entry_ptr t)
  \/ In (entry_block t) (Arena.heap w).

(** *** Block allocator *)

(** The free list that starts at [p], followed through the links stored
    in the cells. *)
Inductive free_list (m : memory) : Z -> list Z -> Prop :=
| free_list_nil : free_list m NULL []
| free_list_cons p l :
    p <> NULL ->
    free_list m (load64 m p) l ->
    free_list m p (p :: l).

(** The links of two cells do not share a byte. *)
Definition apart (x y : Z) : Prop :=
  x + BlockAllocator.LINK_SIZE <= y \/ y + BlockAllocator.LINK_SIZE <= x.

(** Address of cell [k] of a buffer cut in cells of [item_size] bytes. *)
Definition cell (buffer item_size k : Z) : Z := buffer + k * item_size.

(** The cells [n-1], ..., [0], last one first. *)
Fixpoint cells_desc (buffer item_size : Z) (n : nat) : list Z :=
  match n with
  | O => []
  | S n => cell buffer item_size (Z.of_nat n) :: cells_desc buffer item_size n
  end.

(** The head of the free list is null or an address [ba_free] would
    accept: [ba_init] and [ba_free] put no other address there. *)
Definition head_in_buffer (ba : BlockAllocator.block_allocator_t) : Prop :=
  BlockAllocator.blocks ba = NULL
  \/ BlockAllocator.buffer ba <= BlockAllocator.blocks ba
       <= BlockAllocator.buffer_end ba.

(** *** Sample states *)

(** An arena without a block. *)
Definition empty_arena : Arena.arena_t := {| Arena.blocks := NULL |}.

(** Zeroed memory, with the given answers of the backing allocator to
    come. *)
Definition blank_world (answers : list Z) : Arena.world :=
  {| Arena.mem := fun _ => 0; Arena.heap := answers |}.

(** An arena of one block at address 4096 whose head has reached the
    end of the block. *)
Definition full_block_arena : Arena.arena_t := {| Arena.blocks := 4096 |}.

Definition full_block_world (answers : list Z) : Arena.world :=
  {| Arena.mem :=
       store64 (Arena.arena_block_init 4096 NULL (fun _ => 0))
         (Arena.head_field 4096) (4096 + Arena.ARENA_BLOCK_SIZE);
     Arena.heap := answers |}.

(** A block allocator whose free list is empty. *)
Definition exhausted_ba : BlockAllocator.block_allocator_t :=
  {| BlockAllocator.buffer := 4096;
     BlockAllocator.buffer_end := 8192;
     BlockAllocator.blocks := NULL |}.

(** Two free cells of 36 bytes, the one at 4132 linked to the one at
    4096, in a buffer at 4096. *)
Definition two_cell_ba : BlockAllocator.block_allocator_t :=
  {| BlockAllocator.buffer := 4096;
     BlockAllocator.buffer_end := 4096 + 72;
     BlockAllocator.blocks := 4132 |}.

Definition two_cell_memory : memory :=
  store64 (store64 (fun _ => 0) 4096 NULL) 4132 4096.

(** Closed goals on concrete states, settled by evaluation. *)
Ltac by_computation :=
  solve [ vm_compute; repeat split;
          first [ reflexivity | discriminate | intro; discriminate ] ].

(** *** Further operations and runs *)

(** [fba_vsprintf] ([fba.c]).  [n] is what the measuring call of
    [vsnprintf] returned, an [int]; the function asks for [n + 1] bytes,
    converted to [size_t], at the alignment of [char], which is 1.  The
    rendering of the text into the bytes obtained is the work of
    [vsnprintf] and not part of the model: the result is the pointer
    returned and the allocator. *)
Definition fba_vsprintf (fba : Fba.fba_t) (n : Z) : Z * Fba.fba_t :=
  Fba.fba_alloc_opt fba (wrap (n + 1)) 1.

(** Calls of [ba_free] in a row, for the pointers of the list in
    order. *)
Fixpoint ba_free_all (ba : BlockAllocator.block_allocator_t) (ptrs : list Z)
  (m : memory) : BlockAllocator.block_allocator_t * memory :=
  match ptrs with
  | [] => (ba, m)
  | ptr :: rest =>
      let (ba1, m1) := BlockAllocator.ba_free ba ptr m in
      ba_free_all ba1 rest m1
  end.

(** The cell of [item_size] bytes at [y] ends at or before the start of
    the cell at [x]. *)
Definition cell_below (item_size x y : Z) : Prop := y + item_size <= x.

(** The byte at [x] belongs to the header of the block at [b]. *)
Definition in_header (b x : Z) : Prop := b <= x < b + Arena.HEADER_SIZE.

(** The byte at [x] belongs to the [head] field of the block at [b]. *)
Definition in_head_field (b x : Z) : Prop :=
  Arena.head_field b <= x < Arena.head_field b + 8.

(** The blocks of [new], most recent first, are chained through their
    [next] fields down to [b0], the block that was there before them. *)
Fixpoint linked (m : memory) (new : list Z) (b0 : Z) : Prop :=
  match new with
  | [] => True
  | q :: rest =>
      q <> NULL /\ load64 m (Arena.next_field q) = hd b0 rest
      /\ linked m rest b0
  end.

(** No block occurs twice in the list and no two of its blocks share a
    byte. *)
Definition pairwise_disjoint (blocks : list Z) : Prop :=
  NoDup blocks
  /\ (forall x y, In x blocks -> In y blocks -> x <> y -> blocks_disjoint x y).

(** The blocks the backing allocator is still to hand out, [h], and the
    blocks of an arena, [l]: the former are valid blocks, and no two
    blocks of the whole share a byte. *)
Definition blocks_separate (h l : list Z) : Prop :=
  Forall valid_block h /\ pairwise_disjoint (h ++ l).

(** The arena and the world a run of calls ends in, when the run did
    not fault. *)
Definition final_state
  (r : result (list (Z * Z * Z) * Arena.arena_t * Arena.world))
  : option (Arena.arena_t * Arena.world) :=
  match r with
  | Ok (_, a, w) => Some (a, w)
  | Fault => None
  end.

(** *** [arena_clear] and the [free] of the backing allocator *)

(** [free b] leaves every byte of the blocks of [live] as it is: what a
    backing allocator owes to the blocks that are still in use while it
    takes [b] back. *)
Definition spares (free : Z -> Arena.world -> Arena.world) (b : Z)
  (live : list Z) : Prop :=
  forall w x,
    Exists (fun b' => b' <= x < b' + Arena.ARENA_BLOCK_SIZE) live ->
    Arena.mem (free b w) x = Arena.mem w x.

(** Each block of the chain can be handed to [free] while the blocks
    after it in the chain are still in use. *)
Fixpoint frees_in_order (free : Z -> Arena.world -> Arena.world)
  (chain : list Z) : Prop :=
  match chain with
  | [] => True
  | b :: rest => spares free b rest /\ frees_in_order free rest
  end.

(** The world after [free] has been called on the blocks of the list,
    once each, first one first. *)
Definition released (free : Z -> Arena.world -> Arena.world)
  (chain : list Z) (w : Arena.world) : Arena.world :=
  fold_left (fun w b => free b w) chain w.

(** A [free] that keeps the blocks it takes back in a list of its own
    and overwrites the first sixteen bytes of each with its links, which
    are the [next] and the [buffer_end] of the arena's header. *)
Definition scribbling_free (b : Z) (w : Arena.world) : Arena.world :=
  Arena.set_mem w
    (store64 (store64 (Arena.mem w) b (2 ^ 64 - 1)) (b + 8) (2 ^ 64 - 1)).

(** *** The successful calls of a run *)

(** A call of the linear or of the fixed buffer allocator, recorded as
    [(pointer, size)], has succeeded: the pointer is not null. *)
Definition succeeded (x : Z * Z) : bool := negb (fst x =? NULL).

(** The same for an entry of the trace of an arena. *)
Definition entry_succeeded (t : Z * Z * Z) : bool :=
  negb (entry_ptr t =? NULL).

(** ** Facts on words and memory *)

Lemma wrap_range x : 0 <= wrap x < 2 ^ 64.
Proof. unfold wrap. apply Z.mod_pos_bound. lia. Qed.

Lemma wrap_small x : 0 <= x < 2 ^ 64 -> wrap x = x.
Proof. intros H. unfold wrap. apply Z.mod_small. exact H. Qed.

Lemma gtb_true a b : (a >? b) = true <-> b < a.
Proof. rewrite Z.gtb_ltb. apply Z.ltb_lt. Qed.

Lemma gtb_false a b : (a >? b) = false <-> a <= b.
Proof. rewrite Z.gtb_ltb. apply Z.ltb_ge. Qed.

Lemma load64_range m p : 0 <= load64 m p < 2 ^ 64.
Proof.
  unfold load64.
  pose proof (Z.mod_pos_bound (m p) 256).
  pose proof (Z.mod_pos_bound (m (p + 1)) 256).
  pose proof (Z.mod_pos_bound (m (p + 2)) 256).
  pose proof (Z.mod_pos_bound (m (p + 3)) 256).
  pose proof (Z.mod_pos_bound (m (p + 4)) 256).
  pose proof (Z.mod_pos_bound (m (p + 5)) 256).
  pose proof (Z.mod_pos_bound (m (p + 6)) 256).
  pose proof (Z.mod_pos_bound (m (p + 7)) 256).
  lia.
Qed.

Lemma store64_in m p v a :
  p <= a < p + 8 -> store64 m p v a = byte_of v (a - p).
Proof.
  intros H. unfold store64.
  replace ((p <=? a) && (a <? p + 8)) with true; [reflexivity|].
  symmetry. apply andb_true_iff. split; [apply Z.leb_le | apply Z.ltb_lt]; lia.
Qed.

Lemma store64_out m p v a :
  a < p \/ p + 8 <= a -> store64 m p v a = m a.
Proof.
  intros H. unfold store64.
  replace ((p <=? a) && (a <? p + 8)) with false; [reflexivity|].
  symmetry. apply andb_false_iff.
  destruct H; [left; apply Z.leb_gt | right; apply Z.ltb_ge]; lia.
Qed.

Lemma byte_of_mod v i : (byte_of v i) mod 256 = byte_of v i.
Proof. unfold byte_of. apply Z.mod_mod. lia. Qed.

(** Reading back a field that was just written. *)
Lemma load64_store64_same m p v :
  0 <= v < 2 ^ 64 -> load64 (store64 m p v) p = v.
Proof.
  intros Hv. unfold load64.
  rewrite !store64_in by lia.
  rewrite !byte_of_mod.
  replace (p - p) with 0 by lia.
  replace (p + 1 - p) with 1 by lia.
  replace (p + 2 - p) with 2 by lia.
  replace (p + 3 - p) with 3 by lia.
  replace (p + 4 - p) with 4 by lia.
  replace (p + 5 - p) with 5 by lia.
  replace (p + 6 - p) with 6 by lia.
  replace (p + 7 - p) with 7 by lia.
  unfold byte_of. cbn [Z.mul Pos.mul].
  change (2 ^ 0) with 1. change (2 ^ 8) with 256.
  change (2 ^ 16) with 65536. change (2 ^ 24) with 16777216.
  change (2 ^ 32) with 4294967296. change (2 ^ 40) with 1099511627776.
  change (2 ^ 48) with 281474976710656.
  change (2 ^ 56) with 72057594037927936.
  change (2 ^ 64) with 18446744073709551616 in Hv.
  Z.div_mod_to_equations. lia.
Qed.

(** A write does not disturb a field eight or more bytes away. *)
Lemma load64_store64_other m p v q :
  q + 8 <= p \/ p + 8 <= q -> load64 (store64 m p v) q = load64 m q.
Proof.
  intros H. unfold load64.
  rewrite !store64_out by lia. reflexivity.
Qed.

(** ** Facts on [ALIGN_TO] *)

Lemma testbit_above x i : 0 <= x < 2 ^ 64 -> 64 <= i -> Z.testbit x i = false.
Proof.
  intros Hx Hi.
  destruct (Z.eq_dec x 0) as [->|Hn]; [apply Z.bits_0|].
  apply Z.bits_above_log2; [lia|].
  assert (Z.log2 x < 64) by (apply Z.log2_lt_pow2; lia). lia.
Qed.

Lemma land_high_mask x k :
  0 <= k < 64 -> 0 <= x < 2 ^ 64 ->
  Z.land x (2 ^ 64 - 2 ^ k) = x - x mod 2 ^ k.
Proof.
  intros Hk Hx.
  assert (Hmask : 2 ^ 64 - 2 ^ k = Z.shiftl (Z.ones (64 - k)) k).
  { rewrite Z.shiftl_mul_pow2, Z.ones_equiv by lia.
    unfold Z.pred. rewrite Z.mul_add_distr_r, <- Z.pow_add_r by lia.
    replace (64 - k + k) with 64 by lia. lia. }
  assert (Hrhs : x - x mod 2 ^ k = Z.ldiff x (Z.ones k)).
  { rewrite Z.ldiff_ones_r, Z.shiftl_mul_pow2, Z.shiftr_div_pow2 by lia.
    pose proof (Z.div_mod x (2 ^ k)). lia. }
  rewrite Hmask, Hrhs.
  apply Z.bits_inj'. intros i Hi.
  rewrite Z.land_spec, Z.ldiff_spec, Z.shiftl_spec by lia.
  destruct (Z_lt_dec i k) as [Hlt|Hge].
  - rewrite (Z.testbit_neg_r _ (i - k)) by lia.
    rewrite (Z.ones_spec_low k i) by lia.
    cbn [negb]. rewrite !andb_false_r. reflexivity.
  - rewrite (Z.ones_spec_high k i) by lia. cbn [negb].
    destruct (Z_lt_dec i 64) as [Hlt|Hge64].
    + rewrite (Z.ones_spec_low (64 - k) (i - k)) by lia. reflexivity.
    + rewrite (Z.ones_spec_high (64 - k) (i - k)) by lia.
      rewrite (testbit_above x i) by lia. reflexivity.
Qed.

(** On a power of two, [ALIGN_TO] clears the low bits of
    [value + (alignment - 1)], the sum taken modulo [2^64]. *)
Lemma ALIGN_TO_pow2 v k :
  0 <= k < 64 ->
  ALIGN_TO v (2 ^ k) = wrap (v + (2 ^ k - 1)) - wrap (v + (2 ^ k - 1)) mod 2 ^ k.
Proof.
  intros Hk. unfold ALIGN_TO.
  assert (Hp : 0 < 2 ^ k < 2 ^ 64).
  { split; [apply Z.pow_pos_nonneg; lia | apply Z.pow_lt_mono_r; lia]. }
  rewrite (wrap_small (2 ^ k - 1)) by lia.
  assert (Hneg : wrap (- 2 ^ k) = 2 ^ 64 - 2 ^ k).
  { unfold wrap. symmetry. apply (Z.mod_unique _ _ (-1)); lia. }
  rewrite Hneg. apply land_high_mask; [lia | apply wrap_range].
Qed.

Lemma ALIGN_TO_multiple v k :
  0 <= k < 64 -> (ALIGN_TO v (2 ^ k)) mod 2 ^ k = 0.
Proof.
  intros Hk. rewrite ALIGN_TO_pow2 by lia.
  assert (Hp : 0 < 2 ^ k) by (apply Z.pow_pos_nonneg; lia).
  set (x := wrap (v + (2 ^ k - 1))).
  pose proof (Z.div_mod x (2 ^ k)) as Hd.
  replace (x - x mod 2 ^ k) with (x / 2 ^ k * 2 ^ k) by lia.
  apply Z.mod_mul. lia.
Qed.

Lemma ALIGN_TO_range v k :
  0 <= k < 64 -> 0 <= ALIGN_TO v (2 ^ k) < 2 ^ 64.
Proof.
  intros Hk. rewrite ALIGN_TO_pow2 by lia.
  assert (Hp : 0 < 2 ^ k) by (apply Z.pow_pos_nonneg; lia).
  pose proof (wrap_range (v + (2 ^ k - 1))) as Hw.
  pose proof (Z.mod_pos_bound (wrap (v + (2 ^ k - 1))) (2 ^ k) Hp) as Hm.
  pose proof (Z.mod_le (wrap (v + (2 ^ k - 1))) (2 ^ k)). lia.
Qed.

(** Without wrap-around the result is the least multiple of the
    alignment at or above [v]. *)
Lemma ALIGN_TO_bounds v k :
  0 <= k < 64 -> 0 <= v -> v + 2 ^ k <= 2 ^ 64 ->
  v <= ALIGN_TO v (2 ^ k) < v + 2 ^ k.
Proof.
  intros Hk Hv Hfit. rewrite ALIGN_TO_pow2 by lia.
  assert (Hp : 0 < 2 ^ k) by (apply Z.pow_pos_nonneg; lia).
  rewrite wrap_small by lia.
  pose proof (Z.mod_pos_bound (v + (2 ^ k - 1)) (2 ^ k) Hp). lia.
Qed.

Lemma ALIGN_TO_below_multiple v k M :
  0 <= k < 64 -> 0 <= v <= M -> M mod 2 ^ k = 0 -> v + 2 ^ k <= 2 ^ 64 ->
  ALIGN_TO v (2 ^ k) <= M.
Proof.
  intros Hk Hv HM Hfit.
  assert (Hp : 0 < 2 ^ k) by (apply Z.pow_pos_nonneg; lia).
  pose proof (ALIGN_TO_bounds v k Hk (proj1 Hv) Hfit) as Hb.
  pose proof (ALIGN_TO_multiple v k Hk) as Hmul.
  set (r := ALIGN_TO v (2 ^ k)) in *.
  apply Z.mod_divide in HM; [|lia]. destruct HM as [c Hc].
  apply Z.mod_divide in Hmul; [|lia]. destruct Hmul as [d Hd].
  destruct (Z_le_gt_dec r M) as [Hle|Hgt]; [exact Hle|].
  assert (c < d) by nia. assert (c + 1 <= d) by lia. nia.
Qed.

(** In the lower half of the address space rounding up to any
    power-of-two alignment neither wraps nor leaves that half. *)
Lemma ALIGN_TO_low_half v align :
  pow2_align align -> 0 <= v <= 2 ^ 63 ->
  v <= ALIGN_TO v align <= 2 ^ 63 /\ (ALIGN_TO v align) mod align = 0.
Proof.
  intros [k [Hk ->]] Hv.
  assert (Hp : 0 < 2 ^ k <= 2 ^ 63).
  { split; [apply Z.pow_pos_nonneg; lia | apply Z.pow_le_mono_r; lia]. }
  assert (H64 : 2 ^ 64 = 2 * 2 ^ 63) by reflexivity.
  assert (HM : 2 ^ 63 mod 2 ^ k = 0).
  { replace 63 with ((63 - k) + k) by lia.
    rewrite Z.pow_add_r by lia. apply Z.mod_mul. lia. }
  split; [split|].
  - apply ALIGN_TO_bounds; lia.
  - apply ALIGN_TO_below_multiple; try lia.
  - apply ALIGN_TO_multiple; lia.
Qed.

(** ** Order of the returned ranges *)

Lemma laid_out_follows x y : 0 <= snd x -> laid_out x y -> follows x y.
Proof.
  unfold laid_out, follows, disjoint_ranges. intros Hs H.
  split; [lia | split; [lia | intros a Ha; lia]].
Qed.

Lemma StronglySorted_weaken (A : Type) (R S : A -> A -> Prop) (P : A -> Prop)
  (l : list A) :
  (forall x y, P x -> P y -> R x y -> S x y) ->
  Forall P l -> StronglySorted R l -> StronglySorted S l.
Proof.
  intros HRS HP Hs. induction Hs as [|x l Hs IH Hx].
  - constructor.
  - inversion HP as [|? ? Px Pl]; subst. constructor.
    + apply IH. exact Pl.
    + rewrite Forall_forall in Hx, Pl |- *.
      intros y Hy. apply HRS; auto.
Qed.

Lemma Forall_combine_snd (P : Z -> Prop) (sizes : list Z) : forall ps : list Z,
  Forall P sizes -> Forall (fun x => P (snd x)) (combine ps sizes).
Proof.
  intros ps Hs. revert ps.
  induction Hs as [|s sizes Hs Hrest IH]; intros [|p ps]; cbn [combine];
    try constructor; [exact Hs | apply IH].
Qed.

(** ** Linear allocator *)

Section LinearFacts.

Variable buffer : Z.
Hypothesis buffer_valid : 0 < buffer /\ buffer + Linear.BUFFER_SIZE < 2 ^ 64.

(** One call whose addition [head + size] does not wrap. *)
Lemma allocate_no_wrap head size :
  0 <= head -> 0 <= size -> head + size < 2 ^ 64 ->
  Linear.allocate buffer head size =
    if head + size >? Linear.BUFFER_SIZE then (NULL, head + size)
    else (buffer + head, head + size).
Proof.
  intros Hh Hs Hfit. unfold Linear.allocate.
  rewrite (wrap_small (head + size)) by lia.
  destruct (head + size >? Linear.BUFFER_SIZE) eqn:E; [reflexivity|].
  apply gtb_false in E. pose proof buffer_valid as Hb.
  unfold Linear.BUFFER_SIZE in E, Hb.
  rewrite wrap_small by lia. reflexivity.
Qed.

Lemma allocate_all_exhausted sizes : forall head,
  Linear.BUFFER_SIZE < head ->
  Forall (fun size => 0 <= size) sizes ->
  head + fold_right Z.add 0 sizes < 2 ^ 64 ->
  fst (Linear.allocate_all buffer head sizes) = map (fun _ => NULL) sizes.
Proof.
  induction sizes as [|size rest IH]; intros head Hh Hs Hfit.
  - reflexivity.
  - inversion Hs as [|? ? Hs0 Hrest]; subst.
    cbn [fold_right] in Hfit.
    assert (Hr : 0 <= fold_right Z.add 0 rest).
    { clear -Hrest. induction Hrest; cbn [fold_right]; lia. }
    cbn [Linear.allocate_all map].
    unfold Linear.BUFFER_SIZE in Hh.
    rewrite allocate_no_wrap by lia.
    replace (head + size >? Linear.BUFFER_SIZE) with true
      by (symmetry; apply gtb_true; unfold Linear.BUFFER_SIZE; lia).
    assert (IH' : fst (Linear.allocate_all buffer (head + size) rest)
                  = map (fun _ => NULL) rest).
    { apply IH; [unfold Linear.BUFFER_SIZE; lia | exact Hrest | lia]. }
    destruct (Linear.allocate_all buffer (head + size) rest) as [ps h2].
    cbn [fst] in *. rewrite IH'. reflexivity.
Qed.

End LinearFacts.

(** ** Bump allocation in the lower half of the address space

    Shared by the fixed buffer allocator and the blocks of the arena: with
    the head at or below [2^63], a power-of-two alignment and a size up
    to [PTRDIFF_MAX], neither the rounding nor [head + size] wraps. *)

Lemma bump_no_wrap head size align :
  pow2_align align -> 0 < head <= 2 ^ 63 -> 0 <= size <= PTRDIFF_MAX ->
  0 < ALIGN_TO head align
  /\ head <= ALIGN_TO head align
  /\ (ALIGN_TO head align) mod align = 0
  /\ wrap (ALIGN_TO head align + size) = ALIGN_TO head align + size.
Proof.
  intros Ha Hh Hs.
  destruct (ALIGN_TO_low_half head align Ha) as [[Hlo Hhi] Hmul]; [lia|].
  unfold PTRDIFF_MAX in Hs.
  assert (H64 : 2 ^ 64 = 2 * 2 ^ 63) by reflexivity.
  repeat split; try lia; try assumption.
  apply wrap_small. lia.
Qed.

(** ** Fixed buffer allocator *)

Lemma fba_init_wf buffer buffer_size :
  0 < buffer -> 0 <= buffer_size -> buffer + buffer_size <= 2 ^ 63 ->
  fba_wf (Fba.fba_init buffer buffer_size).
Proof.
  intros Hb Hs Hfit. unfold fba_wf, Fba.fba_init. cbn.
  assert (H64 : 2 ^ 64 = 2 * 2 ^ 63) by reflexivity.
  rewrite wrap_small by lia. lia.
Qed.

Lemma fba_alloc_opt_cases fba size align :
  fba_wf fba -> request_ok (size, align) ->
  let h := ALIGN_TO (Fba.head fba) align in
  (Fba.buffer_end fba < h + size
   /\ Fba.fba_alloc_opt fba size align = (NULL, fba))
  \/ (h + size <= Fba.buffer_end fba
      /\ Fba.fba_alloc_opt fba size align =
           (h, {| Fba.buffer := Fba.buffer fba;
                  Fba.buffer_end := Fba.buffer_end fba;
                  Fba.head := h + size |})
      /\ h <> NULL /\ Fba.head fba <= h /\ h mod align = 0).
Proof.
  intros [[Hb Hbh] [Hhe He]] [Hs Ha]. cbn [fst snd] in Hs, Ha. intros h.
  destruct (bump_no_wrap (Fba.head fba) size align Ha) as (Hpos & Hle & Hmul & Hw);
    [lia | exact Hs |].
  fold h in Hpos, Hle, Hmul, Hw.
  unfold Fba.fba_alloc_opt. fold h. rewrite Hw.
  destruct (h + size >? Fba.buffer_end fba) eqn:E.
  - apply gtb_true in E. left. split; [lia | reflexivity].
  - apply gtb_false in E. right. unfold NULL. repeat split; try lia; assumption.
Qed.

Lemma fba_alloc_opt_wf fba size align p fba' :
  fba_wf fba -> request_ok (size, align) ->
  Fba.fba_alloc_opt fba size align = (p, fba') -> fba_wf fba'.
Proof.
  intros Hwf Hreq Hcall.
  destruct (fba_alloc_opt_cases fba size align Hwf Hreq) as [[_ E]|(Hfit & E & _ & Hle & _)];
    rewrite E in Hcall; injection Hcall as <- <-; [exact Hwf|].
  destruct Hwf as [[Hb Hbh] [Hhe He]]. destruct Hreq as [Hs _]. cbn [fst] in Hs.
  unfold fba_wf. cbn. lia.
Qed.

(** ** Arena *)

Lemma arena_block_init_fields m p next :
  valid_block p -> 0 <= next < 2 ^ 64 ->
  let m' := Arena.arena_block_init p next m in
  load64 m' (Arena.next_field p) = next
  /\ load64 m' (Arena.buffer_end_field p) = p + Arena.ARENA_BLOCK_SIZE
  /\ load64 m' (Arena.head_field p) = p + Arena.HEADER_SIZE
  /\ (forall a, a < p \/ p + Arena.HEADER_SIZE <= a -> m' a = m a).
Proof.
  intros [Hp Hfit] Hn m'. subst m'.
  unfold Arena.arena_block_init, Arena.next_field, Arena.buffer_end_field,
    Arena.head_field, Arena.buffer_field, Arena.ARENA_BLOCK_SIZE,
    Arena.HEADER_SIZE in *.
  assert (H64 : 2 ^ 64 = 2 * 2 ^ 63) by reflexivity.
  rewrite !(wrap_small (p + _)) by lia.
  repeat split.
  - rewrite !load64_store64_other by lia. apply load64_store64_same. lia.
  - rewrite load64_store64_other by lia. apply load64_store64_same. lia.
  - apply load64_store64_same. lia.
  - intros a Ha. rewrite !store64_out by lia. reflexivity.
Qed.

Lemma arena_block_init_wf m p next :
  valid_block p -> 0 <= next < 2 ^ 64 ->
  block_wf (Arena.arena_block_init p next m) p.
Proof.
  intros Hp Hn.
  destruct (arena_block_init_fields m p next Hp Hn) as (_ & He & Hh & _).
  unfold block_wf. rewrite He, Hh.
  unfold Arena.HEADER_SIZE, Arena.ARENA_BLOCK_SIZE. repeat split; try lia; apply Hp.
Qed.

Lemma block_wf_head_low m b :
  block_wf m b -> 0 < load64 m (Arena.head_field b) <= 2 ^ 63.
Proof.
  intros [[Hb Hfit] [He Hh]].
  unfold Arena.HEADER_SIZE, Arena.ARENA_BLOCK_SIZE in *. lia.
Qed.

Lemma block_wf_nonnull m b : block_wf m b -> (b =? NULL) = false.
Proof. intros [[Hb _] _]. apply Z.eqb_neq. unfold NULL. lia. Qed.

(** The two outcomes of a bump allocation against a well-formed block. *)
Lemma arena_block_alloc_cases m b size align :
  block_wf m b -> request_ok (size, align) ->
  let h := ALIGN_TO (load64 m (Arena.head_field b)) align in
  (b + Arena.ARENA_BLOCK_SIZE < h + size
   /\ Arena.arena_block_alloc b size align m = Ok (NULL, m))
  \/ (h + size <= b + Arena.ARENA_BLOCK_SIZE
      /\ Arena.arena_block_alloc b size align m =
           Ok (h, store64 m (Arena.head_field b) (h + size))
      /\ h <> NULL /\ load64 m (Arena.head_field b) <= h /\ h mod align = 0).
Proof.
  intros Hwf [Hs Ha]. cbn [fst snd] in Hs, Ha. intros h.
  pose proof (block_wf_head_low m b Hwf) as Hlow.
  destruct (bump_no_wrap (load64 m (Arena.head_field b)) size align Ha Hlow Hs)
    as (Hpos & Hle & Hmul & Hw).
  fold h in Hpos, Hle, Hmul, Hw.
  unfold Arena.arena_block_alloc. rewrite (block_wf_nonnull m b Hwf).
  fold h. rewrite Hw. destruct Hwf as (_ & He & _). rewrite He.
  destruct (h + size >? b + Arena.ARENA_BLOCK_SIZE) eqn:E.
  - apply gtb_true in E. left. split; [lia | reflexivity].
  - apply gtb_false in E. right. unfold NULL. repeat split; try lia; assumption.
Qed.

(** Against a well-formed block a null result comes from the failure
    branch only, whatever the size: the memory is as before. *)
Lemma arena_block_alloc_null m b size align m' :
  block_wf m b -> pow2_align align ->
  Arena.arena_block_alloc b size align m = Ok (NULL, m') -> m' = m.
Proof.
  intros Hwf Ha Hcall.
  pose proof (block_wf_head_low m b Hwf) as Hlow.
  destruct (ALIGN_TO_low_half (load64 m (Arena.head_field b)) align Ha)
    as [[Hlo _] _]; [lia|].
  unfold Arena.arena_block_alloc in Hcall.
  rewrite (block_wf_nonnull m b Hwf) in Hcall.
  destruct (_ >? _) in Hcall.
  - injection Hcall as <-. reflexivity.
  - injection Hcall as Hnull _. unfold NULL in Hnull. lia.
Qed.

(** A request larger than the payload of a block does not fit any
    well-formed block. *)
Lemma arena_block_alloc_oversize m b size align :
  block_wf m b -> request_ok (size, align) ->
  Arena.ARENA_BLOCK_SIZE - Arena.HEADER_SIZE < size ->
  Arena.arena_block_alloc b size align m = Ok (NULL, m).
Proof.
  intros Hwf Hreq Hbig.
  destruct (arena_block_alloc_cases m b size align Hwf Hreq)
    as [[_ E]|(Hfit & _ & _ & Hle & _)]; [exact E|].
  destruct Hwf as (_ & _ & Hh). lia.
Qed.

Lemma store_head_wf m b v :
  block_wf m b -> b + Arena.HEADER_SIZE <= v <= b + Arena.ARENA_BLOCK_SIZE ->
  block_wf (store64 m (Arena.head_field b) v) b.
Proof.
  intros (Hv & He & Hh) Hr. unfold block_wf.
  destruct Hv as [Hb Hfit].
  unfold valid_block, Arena.head_field, Arena.buffer_end_field,
    Arena.ARENA_BLOCK_SIZE, Arena.HEADER_SIZE in *.
  assert (H64 : 2 ^ 64 = 2 * 2 ^ 63) by reflexivity.
  rewrite load64_store64_other by lia.
  rewrite load64_store64_same by lia. lia.
Qed.

Lemma arena_new_block_ok a w p rest :
  Arena.heap w = p :: rest -> p <> NULL ->
  Arena.arena_new_block a w =
    (p, {| Arena.blocks := p |},
     {| Arena.mem := Arena.arena_block_init p (Arena.blocks a) (Arena.mem w);
        Arena.heap := rest |}).
Proof.
  intros Hheap Hp. unfold Arena.arena_new_block, Arena.malloc. rewrite Hheap.
  apply Z.eqb_neq in Hp. rewrite Hp. reflexivity.
Qed.

Lemma arena_new_block_refused a w :
  refuses w ->
  exists w', Arena.arena_new_block a w = (NULL, a, w')
             /\ Arena.mem w' = Arena.mem w.
Proof.
  unfold refuses, Arena.arena_new_block. intros Href.
  destruct (Arena.malloc Arena.ARENA_BLOCK_SIZE w) as [blk w1] eqn:E.
  cbn [fst] in Href. subst blk. rewrite Z.eqb_refl.
  exists w1. split; [reflexivity|].
  unfold Arena.malloc in E.
  destruct (Arena.heap w); inversion E; subst; reflexivity.
Qed.

Lemma refuses_set_mem w m : refuses w -> refuses (Arena.set_mem w m).
Proof.
  unfold refuses, Arena.malloc, Arena.set_mem. cbn [Arena.heap].
  destruct (Arena.heap w); exact (fun H => H).
Qed.

(** What [arena_alloc] does on an arena that has a block already. *)
Lemma arena_alloc_nonempty a size align w :
  Arena.blocks a <> NULL ->
  Arena.arena_alloc a size align w =
    match Arena.arena_block_alloc (Arena.blocks a) size align (Arena.mem w) with
    | Fault => Fault
    | Ok (buf, m) =>
        if negb (buf =? NULL) then Ok (buf, a, Arena.set_mem w m)
        else
          let '(blk, a, w) := Arena.arena_new_block a (Arena.set_mem w m) in
          match Arena.arena_block_alloc blk size align (Arena.mem w) with
          | Fault => Fault
          | Ok (buf, m) => Ok (buf, a, Arena.set_mem w m)
          end
    end.
Proof.
  intros Hne. apply Z.eqb_neq in Hne.
  unfold Arena.arena_alloc, Arena.arena_get_block. rewrite Hne.
  cbn [negb]. rewrite Hne. reflexivity.
Qed.

(** An arena without a block whose backing allocator refuses: the call
    returns null and leaves the arena and the memory as they were. *)
Lemma arena_alloc_empty_refused a size align w :
  Arena.blocks a = NULL -> refuses w ->
  exists w', Arena.arena_alloc a size align w = Ok (NULL, a, w')
             /\ Arena.mem w' = Arena.mem w.
Proof.
  intros He Href.
  destruct (arena_new_block_refused a w Href) as (w' & Hnew & Hmem).
  unfold Arena.arena_alloc, Arena.arena_get_block.
  rewrite He, Z.eqb_refl. cbn [negb]. rewrite Hnew, Z.eqb_refl.
  exists w'. split; [reflexivity | exact Hmem].
Qed.

(** C1, as the code behaves.  When the backing allocator refuses the
    block an [arena_alloc] call asks for, the call returns null if the
    block was the first one of an empty arena, and faults if it was a
    new block asked for because the most recent one had no room: the
    null result of [arena_new_block] is passed to [arena_block_alloc]
    unchecked. *)
Theorem arena_alloc_backing_refusal a size align w :
  refuses w ->
  (Arena.blocks a = NULL ->
   exists w', Arena.arena_alloc a size align w = Ok (NULL, a, w')
              /\ Arena.mem w' = Arena.mem w)
  /\ (Arena.blocks a <> NULL ->
      cannot_satisfy (Arena.mem w) (Arena.blocks a) size align ->
      Arena.arena_alloc a size align w = Fault).
Proof.
  intros Href. split.
  - intros He. apply arena_alloc_empty_refused; assumption.
  - intros Hne Hfull. rewrite arena_alloc_nonempty by exact Hne.
    unfold cannot_satisfy in Hfull.
    destruct (Arena.arena_block_alloc (Arena.blocks a) size align (Arena.mem w))
      as [|[buf m]]; [contradiction|].
    subst buf. rewrite Z.eqb_refl. cbn [negb].
    destruct (arena_new_block_refused a (Arena.set_mem w m)
                (refuses_set_mem w m Href)) as (w' & Hnew & _).
    rewrite Hnew. reflexivity.
Qed.

Lemma arena_alloc_backing_refusal_witness :
  (refuses (blank_world [])
   /\ Arena.blocks empty_arena = NULL
   /\ exists w', Arena.arena_alloc empty_arena 8 8 (blank_world [])
                 = Ok (NULL, empty_arena, w'))
  /\ refuses (full_block_world [])
  /\ Arena.blocks full_block_arena <> NULL
  /\ cannot_satisfy (Arena.mem (full_block_world [])) 4096 8 8
  /\ Arena.arena_alloc full_block_arena 8 8 (full_block_world []) = Fault.
Proof.
  assert (Href0 : refuses (blank_world [])) by reflexivity.
  assert (Href : refuses (full_block_world [])) by reflexivity.
  assert (Hne : Arena.blocks full_block_arena <> NULL) by discriminate.
  assert (Hfull : cannot_satisfy (Arena.mem (full_block_world [])) 4096 8 8)
    by (vm_compute; reflexivity).
  split.
  - split; [exact Href0 | split; [reflexivity|]].
    destruct (proj1 (arena_alloc_backing_refusal empty_arena 8 8
                       (blank_world []) Href0) eq_refl) as (w' & Hcall & _).
    exists w'. exact Hcall.
  - split; [exact Href | split; [exact Hne | split; [exact Hfull|]]].
    exact (proj2 (arena_alloc_backing_refusal full_block_arena 8 8
                    (full_block_world []) Href) Hne Hfull).
Defined.

Lemma load64_ext m m' q :
  (forall i, 0 <= i < 8 -> m' (q + i) = m (q + i)) ->
  load64 m' q = load64 m q.
Proof.
  intros H. unfold load64.
  rewrite <- (Z.add_0_r q) at 1 9.
  rewrite !H by lia. rewrite Z.add_0_r. reflexivity.
Qed.

(** A chain of blocks stays what it is when none of its [next] fields is
    written. *)
Lemma block_list_frame m m' l : forall b,
  block_list m b l ->
  Forall (fun x => load64 m' (Arena.next_field x) = load64 m (Arena.next_field x)) l ->
  block_list m' b l.
Proof.
  induction l as [|x l IH]; intros b Hl Hsame; inversion Hl; subst.
  - constructor.
  - inversion Hsame as [|? ? Hx Hrest]; subst. constructor; [assumption|].
    rewrite Hx. apply IH; assumption.
Qed.

(** Growing an arena that has a well-formed most recent block with no
    room, when the backing allocator hands out [p]: the outcome of the
    retry against the block set up at [p]. *)
Lemma arena_alloc_grow a size align w p rest :
  block_wf (Arena.mem w) (Arena.blocks a) -> pow2_align align ->
  cannot_satisfy (Arena.mem w) (Arena.blocks a) size align ->
  Arena.heap w = p :: rest -> valid_block p ->
  Arena.arena_alloc a size align w =
    match Arena.arena_block_alloc p size align
            (Arena.arena_block_init p (Arena.blocks a) (Arena.mem w)) with
    | Fault => Fault
    | Ok (buf, m) =>
        Ok (buf, {| Arena.blocks := p |}, {| Arena.mem := m; Arena.heap := rest |})
    end.
Proof.
  intros Hwf Ha Hfull Hheap Hp.
  assert (Hne : Arena.blocks a <> NULL).
  { destruct Hwf as [[Hb _] _]. unfold NULL. lia. }
  rewrite arena_alloc_nonempty by exact Hne.
  unfold cannot_satisfy in Hfull.
  destruct (Arena.arena_block_alloc (Arena.blocks a) size align (Arena.mem w))
    as [|[buf m]] eqn:E; [contradiction|].
  subst buf. apply arena_block_alloc_null in E; [|assumption..]. subst m.
  rewrite Z.eqb_refl. cbn [negb].
  rewrite (arena_new_block_ok a (Arena.set_mem w (Arena.mem w)) p rest);
    [| exact Hheap | destruct Hp; unfold NULL; lia].
  cbn [Arena.mem Arena.set_mem Arena.heap].
  destruct (Arena.arena_block_alloc p size align _) as [|[buf m]]; reflexivity.
Qed.

(** C10.  On an arena whose most recent block is well formed and has no
    room for the request, a call that fails although the backing
    allocator handed out a block [p] leaves the arena grown by exactly
    that block: [p] is the most recent block, its [next] is the former
    most recent block, its end is [ARENA_BLOCK_SIZE] after [p], its head
    is at the start of its payload, the chain of blocks is the former
    chain with [p] in front, and no byte outside the header of [p] has
    changed. *)
Theorem arena_failed_growth_keeps_block a size align w p rest l a' w' :
  block_wf (Arena.mem w) (Arena.blocks a) ->
  block_list (Arena.mem w) (Arena.blocks a) l ->
  Forall (fun b => p + Arena.HEADER_SIZE <= b \/ b + Arena.HEADER_SIZE <= p) l ->
  pow2_align align ->
  cannot_satisfy (Arena.mem w) (Arena.blocks a) size align ->
  Arena.heap w = p :: rest -> valid_block p ->
  Arena.arena_alloc a size align w = Ok (NULL, a', w') ->
  Arena.blocks a' = p
  /\ Arena.heap w' = rest
  /\ load64 (Arena.mem w') (Arena.next_field p) = Arena.blocks a
  /\ load64 (Arena.mem w') (Arena.buffer_end_field p) = p + Arena.ARENA_BLOCK_SIZE
  /\ load64 (Arena.mem w') (Arena.head_field p) = p + Arena.HEADER_SIZE
  /\ block_list (Arena.mem w') (Arena.blocks a') (p :: l)
  /\ (forall x, x < p \/ p + Arena.HEADER_SIZE <= x ->
                Arena.mem w' x = Arena.mem w x).
Proof.
  intros Hwf Hl Hfresh Ha Hfull Hheap Hp Hcall.
  rewrite (arena_alloc_grow a size align w p rest) in Hcall by assumption.
  assert (Hnext : 0 <= Arena.blocks a < 2 ^ 64).
  { destruct Hwf as [[Hb Hfit] _]. unfold Arena.ARENA_BLOCK_SIZE in Hfit.
    assert (H64 : 2 ^ 64 = 2 * 2 ^ 63) by reflexivity. lia. }
  pose proof (arena_block_init_wf (Arena.mem w) p (Arena.blocks a) Hp Hnext) as Hwfp.
  destruct (arena_block_init_fields (Arena.mem w) p (Arena.blocks a) Hp Hnext)
    as (Hn & He & Hh & Hout).
  set (m2 := Arena.arena_block_init p (Arena.blocks a) (Arena.mem w)) in *.
  destruct (Arena.arena_block_alloc p size align m2) as [|[buf m]] eqn:E;
    [discriminate|].
  injection Hcall as -> <- <-.
  apply arena_block_alloc_null in E; [|assumption..]. subst m.
  cbn [Arena.blocks Arena.mem Arena.heap].
  repeat split; try assumption.
  constructor.
  - destruct Hp. unfold NULL. lia.
  - rewrite Hn. apply (block_list_frame (Arena.mem w)); [exact Hl|].
    eapply Forall_impl; [|exact Hfresh]. intros b Hb. cbn beta in Hb.
    apply load64_ext. intros i Hi. apply Hout.
    unfold Arena.next_field, Arena.HEADER_SIZE in *. lia.
Qed.

Lemma pow2_align_8 : pow2_align 8.
Proof. exists 3. split; [lia | reflexivity]. Qed.

Lemma pow2_align_1 : pow2_align 1.
Proof. exists 0. split; [lia | reflexivity]. Qed.

Lemma full_block_wf answers :
  block_wf (Arena.mem (full_block_world answers)) 4096.
Proof. by_computation. Qed.

Lemma full_block_list answers :
  block_list (Arena.mem (full_block_world answers)) 4096 [4096].
Proof.
  constructor; [discriminate|].
  change (load64 (Arena.mem (full_block_world answers)) (Arena.next_field 4096))
    with NULL.
  constructor.
Qed.

Lemma arena_failed_growth_keeps_block_witness :
  let w' := {| Arena.mem :=
                 Arena.arena_block_init 8192 4096
                   (Arena.mem (full_block_world [8192]));
               Arena.heap := [] |} in
  Arena.arena_alloc full_block_arena 2000 8 (full_block_world [8192])
    = Ok (NULL, {| Arena.blocks := 8192 |}, w')
  /\ load64 (Arena.mem w') (Arena.next_field 8192) = 4096
  /\ load64 (Arena.mem w') (Arena.head_field 8192) = 8192 + Arena.HEADER_SIZE
  /\ block_list (Arena.mem w') 8192 [8192; 4096].
Proof.
  intros w'.
  assert (Hcall : Arena.arena_alloc full_block_arena 2000 8 (full_block_world [8192])
                  = Ok (NULL, {| Arena.blocks := 8192 |}, w')) by reflexivity.
  assert (Hfresh : Forall (fun b => 8192 + Arena.HEADER_SIZE <= b
                                    \/ b + Arena.HEADER_SIZE <= 8192) [4096]).
  { constructor; [right; by_computation | constructor]. }
  assert (Hfull : cannot_satisfy (Arena.mem (full_block_world [8192])) 4096 2000 8)
    by (vm_compute; reflexivity).
  assert (Hp : valid_block 8192) by by_computation.
  destruct (arena_failed_growth_keeps_block full_block_arena 2000 8
              (full_block_world [8192]) 8192 [] [4096] _ w'
              (full_block_wf [8192]) (full_block_list [8192]) Hfresh
              pow2_align_8 Hfull eq_refl Hp Hcall)
    as (_ & _ & Hn & _ & Hh & Hl & _).
  split; [exact Hcall | split; [exact Hn | split; [exact Hh | exact Hl]]].
Defined.

(** C4, as the code behaves.  A request larger than the payload of a
    block ([ARENA_BLOCK_SIZE] less the header) and no larger than
    [PTRDIFF_MAX] is refused whenever the backing allocator hands out
    the blocks asked for: on an arena with a block, one new block of the
    ordinary size is set up and the single retry against it fails; on an
    empty arena the first block is set up, fails, and the same happens
    once more; on an empty arena whose first block is refused the call
    returns null at once.  The blocks created are well formed, so their
    end is [ARENA_BLOCK_SIZE] after their start, and are left empty. *)
Theorem arena_alloc_oversize a size align w :
  arena_wf a w -> pow2_align align ->
  Arena.ARENA_BLOCK_SIZE - Arena.HEADER_SIZE < size <= PTRDIFF_MAX ->
  (forall p rest,
      Arena.blocks a <> NULL -> Arena.heap w = p :: rest -> valid_block p ->
      exists m',
        Arena.arena_alloc a size align w =
          Ok (NULL, {| Arena.blocks := p |},
              {| Arena.mem := m'; Arena.heap := rest |})
        /\ m' = Arena.arena_block_init p (Arena.blocks a) (Arena.mem w)
        /\ block_wf m' p
        /\ load64 m' (Arena.head_field p) = p + Arena.HEADER_SIZE)
  /\ (forall p1 p2 rest,
      Arena.blocks a = NULL -> Arena.heap w = p1 :: p2 :: rest ->
      valid_block p1 -> valid_block p2 ->
      exists m',
        Arena.arena_alloc a size align w =
          Ok (NULL, {| Arena.blocks := p2 |},
              {| Arena.mem := m'; Arena.heap := rest |})
        /\ m' = Arena.arena_block_init p2 p1
                  (Arena.arena_block_init p1 NULL (Arena.mem w))
        /\ block_wf m' p2
        /\ load64 m' (Arena.head_field p2) = p2 + Arena.HEADER_SIZE)
  /\ (Arena.blocks a = NULL -> refuses w ->
      exists w', Arena.arena_alloc a size align w = Ok (NULL, a, w')
                 /\ Arena.mem w' = Arena.mem w).
Proof.
  intros Hwf Ha [Hbig Hmax].
  assert (H64 : 2 ^ 64 = 2 * 2 ^ 63) by reflexivity.
  assert (Hreq : request_ok (size, align)).
  { split; cbn [fst snd]; [|exact Ha].
    unfold Arena.ARENA_BLOCK_SIZE, Arena.HEADER_SIZE in Hbig. lia. }
  assert (Hword : forall p, valid_block p -> 0 <= p < 2 ^ 64 /\ p <> NULL).
  { intros p [Hp Hfit]. unfold Arena.ARENA_BLOCK_SIZE in Hfit. unfold NULL. lia. }
  split; [|split].
  - intros p rest Hne Hheap Hp.
    destruct Hwf as [He|Hwf]; [contradiction|].
    destruct (Hword _ (proj1 Hwf)) as [Hb _].
    eexists. split; [|split; [reflexivity|split]].
    + rewrite (arena_alloc_grow a size align w p rest); try assumption.
      * rewrite arena_block_alloc_oversize;
          [reflexivity | apply arena_block_init_wf | |]; assumption.
      * unfold cannot_satisfy.
        rewrite arena_block_alloc_oversize by assumption. reflexivity.
    + apply arena_block_init_wf; assumption.
    + apply arena_block_init_fields; assumption.
  - intros p1 p2 rest He Hheap Hp1 Hp2.
    destruct (Hword _ Hp1) as [Hw1 Hn1].
    eexists. split; [|split; [reflexivity|split]].
    + unfold Arena.arena_alloc, Arena.arena_get_block.
      rewrite He, Z.eqb_refl. cbn [negb].
      rewrite (arena_new_block_ok a w p1 (p2 :: rest)) by assumption.
      apply Z.eqb_neq in Hn1. rewrite Hn1. cbn [Arena.mem]. rewrite He.
      rewrite arena_block_alloc_oversize;
        [| apply arena_block_init_wf; [assumption | unfold NULL; lia]
         | assumption..].
      rewrite Z.eqb_refl. cbn [negb].
      rewrite (arena_new_block_ok _ _ p2 rest);
        [| reflexivity | apply Hword; assumption].
      cbn [Arena.mem Arena.set_mem Arena.heap Arena.blocks].
      rewrite arena_block_alloc_oversize;
        [reflexivity | apply arena_block_init_wf | |]; assumption.
    + apply arena_block_init_wf; assumption.
    + apply arena_block_init_fields; assumption.
  - intros He Href. apply arena_alloc_empty_refused; assumption.
Qed.

Lemma arena_alloc_oversize_witness :
  (exists m',
      Arena.arena_alloc full_block_arena 2000 8 (full_block_world [8192]) =
        Ok (NULL, {| Arena.blocks := 8192 |},
            {| Arena.mem := m'; Arena.heap := [] |})
      /\ load64 m' (Arena.buffer_end_field 8192) = 8192 + Arena.ARENA_BLOCK_SIZE)
  /\ (exists m',
      Arena.arena_alloc empty_arena 2000 8 (blank_world [4096; 8192]) =
        Ok (NULL, {| Arena.blocks := 8192 |},
            {| Arena.mem := m'; Arena.heap := [] |})
      /\ load64 m' (Arena.buffer_end_field 8192) = 8192 + Arena.ARENA_BLOCK_SIZE)
  /\ exists w',
      Arena.arena_alloc empty_arena 2000 8 (blank_world []) =
        Ok (NULL, empty_arena, w').
Proof.
  assert (Hsz : Arena.ARENA_BLOCK_SIZE - Arena.HEADER_SIZE < 2000 <= PTRDIFF_MAX)
    by by_computation.
  assert (Hp1 : valid_block 4096) by by_computation.
  assert (Hp2 : valid_block 8192) by by_computation.
  split; [|split].
  - assert (Hwf : arena_wf full_block_arena (full_block_world [8192]))
      by (right; apply full_block_wf).
    destruct (arena_alloc_oversize full_block_arena 2000 8
                (full_block_world [8192]) Hwf pow2_align_8 Hsz) as (Hgrow & _ & _).
    destruct (Hgrow 8192 []) as (m' & Hcall & _ & (_ & Hend & _) & _);
      [discriminate | reflexivity | exact Hp2 |].
    exists m'. split; [exact Hcall | exact Hend].
  - assert (Hwf : arena_wf empty_arena (blank_world [4096; 8192]))
      by (left; reflexivity).
    destruct (arena_alloc_oversize empty_arena 2000 8 (blank_world [4096; 8192])
                Hwf pow2_align_8 Hsz) as (_ & Hempty & _).
    destruct (Hempty 4096 8192 [] eq_refl eq_refl Hp1 Hp2)
      as (m' & Hcall & _ & (_ & Hend & _) & _).
    exists m'. split; [exact Hcall | exact Hend].
  - assert (Hwf : arena_wf empty_arena (blank_world [])) by (left; reflexivity).
    destruct (arena_alloc_oversize empty_arena 2000 8 (blank_world [])
                Hwf pow2_align_8 Hsz) as (_ & _ & Hrefused).
    destruct (Hrefused eq_refl eq_refl) as (w' & Hcall & _).
    exists w'. exact Hcall.
Defined.

(** C4, as stated, fails on two inputs, both with a size above the
    payload of a block.  With the backing allocator refusing the new
    block the call faults instead of returning null; with a size so
    large that [head + size] wraps around [2^64] the call succeeds. *)
Lemma arena_alloc_oversize_counterexample :
  Arena.ARENA_BLOCK_SIZE - Arena.HEADER_SIZE < 2000
  /\ Arena.arena_alloc full_block_arena 2000 8 (full_block_world []) = Fault
  /\ Arena.ARENA_BLOCK_SIZE - Arena.HEADER_SIZE < 2 ^ 64 - 8 < 2 ^ 64
  /\ fst (fst (match Arena.arena_alloc empty_arena (2 ^ 64 - 8) 1
                       (blank_world [4096]) with
               | Ok r => r
               | Fault => (NULL, empty_arena, blank_world [])
               end)) = 4096 + Arena.HEADER_SIZE.
Proof. by_computation. Qed.

(** ** Alignment of the returned pointers *)

Lemma arena_block_alloc_aligned b size align m p m' :
  pow2_align align ->
  Arena.arena_block_alloc b size align m = Ok (p, m') ->
  p <> NULL -> p mod align = 0.
Proof.
  intros [k [Hk ->]] Hcall Hp. unfold Arena.arena_block_alloc in Hcall.
  destruct (b =? NULL); [discriminate|].
  destruct (_ >? _) in Hcall; injection Hcall as <- _.
  - contradiction.
  - apply ALIGN_TO_multiple. exact Hk.
Qed.

(** C7.  For a power-of-two [align], in every state, the pointer a
    successful [fba_alloc_opt] or [arena_alloc] returns is a multiple of
    [align]. *)
Theorem alloc_result_aligned align :
  pow2_align align ->
  (forall fba size p fba',
      Fba.fba_alloc_opt fba size align = (p, fba') ->
      p <> NULL -> p mod align = 0)
  /\ (forall a size w p a' w',
      Arena.arena_alloc a size align w = Ok (p, a', w') ->
      p <> NULL -> p mod align = 0).
Proof.
  intros Ha. split.
  - intros fba size p fba' Hcall Hp. destruct Ha as [k [Hk ->]].
    unfold Fba.fba_alloc_opt in Hcall.
    destruct (_ >? _) in Hcall; injection Hcall as <- _.
    + contradiction.
    + apply ALIGN_TO_multiple. exact Hk.
  - intros a size w p a' w' Hcall Hp. unfold Arena.arena_alloc in Hcall.
    destruct (Arena.arena_get_block a w) as [[blk a1] w1].
    destruct (blk =? NULL).
    { injection Hcall as <- _ _. contradiction. }
    destruct (Arena.arena_block_alloc blk size align (Arena.mem w1))
      as [|[buf m]] eqn:E1; [discriminate|].
    destruct (buf =? NULL) eqn:Eb; cbn [negb] in Hcall.
    + destruct (Arena.arena_new_block a1 (Arena.set_mem w1 m)) as [[blk2 a2] w2].
      destruct (Arena.arena_block_alloc blk2 size align (Arena.mem w2))
        as [|[buf2 m2]] eqn:E2; [discriminate|].
      injection Hcall as <- _ _.
      eapply arena_block_alloc_aligned; eassumption.
    + injection Hcall as <- _ _.
      eapply arena_block_alloc_aligned; eassumption.
Qed.

Lemma alloc_result_aligned_witness :
  fst (Fba.fba_alloc_opt (Fba.fba_init 4097 1024) 4 8) = 4104
  /\ 4104 mod 8 = 0
  /\ returned (Arena.arena_alloc empty_arena 4 8 (blank_world [4100]))
     = Some 4128
  /\ 4128 mod 8 = 0.
Proof.
  destruct (alloc_result_aligned 8 pow2_align_8) as [Hfba Harena].
  split; [reflexivity | split].
  - apply (Hfba (Fba.fba_init 4097 1024) 4 4104
             (snd (Fba.fba_alloc_opt (Fba.fba_init 4097 1024) 4 8)));
      [reflexivity | discriminate].
  - assert (Hret : returned (Arena.arena_alloc empty_arena 4 8 (blank_world [4100]))
                   = Some 4128) by (vm_compute; reflexivity).
    split; [exact Hret|].
    destruct (Arena.arena_alloc empty_arena 4 8 (blank_world [4100]))
      as [|[[p a'] w']] eqn:Ecall; [discriminate|].
    cbn [returned] in Hret. injection Hret as ->.
    apply (Harena empty_arena 4 (blank_world [4100]) 4128 a' w' Ecall).
    discriminate.
Defined.

(** ** A failed call and the state of the allocator *)

Lemma fba_alloc_opt_null fba size align fba' :
  fba_wf fba -> pow2_align align ->
  Fba.fba_alloc_opt fba size align = (NULL, fba') -> fba' = fba.
Proof.
  intros [[Hb Hbh] [Hhe He]] Ha Hcall.
  destruct (ALIGN_TO_low_half (Fba.head fba) align Ha) as [[Hlo _] _]; [lia|].
  unfold Fba.fba_alloc_opt in Hcall.
  destruct (_ >? _) in Hcall.
  - injection Hcall as <-. reflexivity.
  - injection Hcall as Hnull _. unfold NULL in Hnull. lia.
Qed.

Lemma ba_alloc_null ba m ba' m' :
  BlockAllocator.ba_alloc ba m = (NULL, ba', m') -> ba' = ba /\ m' = m.
Proof.
  unfold BlockAllocator.ba_alloc. intros Hcall.
  destruct (BlockAllocator.blocks ba =? NULL) eqn:E.
  - injection Hcall as <- <-. split; reflexivity.
  - injection Hcall as Hnull _ _. apply Z.eqb_neq in E. contradiction.
Qed.

(** C2, as the code behaves.  A failed [fba_alloc_opt] (on a well-formed
    allocator, with a power-of-two alignment) and a failed [ba_alloc]
    leave the allocator and the memory exactly as they were, and so does
    an [arena_alloc] that fails because the backing allocator refuses
    the first block of an empty arena. *)
Theorem failed_alloc_keeps_state :
  (forall fba size align fba',
      fba_wf fba -> pow2_align align ->
      Fba.fba_alloc_opt fba size align = (NULL, fba') -> fba' = fba)
  /\ (forall ba m ba' m',
      BlockAllocator.ba_alloc ba m = (NULL, ba', m') -> ba' = ba /\ m' = m)
  /\ (forall a size align w,
      Arena.blocks a = NULL -> refuses w ->
      exists w', Arena.arena_alloc a size align w = Ok (NULL, a, w')
                 /\ Arena.mem w' = Arena.mem w).
Proof.
  split; [|split].
  - exact fba_alloc_opt_null.
  - exact ba_alloc_null.
  - intros a size align w. apply arena_alloc_empty_refused.
Qed.

Lemma failed_alloc_keeps_state_witness :
  snd (Fba.fba_alloc_opt (Fba.fba_init 4096 1024) 2000 8) = Fba.fba_init 4096 1024
  /\ fst (BlockAllocator.ba_alloc exhausted_ba (fun _ => 0)) = (NULL, exhausted_ba)
  /\ exists w', Arena.arena_alloc empty_arena 16 8 (blank_world [NULL])
                = Ok (NULL, empty_arena, w').
Proof.
  destruct failed_alloc_keeps_state as (Hfba & Hba & Harena).
  split; [|split].
  - apply (Hfba _ 2000 8); [by_computation | exact pow2_align_8 | reflexivity].
  - destruct (Hba exhausted_ba (fun _ => 0) exhausted_ba (fun _ => 0) eq_refl)
      as [Hsame _].
    exact (f_equal (fun ba => (NULL, ba)) Hsame).
  - destruct (Harena empty_arena 16 8 (blank_world [NULL]) eq_refl eq_refl)
      as (w' & Hcall & _).
    exists w'. exact Hcall.
Defined.

(** C2, as stated, fails: a failed [allocate] of the linear allocator
    has moved the head (from 1000 to 1100 here), and a failed
    [arena_alloc] that grew the arena has left the new block in it. *)
Lemma failed_alloc_keeps_state_counterexample :
  Linear.allocate 4096 1000 100 = (NULL, 1100)
  /\ 1100 <> 1000
  /\ exists w',
       Arena.arena_alloc full_block_arena 2000 8 (full_block_world [8192])
         = Ok (NULL, {| Arena.blocks := 8192 |}, w')
       /\ {| Arena.blocks := 8192 |} <> full_block_arena.
Proof.
  split; [reflexivity | split; [discriminate|]].
  eexists. split; [reflexivity | discriminate].
Qed.

(** ** Exhaustion of the linear allocator *)

(** C3, as the code behaves.  As long as [head + size] stays below
    [2^64], [allocate] fails exactly when [head + size] exceeds
    [BUFFER_SIZE], a successful call returns [&buffer[head]], and either
    way the head becomes [head + size]; once the head is past
    [BUFFER_SIZE], every call of a run fails as long as the head and the
    sizes requested add up to less than [2^64]. *)
Theorem linear_allocate_exhaustion buffer :
  0 < buffer /\ buffer + Linear.BUFFER_SIZE < 2 ^ 64 ->
  (forall head size,
      0 <= head -> 0 <= size -> head + size < 2 ^ 64 ->
      (fst (Linear.allocate buffer head size) = NULL
       <-> Linear.BUFFER_SIZE < head + size)
      /\ (fst (Linear.allocate buffer head size) <> NULL ->
          fst (Linear.allocate buffer head size) = buffer + head)
      /\ snd (Linear.allocate buffer head size) = head + size)
  /\ (forall head sizes,
      Linear.BUFFER_SIZE < head ->
      Forall (fun size => 0 <= size) sizes ->
      head + fold_right Z.add 0 sizes < 2 ^ 64 ->
      fst (Linear.allocate_all buffer head sizes) = map (fun _ => NULL) sizes).
Proof.
  intros Hb. split.
  - intros head size Hh Hs Hfit.
    rewrite (allocate_no_wrap buffer Hb) by assumption.
    destruct (head + size >? Linear.BUFFER_SIZE) eqn:E; cbn [fst snd].
    + apply gtb_true in E. repeat split; try tauto.
    + apply gtb_false in E. unfold NULL.
      repeat split; try reflexivity; intros H; exfalso; lia.
  - intros head sizes. apply allocate_all_exhausted. exact Hb.
Qed.

Lemma linear_allocate_exhaustion_witness :
  (fst (Linear.allocate 4096 1000 100) = NULL <-> Linear.BUFFER_SIZE < 1000 + 100)
  /\ snd (Linear.allocate 4096 1000 100) = 1000 + 100
  /\ fst (Linear.allocate_all 4096 1100 [0; 8; 1]) = [NULL; NULL; NULL].
Proof.
  assert (Hb : 0 < 4096 /\ 4096 + Linear.BUFFER_SIZE < 2 ^ 64) by by_computation.
  destruct (linear_allocate_exhaustion 4096 Hb) as [Hone Hrun].
  destruct (Hone 1000 100) as (Hiff & _ & Hhead); [lia | lia | by_computation|].
  split; [exact Hiff | split; [exact Hhead|]].
  apply (Hrun 1100 [0; 8; 1]).
  - by_computation.
  - repeat constructor; lia.
  - by_computation.
Defined.

(** C3, as stated, fails: [head + size] is computed modulo [2^64].
    From an empty buffer, a first call for 1025 bytes fails and leaves
    the head at 1025, past the capacity; the next call, for
    [2^64 - 1025] bytes, brings the head back to 0 and succeeds,
    although [1025 + (2^64 - 1025)] exceeds the capacity, and so does
    the call after it. *)
Lemma linear_allocate_exhaustion_counterexample :
  Linear.allocate_all 4096 0 [1025; 2 ^ 64 - 1025; 8]
    = ([NULL; 4096 + 1025; 4096], 8)
  /\ Linear.BUFFER_SIZE < 1025 + (2 ^ 64 - 1025)
  /\ 0 <= 2 ^ 64 - 1025 < 2 ^ 64.
Proof. by_computation. Qed.

(** ** Block allocator *)

Lemma free_list_frame m m' l : forall p,
  free_list m p l ->
  Forall (fun x => load64 m' x = load64 m x) l ->
  free_list m' p l.
Proof.
  induction l as [|x l IH]; intros p Hl Hsame; inversion Hl; subst.
  - constructor.
  - inversion Hsame as [|? ? Hx Hrest]; subst. constructor; [assumption|].
    rewrite Hx. apply IH; assumption.
Qed.

Lemma free_list_store m p v l q :
  free_list m q l -> Forall (apart p) l -> free_list (store64 m p v) q l.
Proof.
  intros Hl Hap. apply (free_list_frame m); [exact Hl|].
  eapply Forall_impl; [|exact Hap]. intros x Hx. cbn beta in Hx.
  unfold apart, BlockAllocator.LINK_SIZE in Hx.
  apply load64_store64_other. lia.
Qed.

Lemma free_list_hd m p l : free_list m p l -> p = hd NULL l.
Proof. intros H. inversion H; reflexivity. Qed.

Section BlockAllocatorInit.

Variables buffer item_size : Z.
Hypothesis buffer_pos : 0 < buffer.
Hypothesis item_fits_link : BlockAllocator.LINK_SIZE <= item_size.

Lemma cells_desc_length n : length (cells_desc buffer item_size n) = n.
Proof. induction n as [|n IH]; cbn; [reflexivity | rewrite IH; reflexivity]. Qed.

(** Every cell of [cells_desc n] is in the buffer, a whole cell below
    the start of cell [n]. *)
Lemma cells_desc_bounds n :
  Forall (fun c => buffer <= c
                   /\ c + item_size <= cell buffer item_size (Z.of_nat n))
         (cells_desc buffer item_size n).
Proof.
  pose proof item_fits_link as Hi. unfold BlockAllocator.LINK_SIZE in Hi.
  induction n as [|n IH]; cbn [cells_desc]; constructor.
  - unfold cell. nia.
  - eapply Forall_impl; [|exact IH]. intros c [Hlo Hhi].
    unfold cell in *. nia.
Qed.

Lemma cells_desc_apart n :
  ForallOrdPairs apart (cells_desc buffer item_size n).
Proof.
  pose proof item_fits_link as Hi. unfold BlockAllocator.LINK_SIZE in Hi.
  induction n as [|n IH]; cbn [cells_desc]; constructor; [|exact IH].
  eapply Forall_impl; [|exact (cells_desc_bounds n)].
  intros c [_ Hhi]. unfold apart, BlockAllocator.LINK_SIZE. right. lia.
Qed.

(** The loop of [ba_init] after [j] iterations has threaded the cells
    [j-1], ..., [0]; [n] more iterations bring it to [j + n] cells. *)
Lemma ba_init_loop_free_list n : forall j prev m,
  buffer + Z.of_nat (j + n) * item_size < 2 ^ 64 ->
  prev = hd NULL (cells_desc buffer item_size j) ->
  free_list m prev (cells_desc buffer item_size j) ->
  let (prev', m') :=
    BlockAllocator.ba_init_loop n (Z.of_nat j) buffer item_size prev m in
  prev' = hd NULL (cells_desc buffer item_size (j + n))
  /\ free_list m' prev' (cells_desc buffer item_size (j + n)).
Proof.
  pose proof item_fits_link as Hi. unfold BlockAllocator.LINK_SIZE in Hi.
  induction n as [|n IH]; intros j prev m Hfit Hprev Hl.
  - cbn [BlockAllocator.ba_init_loop]. rewrite Nat.add_0_r. split; assumption.
  - cbn [BlockAllocator.ba_init_loop].
    assert (Hj : 0 <= Z.of_nat j * item_size
                 /\ buffer + Z.of_nat j * item_size + item_size < 2 ^ 64) by nia.
    rewrite (wrap_small (Z.of_nat j * item_size)) by lia.
    rewrite (wrap_small (buffer + _)) by lia.
    fold (cell buffer item_size (Z.of_nat j)).
    replace (Z.of_nat j + 1) with (Z.of_nat (S j)) by lia.
    replace (j + S n)%nat with (S j + n)%nat in * by lia.
    apply IH; [exact Hfit | reflexivity |].
    cbn [cells_desc].
    assert (Hprev_word : 0 <= prev < 2 ^ 64).
    { subst prev. destruct j as [|j]; cbn [cells_desc hd]; [unfold NULL; lia|].
      unfold cell. nia. }
    constructor.
    + unfold cell, NULL. nia.
    + rewrite load64_store64_same by exact Hprev_word.
      apply free_list_store; [exact Hl|].
      eapply Forall_impl; [|exact (cells_desc_bounds j)].
      intros c [_ Hhi]. unfold apart, BlockAllocator.LINK_SIZE. right. lia.
Qed.

(** [ba_init] threads all [buffer_size / item_size] cells, the last one
    at the front of the free list. *)
Lemma ba_init_free_list buffer_size m :
  0 <= buffer_size -> buffer + buffer_size < 2 ^ 64 ->
  let count := Z.to_nat (buffer_size / item_size) in
  exists m',
    BlockAllocator.ba_init buffer buffer_size item_size m =
      Ok ({| BlockAllocator.buffer := buffer;
             BlockAllocator.buffer_end := buffer + buffer_size;
             BlockAllocator.blocks :=
               hd NULL (cells_desc buffer item_size count) |}, m')
    /\ free_list m' (hd NULL (cells_desc buffer item_size count))
         (cells_desc buffer item_size count).
Proof.
  pose proof item_fits_link as Hi. unfold BlockAllocator.LINK_SIZE in Hi.
  intros Hs Hfit count.
  assert (Hq : 0 <= buffer_size / item_size) by (apply Z.div_pos; lia).
  assert (Hmul : buffer_size / item_size * item_size <= buffer_size).
  { rewrite Z.mul_comm. apply Z.mul_div_le. lia. }
  pose proof (ba_init_loop_free_list count 0 NULL m) as Hloop.
  cbn [Nat.add Z.of_nat cells_desc hd] in Hloop.
  unfold BlockAllocator.ba_init.
  replace (negb (item_size >=? BlockAllocator.LINK_SIZE)) with false.
  2:{ symmetry. apply negb_false_iff. apply Z.geb_le. exact item_fits_link. }
  fold count.
  destruct (BlockAllocator.ba_init_loop count 0 buffer item_size NULL m)
    as [prev m'].
  destruct Hloop as [Hprev Hl].
  - unfold count. rewrite Z2Nat.id by exact Hq. lia.
  - reflexivity.
  - constructor.
  - exists m'. rewrite wrap_small by lia. subst prev. split; [reflexivity | exact Hl].
Qed.

End BlockAllocatorInit.

(** Calls of [ba_alloc] in a row pop the free list front to back, as
    long as the links of its cells do not overlap. *)
Lemma ba_alloc_n_pops l1 : forall ba m l2,
  free_list m (BlockAllocator.blocks ba) (l1 ++ l2) ->
  ForallOrdPairs apart (l1 ++ l2) ->
  exists m',
    BlockAllocator.ba_alloc_n (length l1) ba m =
      (l1, {| BlockAllocator.buffer := BlockAllocator.buffer ba;
              BlockAllocator.buffer_end := BlockAllocator.buffer_end ba;
              BlockAllocator.blocks := hd NULL l2 |}, m')
    /\ free_list m' (hd NULL l2) l2.
Proof.
  induction l1 as [|x l1 IH]; intros ba m l2 Hl Hap.
  - cbn [app length BlockAllocator.ba_alloc_n] in *. exists m.
    rewrite <- (free_list_hd _ _ _ Hl). destruct ba. split; [reflexivity | exact Hl].
  - cbn [app length BlockAllocator.ba_alloc_n] in *.
    inversion Hl as [|? ? Hx Hrest]; subst.
    inversion Hap as [|? ? Hxs Hap']; subst.
    unfold BlockAllocator.ba_alloc at 1.
    apply Z.eqb_neq in Hx. rewrite Hx.
    match goal with
    | |- context [BlockAllocator.ba_alloc_n _ ?b ?mm] =>
        destruct (IH b mm l2) as (m' & Hrun & Hl')
    end.
    + cbn [BlockAllocator.blocks]. apply free_list_store; assumption.
    + assumption.
    + rewrite Hrun. cbn [BlockAllocator.buffer BlockAllocator.buffer_end].
      exists m'. split; [reflexivity | exact Hl'].
Qed.

Lemma ba_alloc_n_exhausted n : forall ba m,
  BlockAllocator.blocks ba = NULL ->
  BlockAllocator.ba_alloc_n n ba m = (repeat NULL n, ba, m).
Proof.
  induction n as [|n IH]; intros ba m He; cbn [BlockAllocator.ba_alloc_n repeat].
  - reflexivity.
  - unfold BlockAllocator.ba_alloc at 1. rewrite He, Z.eqb_refl.
    rewrite IH by exact He. reflexivity.
Qed.

Lemma ba_alloc_n_app n1 : forall n2 ba m,
  BlockAllocator.ba_alloc_n (n1 + n2) ba m =
    let '(ps1, ba1, m1) := BlockAllocator.ba_alloc_n n1 ba m in
    let '(ps2, ba2, m2) := BlockAllocator.ba_alloc_n n2 ba1 m1 in
    (ps1 ++ ps2, ba2, m2).
Proof.
  induction n1 as [|n1 IH]; intros n2 ba m;
    cbn [Nat.add BlockAllocator.ba_alloc_n].
  - destruct (BlockAllocator.ba_alloc_n n2 ba m) as [[ps2 ba2] m2]. reflexivity.
  - destruct (BlockAllocator.ba_alloc ba m) as [[p ba1] m1].
    rewrite IH.
    destruct (BlockAllocator.ba_alloc_n n1 ba1 m1) as [[ps1 ba1'] m1'].
    destruct (BlockAllocator.ba_alloc_n n2 ba1' m1') as [[ps2 ba2] m2].
    reflexivity.
Qed.

(** C5.  After [ba_init] over a buffer of [buffer_size] bytes cut in
    cells of [item_size] bytes, with [count = buffer_size / item_size]:
    the first [count] calls of [ba_alloc] succeed and return the cells
    [count - 1], ..., [0], each a whole cell inside the first
    [count * item_size] bytes of the buffer, so that no byte of the
    trailing remainder is handed out; every later call returns null.
    With [buffer_size = item_size * K] the count is [K]. *)
Theorem ba_capacity buffer buffer_size item_size m :
  0 < buffer -> BlockAllocator.LINK_SIZE <= item_size ->
  0 <= buffer_size -> buffer + buffer_size < 2 ^ 64 ->
  let count := Z.to_nat (buffer_size / item_size) in
  let cells := cells_desc buffer item_size count in
  exists ba m0,
    BlockAllocator.ba_init buffer buffer_size item_size m = Ok (ba, m0)
    /\ (forall extra,
          fst (fst (BlockAllocator.ba_alloc_n (count + extra) ba m0))
          = cells ++ repeat NULL extra)
    /\ length cells = count
    /\ Forall (fun c => c <> NULL /\ buffer <= c
                        /\ c + item_size <= buffer + Z.of_nat count * item_size
                        /\ buffer + Z.of_nat count * item_size
                           <= buffer + buffer_size) cells
    /\ (forall K, 0 <= K -> buffer_size = item_size * K -> count = Z.to_nat K).
Proof.
  intros Hb Hi Hs Hfit count cells.
  pose proof Hi as Hi'. unfold BlockAllocator.LINK_SIZE in Hi'.
  destruct (ba_init_free_list buffer item_size Hb Hi buffer_size m Hs Hfit)
    as (m0 & Hinit & Hl).
  fold count in Hinit, Hl. fold cells in Hinit, Hl.
  eexists. exists m0. split; [exact Hinit|].
  split; [|split; [|split]].
  - intros extra. rewrite ba_alloc_n_app.
    rewrite <- (cells_desc_length buffer item_size count) at 1. fold cells.
    destruct (ba_alloc_n_pops cells
                {| BlockAllocator.buffer := buffer;
                   BlockAllocator.buffer_end := buffer + buffer_size;
                   BlockAllocator.blocks := hd NULL cells |} m0 [])
      as (m' & Hrun & _).
    { rewrite app_nil_r. exact Hl. }
    { rewrite app_nil_r. apply cells_desc_apart; assumption. }
    rewrite Hrun. rewrite ba_alloc_n_exhausted by reflexivity. reflexivity.
  - apply cells_desc_length.
  - assert (Hq : 0 <= buffer_size / item_size) by (apply Z.div_pos; lia).
    assert (Hmul : buffer_size / item_size * item_size <= buffer_size).
    { rewrite Z.mul_comm. apply Z.mul_div_le. lia. }
    eapply Forall_impl; [|exact (cells_desc_bounds buffer item_size Hi count)].
    intros c [Hlo Hhi]. unfold cell in Hhi. unfold NULL.
    unfold count in *. rewrite Z2Nat.id in * by exact Hq. lia.
  - intros K HK ->. unfold count. f_equal.
    rewrite Z.mul_comm. apply Z.div_mul. lia.
Qed.

Lemma ba_capacity_witness :
  exists ba m0,
    BlockAllocator.ba_init 4096 100 32 (fun _ => 0) = Ok (ba, m0)
    /\ fst (fst (BlockAllocator.ba_alloc_n 5 ba m0))
       = [4096 + 64; 4096 + 32; 4096; NULL; NULL].
Proof.
  assert (H1 : 0 < 4096) by lia.
  assert (H2 : BlockAllocator.LINK_SIZE <= 32) by by_computation.
  assert (H3 : 0 <= 100) by lia.
  assert (H4 : 4096 + 100 < 2 ^ 64) by by_computation.
  destruct (ba_capacity 4096 100 32 (fun _ => 0) H1 H2 H3 H4)
    as (ba & m0 & Hinit & Hrun & _).
  exists ba, m0. split; [exact Hinit | exact (Hrun 2%nat)].
Defined.

Lemma ba_free_head_in_buffer ba ptr m :
  head_in_buffer ba ->
  head_in_buffer (fst (BlockAllocator.ba_free ba ptr m)).
Proof.
  intros Hin. unfold BlockAllocator.ba_free.
  destruct ((ptr <? BlockAllocator.buffer ba)
            || (ptr >? BlockAllocator.buffer_end ba)) eqn:E; cbn [fst].
  - exact Hin.
  - apply orb_false_iff in E. destruct E as [E1 E2].
    apply Z.ltb_ge in E1. apply gtb_false in E2.
    right. cbn. lia.
Qed.

(** [ba_init] leaves the head of the free list in the buffer. *)
Lemma ba_init_head_in_buffer buffer buffer_size item_size m ba m' :
  0 < buffer -> BlockAllocator.LINK_SIZE <= item_size ->
  0 <= buffer_size -> buffer + buffer_size < 2 ^ 64 ->
  BlockAllocator.ba_init buffer buffer_size item_size m = Ok (ba, m') ->
  head_in_buffer ba.
Proof.
  intros Hb Hi Hs Hfit Hinit.
  destruct (ba_init_free_list buffer item_size Hb Hi buffer_size m Hs Hfit)
    as (m0 & E & _).
  rewrite E in Hinit. injection Hinit as <- _.
  unfold head_in_buffer. cbn [BlockAllocator.blocks BlockAllocator.buffer
                               BlockAllocator.buffer_end].
  pose proof Hi as Hi'. unfold BlockAllocator.LINK_SIZE in Hi'.
  assert (Hq : 0 <= buffer_size / item_size) by (apply Z.div_pos; lia).
  assert (Hmul : buffer_size / item_size * item_size <= buffer_size).
  { rewrite Z.mul_comm. apply Z.mul_div_le. lia. }
  pose proof (cells_desc_bounds buffer item_size Hi
                (Z.to_nat (buffer_size / item_size))) as Hbounds.
  destruct (cells_desc buffer item_size (Z.to_nat (buffer_size / item_size)))
    as [|c cs]; [left; reflexivity|].
  inversion Hbounds as [|? ? [Hlo Hhi] _]; subst.
  right. cbn [hd]. unfold cell in Hhi.
  rewrite Z2Nat.id in Hhi by exact Hq. lia.
Qed.

(** [ba_alloc] keeps the head of the free list in the buffer when the
    cells of the free list are in the buffer. *)
Lemma ba_alloc_head_in_buffer ba m l :
  free_list m (BlockAllocator.blocks ba) l ->
  Forall (fun c => BlockAllocator.buffer ba <= c <= BlockAllocator.buffer_end ba) l ->
  head_in_buffer (snd (fst (BlockAllocator.ba_alloc ba m))).
Proof.
  intros Hl Hin. unfold BlockAllocator.ba_alloc.
  destruct (BlockAllocator.blocks ba =? NULL) eqn:E; cbn [fst snd].
  - left. apply Z.eqb_eq. exact E.
  - apply Z.eqb_neq in E.
    unfold head_in_buffer. cbn [BlockAllocator.blocks BlockAllocator.buffer
                                 BlockAllocator.buffer_end].
    destruct l as [|p l'].
    + apply free_list_hd in Hl. contradiction.
    + inversion Hl as [|? ? _ Hrest Ep]; subst.
      inversion Hin as [|? ? _ Hin']; subst.
      pose proof (free_list_hd _ _ _ Hrest) as Hhd.
      destruct l' as [|c cs]; [left; exact Hhd|].
      inversion Hin' as [|? ? Hc _]; subst. right. rewrite Hhd. exact Hc.
Qed.

(** Allocate, allocate, free the first, allocate: the last call returns
    the first pointer again. *)
Lemma ba_lifo ba m A ba1 m1 B ba2 m2 ba3 m3 C ba4 m4 :
  head_in_buffer ba ->
  BlockAllocator.ba_alloc ba m = (A, ba1, m1) -> A <> NULL ->
  BlockAllocator.ba_alloc ba1 m1 = (B, ba2, m2) -> B <> NULL ->
  BlockAllocator.ba_free ba2 A m2 = (ba3, m3) ->
  BlockAllocator.ba_alloc ba3 m3 = (C, ba4, m4) ->
  C = A.
Proof.
  intros Hin HA HAn HB HBn Hfree HC.
  unfold BlockAllocator.ba_alloc in HA.
  destruct (BlockAllocator.blocks ba =? NULL) eqn:Ea.
  { injection HA as <- _ _. contradiction. }
  injection HA as <- <- <-.
  destruct Hin as [Hin|Hin]; [apply Z.eqb_neq in Ea; contradiction|].
  unfold BlockAllocator.ba_alloc in HB. cbn [BlockAllocator.blocks] in HB.
  destruct (load64 m (BlockAllocator.blocks ba) =? NULL) eqn:Eb.
  { injection HB as <- _ _. contradiction. }
  injection HB as _ <- <-.
  unfold BlockAllocator.ba_free in Hfree.
  cbn [BlockAllocator.buffer BlockAllocator.buffer_end] in Hfree.
  replace (BlockAllocator.blocks ba <? BlockAllocator.buffer ba) with false in Hfree
    by (symmetry; apply Z.ltb_ge; lia).
  replace (BlockAllocator.blocks ba >? BlockAllocator.buffer_end ba) with false
    in Hfree by (symmetry; apply gtb_false; lia).
  cbn [orb] in Hfree. injection Hfree as <- <-.
  unfold BlockAllocator.ba_alloc in HC. cbn [BlockAllocator.blocks] in HC.
  rewrite Ea in HC. injection HC as <- _ _. reflexivity.
Qed.

(** C6.  The free list is last in, first out.  From a state whose free
    list starts inside the buffer: allocate [A], allocate [B], free [A],
    allocate [C]; if the first two calls succeed then [C = A].  In
    particular, after [ba_init] over a buffer of 4096 bytes with items
    of 36 bytes, which makes 113 cells: the first call returns cell 112
    ([item0]), the second cell 111 ([item1]), and after freeing [item0]
    the third call returns [item0] again. *)
Theorem ba_reuses_last_freed :
  (forall ba m,
      head_in_buffer ba ->
      let '(A, ba1, m1) := BlockAllocator.ba_alloc ba m in
      let '(B, ba2, m2) := BlockAllocator.ba_alloc ba1 m1 in
      let '(ba3, m3) := BlockAllocator.ba_free ba2 A m2 in
      let '(C, _, _) := BlockAllocator.ba_alloc ba3 m3 in
      A <> NULL -> B <> NULL -> C = A)
  /\ (forall buffer m,
      0 < buffer -> buffer + 4096 < 2 ^ 64 ->
      exists ba m0,
        BlockAllocator.ba_init buffer 4096 36 m = Ok (ba, m0)
        /\ 4096 / 36 = 113
        /\ let '(item0, ba1, m1) := BlockAllocator.ba_alloc ba m0 in
           let '(item1, ba2, m2) := BlockAllocator.ba_alloc ba1 m1 in
           let '(ba3, m3) := BlockAllocator.ba_free ba2 item0 m2 in
           let '(item2, _, _) := BlockAllocator.ba_alloc ba3 m3 in
           item0 = buffer + 112 * 36
           /\ item1 = buffer + 111 * 36
           /\ item2 = item0).
Proof.
  split.
  - intros ba m Hin.
    destruct (BlockAllocator.ba_alloc ba m) as [[A ba1] m1] eqn:HA.
    destruct (BlockAllocator.ba_alloc ba1 m1) as [[B ba2] m2] eqn:HB.
    destruct (BlockAllocator.ba_free ba2 A m2) as [ba3 m3] eqn:Hfree.
    destruct (BlockAllocator.ba_alloc ba3 m3) as [[C ba4] m4] eqn:HC.
    intros HAn HBn. eapply ba_lifo; eassumption.
  - intros buffer m Hb Hfit.
    assert (Hi : BlockAllocator.LINK_SIZE <= 36) by by_computation.
    destruct (ba_init_free_list buffer 36 Hb Hi 4096 m) as (m0 & Hinit & Hl);
      [lia | exact Hfit |].
    change (Z.to_nat (4096 / 36)) with 113%nat in Hinit, Hl.
    change (cells_desc buffer 36 113)
      with (cell buffer 36 112 :: cell buffer 36 111 :: cells_desc buffer 36 111)
      in Hinit, Hl.
    cbn [hd] in Hinit, Hl.
    eexists. exists m0. split; [exact Hinit|]. split; [reflexivity|].
    destruct (ba_alloc_n_pops [cell buffer 36 112; cell buffer 36 111]
                {| BlockAllocator.buffer := buffer;
                   BlockAllocator.buffer_end := buffer + 4096;
                   BlockAllocator.blocks := cell buffer 36 112 |} m0
                (cells_desc buffer 36 111) Hl) as (m2 & Hrun & _).
    { exact (cells_desc_apart buffer 36 Hi 113). }
    cbn [length BlockAllocator.ba_alloc_n] in Hrun.
    destruct (BlockAllocator.ba_alloc _ m0) as [[item0 ba1] m1] eqn:H0.
    destruct (BlockAllocator.ba_alloc ba1 m1) as [[item1 ba2] m2'] eqn:H1.
    injection Hrun as -> -> Hba2 _.
    destruct (BlockAllocator.ba_free ba2 _ m2') as [ba3 m3] eqn:Hfree.
    destruct (BlockAllocator.ba_alloc ba3 m3) as [[item2 ba4] m4] eqn:H2.
    unfold cell in *. split; [reflexivity | split; [reflexivity|]].
    eapply ba_lifo; try eassumption.
    + right. cbn. lia.
    + unfold NULL. lia.
    + unfold NULL. lia.
Qed.

Lemma ba_reuses_last_freed_witness :
  (head_in_buffer two_cell_ba
   /\ fst (fst (BlockAllocator.ba_alloc two_cell_ba two_cell_memory)) <> NULL
   /\ let '(A, ba1, m1) := BlockAllocator.ba_alloc two_cell_ba two_cell_memory in
      let '(B, ba2, m2) := BlockAllocator.ba_alloc ba1 m1 in
      let '(ba3, m3) := BlockAllocator.ba_free ba2 A m2 in
      let '(C, _, _) := BlockAllocator.ba_alloc ba3 m3 in
      B <> NULL /\ C = A)
  /\ exists ba m0,
      BlockAllocator.ba_init 0x58773c9b0060 4096 36 (fun _ => 0) = Ok (ba, m0)
      /\ let '(item0, ba1, m1) := BlockAllocator.ba_alloc ba m0 in
         let '(item1, ba2, m2) := BlockAllocator.ba_alloc ba1 m1 in
         let '(ba3, m3) := BlockAllocator.ba_free ba2 item0 m2 in
         let '(item2, _, _) := BlockAllocator.ba_alloc ba3 m3 in
         item0 = 0x58773c9b1020 /\ item1 = 0x58773c9b0ffc /\ item2 = item0.
Proof.
  destruct ba_reuses_last_freed as [Hlifo Hdemo].
  split.
  - assert (Hin : head_in_buffer two_cell_ba) by (right; by_computation).
    assert (HA : 4132 <> NULL) by discriminate.
    assert (HB : 4096 <> NULL) by discriminate.
    split; [exact Hin | split; [exact HA|]].
    split; [exact HB|].
    exact (Hlifo two_cell_ba two_cell_memory Hin HA HB).
  - assert (H1 : 0 < 0x58773c9b0060) by lia.
    assert (H2 : 0x58773c9b0060 + 4096 < 2 ^ 64) by by_computation.
    destruct (Hdemo 0x58773c9b0060 (fun _ => 0) H1 H2)
      as (ba & m0 & Hinit & _ & Hrun).
    exists ba, m0. split; [exact Hinit | exact Hrun].
Defined.

(** C9.  [ba_free] of a pointer below [buffer] or above [buffer_end]
    returns with the allocator and the memory untouched.  A pointer
    from [buffer] to [buffer_end], both included, is accepted: it
    becomes the head of the free list, its link holds the former head,
    and the free list is the former one with the pointer in front. *)
Theorem ba_free_range ba ptr m :
  (ptr < BlockAllocator.buffer ba \/ BlockAllocator.buffer_end ba < ptr ->
   BlockAllocator.ba_free ba ptr m = (ba, m))
  /\ (BlockAllocator.buffer ba <= ptr <= BlockAllocator.buffer_end ba ->
      0 <= BlockAllocator.blocks ba < 2 ^ 64 ->
      exists m',
        BlockAllocator.ba_free ba ptr m =
          ({| BlockAllocator.buffer := BlockAllocator.buffer ba;
              BlockAllocator.buffer_end := BlockAllocator.buffer_end ba;
              BlockAllocator.blocks := ptr |}, m')
        /\ load64 m' ptr = BlockAllocator.blocks ba
        /\ (forall a, a < ptr \/ ptr + BlockAllocator.LINK_SIZE <= a ->
                      m' a = m a)
        /\ (forall l,
              ptr <> NULL ->
              free_list m (BlockAllocator.blocks ba) l ->
              Forall (apart ptr) l ->
              free_list m' ptr (ptr :: l))).
Proof.
  split.
  - intros Hout. unfold BlockAllocator.ba_free.
    replace ((ptr <? BlockAllocator.buffer ba)
             || (ptr >? BlockAllocator.buffer_end ba)) with true; [reflexivity|].
    symmetry. apply orb_true_iff.
    destruct Hout; [left; apply Z.ltb_lt | right; apply gtb_true]; assumption.
  - intros Hin Hword. unfold BlockAllocator.ba_free.
    replace ((ptr <? BlockAllocator.buffer ba)
             || (ptr >? BlockAllocator.buffer_end ba)) with false.
    2:{ symmetry. apply orb_false_iff.
        split; [apply Z.ltb_ge | apply gtb_false]; lia. }
    eexists. split; [reflexivity|]. split; [|split].
    + apply load64_store64_same. exact Hword.
    + intros a Ha. unfold BlockAllocator.LINK_SIZE in Ha.
      apply store64_out. exact Ha.
    + intros l Hp Hl Hap. constructor; [exact Hp|].
      rewrite load64_store64_same by exact Hword.
      apply free_list_store; assumption.
Qed.

Lemma ba_free_range_witness :
  BlockAllocator.ba_free two_cell_ba 4095 two_cell_memory
    = (two_cell_ba, two_cell_memory)
  /\ BlockAllocator.ba_free two_cell_ba (4096 + 72 + 1) two_cell_memory
     = (two_cell_ba, two_cell_memory)
  /\ exists m',
       BlockAllocator.ba_free two_cell_ba (4096 + 72) two_cell_memory =
         ({| BlockAllocator.buffer := 4096;
             BlockAllocator.buffer_end := 4096 + 72;
             BlockAllocator.blocks := 4096 + 72 |}, m')
       /\ load64 m' (4096 + 72) = 4132
       /\ free_list m' (4096 + 72) [4096 + 72; 4132; 4096].
Proof.
  split; [|split].
  - apply (proj1 (ba_free_range two_cell_ba 4095 two_cell_memory)).
    left. by_computation.
  - apply (proj1 (ba_free_range two_cell_ba (4096 + 72 + 1) two_cell_memory)).
    right. by_computation.
  - destruct (proj2 (ba_free_range two_cell_ba (4096 + 72) two_cell_memory))
      as (m' & Hcall & Hlink & _ & Hlist).
    + by_computation.
    + by_computation.
    + exists m'. split; [exact Hcall | split; [exact Hlink|]].
      apply Hlist.
      * discriminate.
      * constructor; [discriminate|].
        change (load64 two_cell_memory 4132) with 4096.
        constructor; [discriminate|].
        change (load64 two_cell_memory 4096) with NULL. constructor.
      * constructor; [right; by_computation|].
        constructor; [right; by_computation | constructor].
Defined.

(** ** A successful call of the arena *)

Lemma arena_laid_out_follows x y :
  in_block x -> in_block y -> arena_laid_out x y -> arena_follows x y.
Proof.
  unfold in_block, arena_laid_out, arena_follows, disjoint_ranges,
    blocks_disjoint, Arena.HEADER_SIZE, Arena.ARENA_BLOCK_SIZE.
  intros (Hx1 & Hx2 & Hx3) (Hy1 & Hy2 & Hy3) [Hsame Hdiff]. split.
  - intros E. specialize (Hsame E). lia.
  - intros a Ha.
    destruct (Z.eq_dec (entry_block x) (entry_block y)) as [E|E].
    + specialize (Hsame E). lia.
    + specialize (Hdiff E). lia.
Qed.

(** A first call on an empty arena is a call on the arena made of the
    block the backing allocator hands out. *)
Lemma arena_alloc_lazy a size align w p rest :
  Arena.blocks a = NULL -> Arena.heap w = p :: rest -> p <> NULL ->
  Arena.arena_alloc a size align w =
    Arena.arena_alloc {| Arena.blocks := p |} size align
      {| Arena.mem := Arena.arena_block_init p NULL (Arena.mem w);
         Arena.heap := rest |}.
Proof.
  intros He Hheap Hp.
  rewrite (arena_alloc_nonempty {| Arena.blocks := p |}) by exact Hp.
  unfold Arena.arena_alloc, Arena.arena_get_block.
  rewrite He, Z.eqb_refl. cbn [negb].
  rewrite (arena_new_block_ok a w p rest) by assumption.
  apply Z.eqb_neq in Hp. rewrite Hp, He. reflexivity.
Qed.

(** The state after a successful call on an arena that has a block. *)
Lemma arena_alloc_success_nonempty a w size align p a1 w1 :
  block_wf (Arena.mem w) (Arena.blocks a) -> request_ok (size, align) ->
  Forall valid_block (Arena.heap w) ->
  Arena.arena_alloc a size align w = Ok (p, a1, w1) -> p <> NULL ->
  block_wf (Arena.mem w1) (Arena.blocks a1)
  /\ in_block (Arena.blocks a1, p, size)
  /\ load64 (Arena.mem w1) (Arena.head_field (Arena.blocks a1)) = p + size
  /\ ((Arena.blocks a1 = Arena.blocks a /\ Arena.heap w1 = Arena.heap w
       /\ load64 (Arena.mem w) (Arena.head_field (Arena.blocks a)) <= p)
      \/ Arena.heap w = Arena.blocks a1 :: Arena.heap w1).
Proof.
  intros Hwf Hreq Hheap Hcall Hp.
  assert (H64 : 2 ^ 64 = 2 * 2 ^ 63) by reflexivity.
  assert (Hne : Arena.blocks a <> NULL).
  { destruct Hwf as [[Hb _] _]. unfold NULL. lia. }
  assert (Hstep : forall m b h,
             block_wf m b -> load64 m (Arena.head_field b) <= h ->
             h + size <= b + Arena.ARENA_BLOCK_SIZE ->
             block_wf (store64 m (Arena.head_field b) (h + size)) b
             /\ in_block (b, h, size)
             /\ load64 (store64 m (Arena.head_field b) (h + size))
                  (Arena.head_field b) = h + size).
  { intros m b h Hb Hle Hfit.
    destruct Hreq as [Hs _]. cbn [fst] in Hs.
    pose proof Hb as (Hv & _ & Hh). destruct Hv as [Hb0 Hb1].
    unfold Arena.ARENA_BLOCK_SIZE, Arena.HEADER_SIZE in *.
    split; [|split].
    - apply store_head_wf; [exact Hb|].
      unfold Arena.ARENA_BLOCK_SIZE, Arena.HEADER_SIZE. lia.
    - unfold in_block, entry_block, entry_ptr, entry_size,
        Arena.ARENA_BLOCK_SIZE, Arena.HEADER_SIZE. cbn [fst snd]. lia.
    - apply load64_store64_same. lia. }
  rewrite arena_alloc_nonempty in Hcall by exact Hne.
  destruct (arena_block_alloc_cases (Arena.mem w) (Arena.blocks a) size align Hwf Hreq)
    as [[_ E]|(Hfit & E & Hnn & Hle & _)]; rewrite E in Hcall.
  - rewrite Z.eqb_refl in Hcall. cbn [negb] in Hcall.
    destruct (Arena.heap w) as [|q rest] eqn:Eh.
    + unfold Arena.arena_new_block, Arena.malloc in Hcall.
      cbn [Arena.set_mem Arena.heap] in Hcall. rewrite Eh in Hcall.
      rewrite Z.eqb_refl in Hcall. cbn in Hcall. discriminate.
    + inversion Hheap as [|? ? Hq _]; subst.
      assert (Hqn : q <> NULL) by (destruct Hq; unfold NULL; lia).
      rewrite (arena_new_block_ok a (Arena.set_mem w (Arena.mem w)) q rest)
        in Hcall by assumption.
      cbn [Arena.mem Arena.set_mem Arena.heap] in Hcall.
      assert (Hqwf : block_wf (Arena.arena_block_init q (Arena.blocks a) (Arena.mem w)) q).
      { apply arena_block_init_wf; [exact Hq|].
        destruct Hwf as [[Hb0 Hb1] _]. unfold Arena.ARENA_BLOCK_SIZE in Hb1. lia. }
      destruct (arena_block_alloc_cases _ q size align Hqwf Hreq)
        as [[_ E2]|(Hfit2 & E2 & Hnn2 & Hle2 & _)]; rewrite E2 in Hcall.
      * injection Hcall as <- _ _. contradiction.
      * injection Hcall as <- <- <-. cbn [Arena.blocks Arena.mem Arena.heap].
        destruct (Hstep _ q _ Hqwf Hle2 Hfit2) as (H1 & H2 & H3).
        split; [exact H1 | split; [exact H2 | split; [exact H3|]]].
        right. reflexivity.
  - apply Z.eqb_neq in Hnn. rewrite Hnn in Hcall. cbn [negb] in Hcall.
    injection Hcall as <- <- <-. cbn [Arena.blocks Arena.mem Arena.set_mem Arena.heap].
    destruct (Hstep _ (Arena.blocks a) _ Hwf Hle Hfit) as (H1 & H2 & H3).
    split; [exact H1 | split; [exact H2 | split; [exact H3|]]].
    left. split; [reflexivity | split; [reflexivity | exact Hle]].
Qed.

Lemma heap_fresh_tail b q rest : heap_fresh b (q :: rest) -> heap_fresh q rest.
Proof.
  intros (Hv & Hd & _).
  inversion Hv as [|? ? _ Hv']; subst. inversion Hd as [|? ? Hq Hd']; subst.
  split; [exact Hv' | split; [exact Hd' | intros _; exact Hq]].
Qed.

(** The state after a successful call, on any well-formed arena: the
    pointer lies in the most recent block, whose head is now just after
    the allocation; that block is the one of before the call, with its
    head at or below the pointer, or one the backing allocator has
    handed out during the call. *)
Lemma arena_alloc_success a w size align p a1 w1 :
  arena_wf a w -> request_ok (size, align) ->
  heap_fresh (Arena.blocks a) (Arena.heap w) ->
  Arena.arena_alloc a size align w = Ok (p, a1, w1) -> p <> NULL ->
  block_wf (Arena.mem w1) (Arena.blocks a1)
  /\ in_block (Arena.blocks a1, p, size)
  /\ load64 (Arena.mem w1) (Arena.head_field (Arena.blocks a1)) = p + size
  /\ heap_fresh (Arena.blocks a1) (Arena.heap w1)
  /\ ((Arena.blocks a <> NULL /\ Arena.blocks a1 = Arena.blocks a
       /\ Arena.heap w1 = Arena.heap w
       /\ load64 (Arena.mem w) (Arena.head_field (Arena.blocks a)) <= p)
      \/ (In (Arena.blocks a1) (Arena.heap w)
          /\ incl (Arena.heap w1) (Arena.heap w))).
Proof.
  intros Hwf Hreq Hfresh Hcall Hp.
  destruct Hwf as [He|Hwf].
  - destruct (Arena.heap w) as [|p1 rest] eqn:Eh.
    + destruct (arena_alloc_empty_refused a size align w He) as (w' & E & _).
      { unfold refuses, Arena.malloc. rewrite Eh. reflexivity. }
      rewrite E in Hcall. injection Hcall as <- _ _. contradiction.
    + pose proof (heap_fresh_tail _ _ _ Hfresh) as Hfresh1.
      destruct Hfresh as (Hv & _ & _). inversion Hv as [|? ? Hp1 Hv']; subst.
      assert (Hp1n : p1 <> NULL) by (destruct Hp1; unfold NULL; lia).
      rewrite (arena_alloc_lazy a size align w p1 rest He Eh Hp1n) in Hcall.
      apply arena_alloc_success_nonempty in Hcall; try assumption.
      2:{ apply arena_block_init_wf; [exact Hp1 | unfold NULL; lia]. }
      cbn [Arena.blocks Arena.mem Arena.heap] in Hcall.
      destruct Hcall as (H1 & H2 & H3 & [(Hsame & Hheap & _)|Hgrow]).
      * split; [exact H1 | split; [exact H2 | split; [exact H3|]]].
        rewrite Hsame, Hheap. split; [exact Hfresh1|].
        right. split; [left; reflexivity | apply incl_tl, incl_refl].
      * split; [exact H1 | split; [exact H2 | split; [exact H3|]]].
        rewrite Hgrow in Hfresh1 |- *.
        split; [exact (heap_fresh_tail _ _ _ Hfresh1)|].
        right. split; [right; left; reflexivity|].
        apply incl_tl, incl_tl, incl_refl.
  - assert (Hne : Arena.blocks a <> NULL).
    { destruct Hwf as [[Hb _] _]. unfold NULL. lia. }
    apply arena_alloc_success_nonempty in Hcall; try assumption;
      [|apply Hfresh].
    destruct Hcall as (H1 & H2 & H3 & [(Hsame & Hheap & Hle)|Hgrow]).
    + split; [exact H1 | split; [exact H2 | split; [exact H3|]]].
      rewrite Hsame, Hheap. split; [exact Hfresh|].
      left. split; [exact Hne | split; [reflexivity | split; [reflexivity | exact Hle]]].
    + split; [exact H1 | split; [exact H2 | split; [exact H3|]]].
      rewrite Hgrow in Hfresh |- *.
      split; [exact (heap_fresh_tail _ _ _ Hfresh)|].
      right. split; [left; reflexivity | apply incl_tl, incl_refl].
Qed.

(** ** Requests of the demo programs *)

Lemma pow2_align_4 : pow2_align 4.
Proof. exists 2. split; [lia | reflexivity]. Qed.

Lemma request_ok_intro size align :
  0 <= size <= PTRDIFF_MAX -> pow2_align align -> request_ok (size, align).
Proof. intros Hs Ha. split; assumption. Qed.

(** ** Rounding up to an alignment *)

(** X1.  For a power-of-two alignment and a value that rounding does
    not carry past [2^64], [ALIGN_TO] returns the least multiple of the
    alignment at or above the value: it adds less than the alignment,
    leaves a multiple of the alignment as it is, and applying it twice
    is applying it once. *)
Theorem ALIGN_TO_least_multiple v align :
  pow2_align align -> 0 <= v -> v + align <= 2 ^ 64 ->
  v <= ALIGN_TO v align < v + align
  /\ (ALIGN_TO v align) mod align = 0
  /\ (forall m, v <= m -> m mod align = 0 -> ALIGN_TO v align <= m)
  /\ (v mod align = 0 -> ALIGN_TO v align = v)
  /\ ALIGN_TO (ALIGN_TO v align) align = ALIGN_TO v align.
Proof.
  intros [k [Hk ->]] Hv Hfit.
  assert (Hp : 0 < 2 ^ k) by (apply Z.pow_pos_nonneg; lia).
  pose proof (ALIGN_TO_bounds v k Hk Hv Hfit) as Hb.
  pose proof (ALIGN_TO_multiple v k Hk) as Hmul.
  assert (Hleast : forall m, v <= m -> m mod 2 ^ k = 0 -> ALIGN_TO v (2 ^ k) <= m).
  { intros m Hm Hmm.
    apply Z.mod_divide in Hmm; [|lia]. destruct Hmm as [c Hc].
    pose proof Hmul as Hmul'.
    apply Z.mod_divide in Hmul'; [|lia]. destruct Hmul' as [d Hd].
    destruct (Z_le_gt_dec (ALIGN_TO v (2 ^ k)) m) as [Hle|Hgt]; [exact Hle|].
    assert (c < d) by nia. assert (c + 1 <= d) by lia. nia. }
  assert (Hfix : forall u, 0 <= u -> u + 2 ^ k <= 2 ^ 64 -> u mod 2 ^ k = 0 ->
                           ALIGN_TO u (2 ^ k) = u).
  { intros u Hu Hufit Hum.
    pose proof (ALIGN_TO_bounds u k Hk Hu Hufit) as Hub.
    pose proof (ALIGN_TO_multiple u k Hk) as Humul.
    apply Z.mod_divide in Hum; [|lia]. destruct Hum as [c Hc].
    apply Z.mod_divide in Humul; [|lia]. destruct Humul as [d Hd].
    assert (d = c) by nia. subst d. lia. }
  split; [exact Hb | split; [exact Hmul | split; [exact Hleast | split]]].
  - apply Hfix; assumption.
  - apply Hfix; [lia | | exact Hmul].
    pose proof Hmul as Hmul'.
    apply Z.mod_divide in Hmul'; [|lia]. destruct Hmul' as [d Hd].
    assert (H64 : (2 ^ 64) mod 2 ^ k = 0).
    { replace 64 with ((64 - k) + k) by lia.
      rewrite Z.pow_add_r by lia. apply Z.mod_mul. lia. }
    apply Z.mod_divide in H64; [|lia]. destruct H64 as [e He].
    assert (d < e) by nia. assert (d + 1 <= e) by lia. nia.
Qed.

Lemma ALIGN_TO_least_multiple_witness :
  ALIGN_TO 4097 8 = 4104 /\ 4097 <= ALIGN_TO 4097 8 < 4097 + 8
  /\ ALIGN_TO 4104 8 = 4104.
Proof.
  assert (Hfit : 4097 + 8 <= 2 ^ 64) by by_computation.
  destruct (ALIGN_TO_least_multiple 4097 8 pow2_align_8 ltac:(lia) Hfit)
    as (Hb & _ & _ & _ & Hidem).
  split; [reflexivity | split; [exact Hb | exact Hidem]].
Defined.

(** An alignment of 1 rounds nothing. *)
Lemma ALIGN_TO_1 v : 0 <= v < 2 ^ 64 -> ALIGN_TO v 1 = v.
Proof.
  intros Hv.
  pose proof (ALIGN_TO_bounds v 0 ltac:(lia) (proj1 Hv)) as Hb.
  change (2 ^ 0) with 1 in Hb.
  assert (Hfit : v + 1 <= 2 ^ 64) by lia. specialize (Hb Hfit). lia.
Qed.


(** ** The linear allocator and the fixed buffer allocator *)

(** X2.  A successful [allocate] whose [head + size] does not wrap
    hands out a range inside the buffer: it starts at [&buffer[head]],
    which is where the range of the call before ended, and it ends at
    the new head, at or before the end of the buffer. *)
Theorem allocate_in_buffer buffer head size :
  0 < buffer /\ buffer + Linear.BUFFER_SIZE < 2 ^ 64 ->
  0 <= head -> 0 <= size -> head + size < 2 ^ 64 ->
  fst (Linear.allocate buffer head size) <> NULL ->
  fst (Linear.allocate buffer head size) = buffer + head
  /\ buffer <= fst (Linear.allocate buffer head size)
  /\ fst (Linear.allocate buffer head size) + size
     = buffer + snd (Linear.allocate buffer head size)
  /\ buffer + snd (Linear.allocate buffer head size)
     <= buffer + Linear.BUFFER_SIZE.
Proof.
  intros Hb Hh Hs Hfit.
  rewrite (allocate_no_wrap buffer Hb) by assumption.
  destruct (head + size >? Linear.BUFFER_SIZE) eqn:E; cbn [fst snd].
  - intros Hn. exfalso. apply Hn. reflexivity.
  - apply gtb_false in E. intros _. lia.
Qed.

Lemma allocate_in_buffer_witness :
  fst (Linear.allocate 4096 48 128) = 4096 + 48
  /\ fst (Linear.allocate 4096 48 128) + 128 <= 4096 + Linear.BUFFER_SIZE.
Proof.
  assert (Hb : 0 < 4096 /\ 4096 + Linear.BUFFER_SIZE < 2 ^ 64) by by_computation.
  assert (Hfit : 48 + 128 < 2 ^ 64) by by_computation.
  assert (Hok : fst (Linear.allocate 4096 48 128) <> NULL) by discriminate.
  destruct (allocate_in_buffer 4096 48 128 Hb ltac:(lia) ltac:(lia) Hfit Hok)
    as (Hp & _ & Hend & Hin).
  split; [exact Hp | rewrite Hend; exact Hin].
Defined.

(** X3.  The linear allocator is the fixed buffer allocator at
    alignment 1 over the same [BUFFER_SIZE] bytes, up to what a failed
    call does: the two return the same pointer; after a success both
    heads are at the end of the range; after a failure the fixed
    buffer allocator is as before while the linear head has moved on
    by [size]. *)
Theorem linear_is_fba_at_alignment_1 buffer head size :
  0 < buffer -> 0 <= head <= Linear.BUFFER_SIZE -> 0 <= size ->
  buffer + Linear.BUFFER_SIZE + size < 2 ^ 64 ->
  let fba := {| Fba.buffer := buffer;
                Fba.buffer_end := buffer + Linear.BUFFER_SIZE;
                Fba.head := buffer + head |} in
  fst (Fba.fba_alloc_opt fba size 1) = fst (Linear.allocate buffer head size)
  /\ (fst (Linear.allocate buffer head size) <> NULL ->
      Fba.head (snd (Fba.fba_alloc_opt fba size 1))
      = buffer + snd (Linear.allocate buffer head size))
  /\ (fst (Linear.allocate buffer head size) = NULL ->
      snd (Fba.fba_alloc_opt fba size 1) = fba
      /\ snd (Linear.allocate buffer head size) = head + size).
Proof.
  intros Hb Hh Hs Hfit fba.
  unfold Linear.BUFFER_SIZE in *.
  rewrite (allocate_no_wrap buffer) by (unfold Linear.BUFFER_SIZE; lia).
  unfold Fba.fba_alloc_opt. subst fba. cbn [Fba.head Fba.buffer Fba.buffer_end].
  rewrite ALIGN_TO_1 by lia. rewrite wrap_small by lia.
  unfold Linear.BUFFER_SIZE.
  destruct (head + size >? 1024) eqn:E.
  - apply gtb_true in E.
    replace (buffer + head + size >? buffer + 1024) with true
      by (symmetry; apply gtb_true; lia).
    cbn [fst snd]. split; [reflexivity | split; [intros Hn; contradiction|]].
    intros _. split; reflexivity.
  - apply gtb_false in E.
    replace (buffer + head + size >? buffer + 1024) with false
      by (symmetry; apply gtb_false; lia).
    cbn [fst snd Fba.head]. split; [reflexivity | split; [intros _; lia|]].
    unfold NULL. intros Hn. exfalso. lia.
Qed.

Lemma linear_is_fba_at_alignment_1_witness :
  fst (Fba.fba_alloc_opt
         {| Fba.buffer := 4096; Fba.buffer_end := 4096 + Linear.BUFFER_SIZE;
            Fba.head := 4096 + 1000 |} 100 1)
  = fst (Linear.allocate 4096 1000 100)
  /\ fst (Fba.fba_alloc_opt
            {| Fba.buffer := 4096; Fba.buffer_end := 4096 + Linear.BUFFER_SIZE;
               Fba.head := 4096 + 1000 |} 24 1)
     = fst (Linear.allocate 4096 1000 24).
Proof.
  assert (Hh : 0 <= 1000 <= Linear.BUFFER_SIZE) by by_computation.
  assert (H1 : 4096 + Linear.BUFFER_SIZE + 100 < 2 ^ 64) by by_computation.
  assert (H2 : 4096 + Linear.BUFFER_SIZE + 24 < 2 ^ 64) by by_computation.
  split.
  - exact (proj1 (linear_is_fba_at_alignment_1 4096 1000 100
                    ltac:(lia) Hh ltac:(lia) H1)).
  - exact (proj1 (linear_is_fba_at_alignment_1 4096 1000 24
                    ltac:(lia) Hh ltac:(lia) H2)).
Defined.

(** ** Fixed buffer allocator: invariant, bounds, reset *)

(** X4.  On a well-formed allocator and a request within the contract,
    [fba_alloc_opt] succeeds exactly when the request fits after the
    rounded head.  The allocator stays well formed and keeps its buffer
    and its end.  A pointer returned is the rounded head, less than
    [align] above the former head; its range lies inside the buffer and
    ends at the new head.  A failed call leaves the allocator as it
    was. *)
Theorem fba_alloc_opt_in_buffer fba size align :
  fba_wf fba -> request_ok (size, align) ->
  let p := fst (Fba.fba_alloc_opt fba size align) in
  let fba' := snd (Fba.fba_alloc_opt fba size align) in
  (p <> NULL
   <-> ALIGN_TO (Fba.head fba) align + size <= Fba.buffer_end fba)
  /\ fba_wf fba'
  /\ Fba.buffer fba' = Fba.buffer fba
  /\ Fba.buffer_end fba' = Fba.buffer_end fba
  /\ (p <> NULL ->
      p = ALIGN_TO (Fba.head fba) align
      /\ Fba.head fba <= p < Fba.head fba + align
      /\ Fba.buffer fba <= p
      /\ p + size = Fba.head fba'
      /\ Fba.head fba' <= Fba.buffer_end fba)
  /\ (p = NULL -> fba' = fba).
Proof.
  intros Hwf Hreq p fba'.
  pose proof (fba_alloc_opt_wf fba size align p fba' Hwf Hreq) as Hwf'.
  assert (Hup : ALIGN_TO (Fba.head fba) align < Fba.head fba + align).
  { destruct Hreq as [_ Ha]. cbn [snd] in Ha.
    destruct Hwf as [[Hb Hbh] [Hhe He]].
    destruct Ha as [k [Hk ->]].
    assert (Hp : 2 ^ k <= 2 ^ 63) by (apply Z.pow_le_mono_r; lia).
    assert (H64 : 2 ^ 64 = 2 * 2 ^ 63) by reflexivity.
    apply ALIGN_TO_bounds; lia. }
  subst p fba'.
  destruct (fba_alloc_opt_cases fba size align Hwf Hreq)
    as [[Hbig E]|(Hfit & E & Hnn & Hle & _)]; rewrite E in *; cbn [fst snd] in *.
  - split; [split; [intros Hn; exfalso; apply Hn; reflexivity | lia]|].
    split; [exact Hwf|]. split; [reflexivity|]. split; [reflexivity|].
    split; [intros Hn; exfalso; apply Hn; reflexivity | intros _; reflexivity].
  - split; [split; [intros _; exact Hfit | intros _; exact Hnn]|].
    split; [apply Hwf'; reflexivity|].
    cbn [Fba.buffer Fba.buffer_end Fba.head].
    split; [reflexivity|]. split; [reflexivity|].
    split; [|intros Hn; contradiction].
    intros _. destruct Hwf as [[Hb Hbh] _]. repeat split; try lia.
Qed.

Lemma fba_alloc_opt_in_buffer_witness :
  fst (Fba.fba_alloc_opt (Fba.fba_init 4097 1024) 4 8) <> NULL
  /\ fst (Fba.fba_alloc_opt (Fba.fba_init 4097 1024) 4 8) = 4104
  /\ Fba.head (snd (Fba.fba_alloc_opt (Fba.fba_init 4097 1024) 4 8)) = 4108.
Proof.
  assert (Hwf : fba_wf (Fba.fba_init 4097 1024)) by by_computation.
  assert (Hreq : request_ok (4, 8)).
  { apply request_ok_intro; [by_computation | exact pow2_align_8]. }
  destruct (fba_alloc_opt_in_buffer (Fba.fba_init 4097 1024) 4 8 Hwf Hreq)
    as (Hiff & _ & _ & _ & Hok & _).
  assert (Hn : fst (Fba.fba_alloc_opt (Fba.fba_init 4097 1024) 4 8) <> NULL).
  { apply Hiff. by_computation. }
  destruct (Hok Hn) as (Hp & _ & _ & Hend & _).
  split; [exact Hn | split; [exact Hp|]].
  rewrite <- Hend. reflexivity.
Defined.

Lemma fba_alloc_opt_keeps_buffer fba size align :
  Fba.buffer (snd (Fba.fba_alloc_opt fba size align)) = Fba.buffer fba
  /\ Fba.buffer_end (snd (Fba.fba_alloc_opt fba size align)) = Fba.buffer_end fba.
Proof.
  unfold Fba.fba_alloc_opt. destruct (_ >? _); split; reflexivity.
Qed.

(** X5.  [fba_reset] undoes any run of allocations: the allocator is
    the one a reset before the run would have given, and after
    [fba_init] it is the freshly initialized allocator again, whatever
    the requests and whether they succeeded.  A second reset changes
    nothing. *)
Theorem fba_reset_after_run reqs : forall fba,
  Fba.fba_reset (snd (Fba.fba_alloc_all fba reqs)) = Fba.fba_reset fba
  /\ Fba.fba_reset (Fba.fba_reset fba) = Fba.fba_reset fba
  /\ (forall buffer buffer_size,
         fba = Fba.fba_init buffer buffer_size ->
         Fba.fba_reset (snd (Fba.fba_alloc_all fba reqs)) = fba).
Proof.
  assert (Hrun : forall fba,
             Fba.fba_reset (snd (Fba.fba_alloc_all fba reqs)) = Fba.fba_reset fba).
  { induction reqs as [|[size align] rest IH]; intros fba.
    - reflexivity.
    - cbn [Fba.fba_alloc_all].
      destruct (fba_alloc_opt_keeps_buffer fba size align) as [Hb He].
      destruct (Fba.fba_alloc_opt fba size align) as [p fba1]. cbn [snd] in Hb, He.
      specialize (IH fba1).
      destruct (Fba.fba_alloc_all fba1 rest) as [ps fba2]. cbn [snd] in *.
      rewrite IH. unfold Fba.fba_reset. rewrite Hb, He. reflexivity. }
  intros fba. split; [apply Hrun | split; [reflexivity|]].
  intros buffer buffer_size ->. rewrite Hrun. reflexivity.
Qed.

Lemma fba_reset_after_run_witness :
  Fba.fba_reset
    (snd (Fba.fba_alloc_all (Fba.fba_init 4096 1024) [(4, 4); (8, 4); (32, 1)]))
  = Fba.fba_init 4096 1024.
Proof.
  exact (proj2 (proj2 (fba_reset_after_run [(4, 4); (8, 4); (32, 1)]
                         (Fba.fba_init 4096 1024))) 4096 1024 eq_refl).
Defined.

(** X6.  [fba_vsprintf], for a text of [n] characters: on a well-formed
    allocator it obtains [n + 1] bytes that start exactly at the head,
    without padding, when they fit before the end of the buffer, and
    moves the head past them; when they do not fit it returns null and
    leaves the allocator as it was. *)
Theorem fba_vsprintf_packs fba n :
  fba_wf fba -> 0 <= n < 2 ^ 31 - 1 ->
  fba_vsprintf fba n =
    if Fba.head fba + (n + 1) >? Fba.buffer_end fba then (NULL, fba)
    else (Fba.head fba,
          {| Fba.buffer := Fba.buffer fba;
             Fba.buffer_end := Fba.buffer_end fba;
             Fba.head := Fba.head fba + (n + 1) |}).
Proof.
  intros [[Hb Hbh] [Hhe He]] Hn.
  assert (H64 : 2 ^ 64 = 2 * 2 ^ 63) by reflexivity.
  assert (H31 : 2 ^ 31 < 2 ^ 63) by (apply Z.pow_lt_mono_r; lia).
  unfold fba_vsprintf, Fba.fba_alloc_opt.
  rewrite (wrap_small (n + 1)) by lia.
  rewrite ALIGN_TO_1 by lia. rewrite wrap_small by lia. reflexivity.
Qed.

Lemma fba_vsprintf_packs_witness :
  fba_vsprintf (Fba.fba_init 4096 1024) 12
  = (4096, {| Fba.buffer := 4096; Fba.buffer_end := 4096 + 1024;
              Fba.head := 4096 + 13 |}).
Proof.
  assert (Hwf : fba_wf (Fba.fba_init 4096 1024)) by by_computation.
  assert (Hn : 0 <= 12 < 2 ^ 31 - 1) by by_computation.
  exact (fba_vsprintf_packs (Fba.fba_init 4096 1024) 12 Hwf Hn).
Defined.



(** ** Arena: every outcome of a call *)

(** The outcomes of [arena_alloc] on an arena whose most recent block
    [b] is well formed: the request fits [b]; or it does not and the
    backing allocator refuses, which faults; or the backing allocator
    hands out [q] and the request fits the block set up there, or does
    not. *)
Lemma arena_alloc_outcomes a w size align :
  block_wf (Arena.mem w) (Arena.blocks a) -> request_ok (size, align) ->
  Forall valid_block (Arena.heap w) ->
  let b := Arena.blocks a in
  let h := ALIGN_TO (load64 (Arena.mem w) (Arena.head_field b)) align in
  (h + size <= b + Arena.ARENA_BLOCK_SIZE /\ h <> NULL
   /\ load64 (Arena.mem w) (Arena.head_field b) <= h
   /\ Arena.arena_alloc a size align w =
        Ok (h, a, Arena.set_mem w
                    (store64 (Arena.mem w) (Arena.head_field b) (h + size))))
  \/ (b + Arena.ARENA_BLOCK_SIZE < h + size /\ Arena.heap w = []
      /\ Arena.arena_alloc a size align w = Fault)
  \/ (b + Arena.ARENA_BLOCK_SIZE < h + size
      /\ exists q rest,
          Arena.heap w = q :: rest /\ valid_block q
          /\ let m1 := Arena.arena_block_init q b (Arena.mem w) in
             let h' := ALIGN_TO (q + Arena.HEADER_SIZE) align in
             block_wf m1 q
             /\ ((h' + size <= q + Arena.ARENA_BLOCK_SIZE /\ h' <> NULL
                  /\ q + Arena.HEADER_SIZE <= h'
                  /\ Arena.arena_alloc a size align w =
                       Ok (h', {| Arena.blocks := q |},
                           {| Arena.mem :=
                                store64 m1 (Arena.head_field q) (h' + size);
                              Arena.heap := rest |}))
                 \/ (q + Arena.ARENA_BLOCK_SIZE < h' + size
                     /\ Arena.arena_alloc a size align w =
                          Ok (NULL, {| Arena.blocks := q |},
                              {| Arena.mem := m1; Arena.heap := rest |})))).
Proof.
  intros Hwf Hreq Hheap b h.
  assert (H64 : 2 ^ 64 = 2 * 2 ^ 63) by reflexivity.
  assert (Hne : Arena.blocks a <> NULL).
  { destruct Hwf as [[Hb _] _]. unfold NULL. lia. }
  assert (Hbw : 0 <= b < 2 ^ 64).
  { destruct Hwf as [[Hb0 Hb1] _]. unfold Arena.ARENA_BLOCK_SIZE in Hb1.
    subst b. lia. }
  rewrite arena_alloc_nonempty by exact Hne.
  destruct (arena_block_alloc_cases (Arena.mem w) (Arena.blocks a) size align Hwf Hreq)
    as [[Hbig E]|(Hfit & E & Hnn & Hle & _)]; rewrite E.
  - right. rewrite Z.eqb_refl. cbn [negb].
    destruct (Arena.heap w) as [|q rest] eqn:Eh.
    + left. split; [exact Hbig | split; [reflexivity|]].
      unfold Arena.arena_new_block, Arena.malloc.
      cbn [Arena.set_mem Arena.heap]. rewrite Eh, Z.eqb_refl. reflexivity.
    + right. split; [exact Hbig|]. exists q, rest.
      inversion Hheap as [|? ? Hq _]; subst.
      assert (Hqn : q <> NULL) by (destruct Hq; unfold NULL; lia).
      split; [reflexivity | split; [exact Hq|]].
      pose proof (arena_block_init_wf (Arena.mem w) q b Hq Hbw) as Hqwf.
      destruct (arena_block_init_fields (Arena.mem w) q b Hq Hbw)
        as (_ & _ & Hqh & _).
      split; [exact Hqwf|].
      rewrite (arena_new_block_ok a (Arena.set_mem w (Arena.mem w)) q rest)
        by assumption.
      cbn [Arena.mem Arena.set_mem Arena.heap]. fold b.
      destruct (arena_block_alloc_cases _ q size align Hqwf Hreq)
        as [[Hbig2 E2]|(Hfit2 & E2 & Hnn2 & Hle2 & _)];
        rewrite E2; rewrite Hqh in *.
      * right. split; [exact Hbig2 | reflexivity].
      * left. split; [exact Hfit2 | split; [exact Hnn2 | split; [exact Hle2|]]].
        reflexivity.
  - left. apply Z.eqb_neq in Hnn. rewrite Hnn. cbn [negb].
    apply Z.eqb_neq in Hnn.
    split; [exact Hfit | split; [exact Hnn | split; [exact Hle | reflexivity]]].
Qed.

(** A request that fits a block whatever the rounding fits the block
    set up at [q]. *)
Lemma fresh_block_fits q size align :
  valid_block q -> request_ok (size, align) ->
  size + align <= Arena.ARENA_BLOCK_SIZE - Arena.HEADER_SIZE + 1 ->
  ALIGN_TO (q + Arena.HEADER_SIZE) align + size <= q + Arena.ARENA_BLOCK_SIZE.
Proof.
  intros [Hq Hfit] [[Hs _] Ha] Hsmall. cbn [fst snd] in Hs, Ha.
  destruct Ha as [k [Hk ->]].
  unfold Arena.ARENA_BLOCK_SIZE, Arena.HEADER_SIZE in *.
  assert (Hp : 0 < 2 ^ k) by (apply Z.pow_pos_nonneg; lia).
  assert (H64 : 2 ^ 64 = 2 * 2 ^ 63) by reflexivity.
  assert (H63 : 1024 < 2 ^ 63) by reflexivity.
  pose proof (ALIGN_TO_bounds (q + 24) k Hk) as Hb.
  assert (Hfit2 : q + 24 + 2 ^ k <= 2 ^ 64) by lia.
  specialize (Hb ltac:(lia) Hfit2). lia.
Qed.

Lemma store_head_footprint m b v x :
  ~ in_head_field b x -> store64 m (Arena.head_field b) v x = m x.
Proof.
  unfold in_head_field. intros Hx. apply store64_out. lia.
Qed.

Lemma in_head_field_in_header b x : in_head_field b x -> in_header b x.
Proof.
  unfold in_head_field, in_header, Arena.head_field, Arena.HEADER_SIZE. lia.
Qed.

(** What one call that does not fault does to an arena whose most
    recent block is well formed: [new] lists the blocks it has added,
    none or one. *)
Lemma arena_alloc_step_nonempty a w size align p a' w' :
  block_wf (Arena.mem w) (Arena.blocks a) -> request_ok (size, align) ->
  Forall valid_block (Arena.heap w) ->
  Arena.arena_alloc a size align w = Ok (p, a', w') ->
  exists new,
    Arena.heap w = rev new ++ Arena.heap w'
    /\ (length new <= 1)%nat
    /\ Arena.blocks a' = hd (Arena.blocks a) new
    /\ block_wf (Arena.mem w') (Arena.blocks a')
    /\ (p <> NULL ->
        in_block (Arena.blocks a', p, size)
        /\ load64 (Arena.mem w') (Arena.head_field (Arena.blocks a')) = p + size)
    /\ (p = NULL ->
        new <> []
        /\ load64 (Arena.mem w') (Arena.head_field (Arena.blocks a'))
           = Arena.blocks a' + Arena.HEADER_SIZE)
    /\ (forall x,
           ~ in_head_field (Arena.blocks a) x ->
           Forall (fun q => ~ in_header q x) new ->
           Arena.mem w' x = Arena.mem w x)
    /\ linked (Arena.mem w') new (Arena.blocks a).
Proof.
  intros Hwf Hreq Hheap Hcall.
  assert (H64 : 2 ^ 64 = 2 * 2 ^ 63) by reflexivity.
  assert (Hsize : 0 <= size) by (destruct Hreq as [[Hs _] _]; exact Hs).
  assert (Hbump : forall m b h,
             block_wf m b -> load64 m (Arena.head_field b) <= h ->
             h + size <= b + Arena.ARENA_BLOCK_SIZE ->
             block_wf (store64 m (Arena.head_field b) (h + size)) b
             /\ in_block (b, h, size)
             /\ load64 (store64 m (Arena.head_field b) (h + size))
                  (Arena.head_field b) = h + size).
  { intros m b h Hb Hle Hfit.
    pose proof Hb as (Hv & _ & Hh). destruct Hv as [Hb0 Hb1].
    unfold Arena.ARENA_BLOCK_SIZE, Arena.HEADER_SIZE in *.
    split; [|split].
    - apply store_head_wf; [exact Hb|].
      unfold Arena.ARENA_BLOCK_SIZE, Arena.HEADER_SIZE. lia.
    - unfold in_block, entry_block, entry_ptr, entry_size,
        Arena.ARENA_BLOCK_SIZE, Arena.HEADER_SIZE. cbn [fst snd]. lia.
    - apply load64_store64_same. lia. }
  destruct (arena_alloc_outcomes a w size align Hwf Hreq Hheap)
    as [(Hfit & Hnn & Hle & E)|[(_ & _ & E)|(_ & q & rest & Eh & Hq & Hqwf & Hcases)]].
  - rewrite E in Hcall. injection Hcall as <- <- <-.
    destruct (Hbump _ _ _ Hwf Hle Hfit) as (H1 & H2 & H3).
    exists []. cbn [rev app length hd Arena.set_mem Arena.heap Arena.mem linked].
    split; [reflexivity | split; [lia | split; [reflexivity|]]].
    split; [exact H1|]. split; [intros _; split; assumption|].
    split; [intros Hn; contradiction|]. split; [|exact I].
    intros x Hx _. apply store_head_footprint. exact Hx.
  - rewrite E in Hcall. discriminate.
  - assert (Hbw : 0 <= Arena.blocks a < 2 ^ 64).
    { destruct Hwf as [[Hb0 Hb1] _]. unfold Arena.ARENA_BLOCK_SIZE in Hb1. lia. }
    destruct (arena_block_init_fields (Arena.mem w) q (Arena.blocks a) Hq Hbw)
      as (Hqn & _ & Hqh & Hout).
    assert (Hq0 : q <> NULL) by (destruct Hq; unfold NULL; lia).
    assert (Hframe : forall x, ~ in_header q x ->
               Arena.arena_block_init q (Arena.blocks a) (Arena.mem w) x
               = Arena.mem w x).
    { intros x Hx. apply Hout. unfold in_header in Hx. lia. }
    exists [q]. cbn [rev app length hd linked].
    destruct Hcases as [(Hfit & Hnn & Hle & E)|(_ & E)];
      rewrite E in Hcall; injection Hcall as <- <- <-;
      cbn [Arena.blocks Arena.mem Arena.heap].
    + assert (Hle' : load64 (Arena.arena_block_init q (Arena.blocks a) (Arena.mem w))
                       (Arena.head_field q)
                     <= ALIGN_TO (q + Arena.HEADER_SIZE) align)
        by (rewrite Hqh; exact Hle).
      destruct (Hbump _ _ _ Hqwf Hle' Hfit) as (H1 & H2 & H3).
      split; [exact Eh | split; [lia | split; [reflexivity|]]].
      split; [exact H1|]. split; [intros _; split; assumption|].
      split; [intros Hn; contradiction|]. split.
      * intros x _ Hx. inversion Hx as [|? ? Hxq _]; subst.
        rewrite store_head_footprint
          by (intros Hin; apply Hxq, in_head_field_in_header; exact Hin).
        apply Hframe. exact Hxq.
      * split; [exact Hq0 | split; [|exact I]].
        unfold Arena.next_field, Arena.head_field in *.
        rewrite load64_store64_other by lia. exact Hqn.
    + split; [exact Eh | split; [lia | split; [reflexivity|]]].
      split; [exact Hqwf|].
      split; [intros Hn; exfalso; apply Hn; reflexivity|].
      split; [intros _; split; [discriminate | exact Hqh]|]. split.
      * intros x _ Hx. inversion Hx as [|? ? Hxq _]; subst.
        apply Hframe. exact Hxq.
      * split; [exact Hq0 | split; [exact Hqn | exact I]].
Qed.

(** What one call that does not fault does to a well-formed arena:
    [new] lists the blocks it has added, most recent first; there are
    two of them at most, the first block of an empty arena and one more
    when the request did not fit it. *)
Lemma arena_alloc_step a w size align p a' w' :
  arena_wf a w -> request_ok (size, align) ->
  Forall valid_block (Arena.heap w) ->
  Arena.arena_alloc a size align w = Ok (p, a', w') ->
  exists new,
    Arena.heap w = rev new ++ Arena.heap w'
    /\ (length new <= 2)%nat
    /\ Arena.blocks a' = hd (Arena.blocks a) new
    /\ arena_wf a' w'
    /\ (p <> NULL ->
        block_wf (Arena.mem w') (Arena.blocks a')
        /\ in_block (Arena.blocks a', p, size)
        /\ load64 (Arena.mem w') (Arena.head_field (Arena.blocks a')) = p + size)
    /\ (forall x,
           (Arena.blocks a <> NULL -> ~ in_head_field (Arena.blocks a) x) ->
           Forall (fun q => ~ in_header q x) new ->
           Arena.mem w' x = Arena.mem w x)
    /\ (pairwise_disjoint new -> linked (Arena.mem w') new (Arena.blocks a)).
Proof.
  intros Hwf Hreq Hheap Hcall.
  destruct Hwf as [He|Hwf].
  - destruct (Arena.heap w) as [|q1 rest] eqn:Eh.
    + unfold Arena.arena_alloc, Arena.arena_get_block, Arena.arena_new_block,
        Arena.malloc in Hcall.
      rewrite He, Eh in Hcall. cbn in Hcall. injection Hcall as <- <- <-.
      exists []. cbn [rev app length hd linked]. rewrite Eh.
      split; [reflexivity | split; [lia | split; [reflexivity|]]].
      split; [left; exact He|].
      split; [intros Hn; exfalso; apply Hn; reflexivity|].
      split; [intros; reflexivity | intros _; exact I].
    + inversion Hheap as [|? ? Hq1 Hrest]; subst.
      assert (Hq1n : q1 <> NULL) by (destruct Hq1; unfold NULL; lia).
      rewrite (arena_alloc_lazy a size align w q1 rest He Eh Hq1n) in Hcall.
      assert (Hnull : 0 <= NULL < 2 ^ 64) by (unfold NULL; lia).
      pose proof (arena_block_init_wf (Arena.mem w) q1 NULL Hq1 Hnull) as Hwf1.
      destruct (arena_block_init_fields (Arena.mem w) q1 NULL Hq1 Hnull)
        as (Hn1 & _ & _ & Hout1).
      apply arena_alloc_step_nonempty in Hcall; try assumption.
      cbn [Arena.blocks Arena.mem Arena.heap] in Hcall.
      destruct Hcall as (new1 & Hh & Hlen & Hb & Hwf' & Hok & _ & Hfoot & Hlink).
      exists (new1 ++ [q1]).
      assert (Hfoot1 : forall x,
                 Forall (fun q => ~ in_header q x) (new1 ++ [q1]) ->
                 Arena.mem w' x = Arena.mem w x).
      { intros x Hx. apply Forall_app in Hx. destruct Hx as [Hx1 Hxq].
        inversion Hxq as [|? ? Hq _]; subst.
        rewrite Hfoot; [| intros Hin; apply Hq, in_head_field_in_header, Hin
                        | exact Hx1].
        apply Hout1. unfold in_header in Hq. lia. }
      split; [rewrite rev_app_distr; cbn [rev app]; rewrite Hh; reflexivity|].
      split; [rewrite length_app; cbn [length]; lia|].
      split; [rewrite Hb, He; destruct new1; reflexivity|].
      split; [right; exact Hwf'|].
      split; [intros Hp; split; [exact Hwf' | exact (Hok Hp)]|].
      split; [intros x _ Hx; apply Hfoot1; exact Hx|].
      intros [Hnd Hdis].
      assert (Hq1next : load64 (Arena.mem w') (Arena.next_field q1) = NULL).
      { rewrite <- Hn1. apply load64_ext. intros i Hi.
        apply Hfoot.
        - unfold in_head_field, Arena.next_field, Arena.head_field. lia.
        - rewrite Forall_forall. intros q2 Hq2 Hin.
          assert (Hne : q2 <> q1).
          { intros ->. apply NoDup_remove_2 in Hnd. apply Hnd.
            rewrite app_nil_r. exact Hq2. }
          assert (Hd : blocks_disjoint q2 q1).
          { apply Hdis; [apply in_or_app; left; exact Hq2
                        | apply in_or_app; right; left; reflexivity | exact Hne]. }
          unfold blocks_disjoint, in_header, Arena.next_field,
            Arena.ARENA_BLOCK_SIZE, Arena.HEADER_SIZE in *. lia. }
      rewrite <- He in Hq1next.
      destruct new1 as [|q2 [|q3 new1]]; [| |cbn [length] in Hlen; lia].
      * cbn [app linked hd]. split; [exact Hq1n | split; [exact Hq1next | exact I]].
      * cbn [app linked hd] in Hlink |- *.
        destruct Hlink as (Hq2n & Hq2next & _).
        split; [exact Hq2n | split; [exact Hq2next|]].
        split; [exact Hq1n | split; [exact Hq1next | exact I]].
  - apply arena_alloc_step_nonempty in Hcall; try assumption.
    destruct Hcall as (new & Hh & Hlen & Hb & Hwf' & Hok & _ & Hfoot & Hlink).
    assert (Hne : Arena.blocks a <> NULL).
    { destruct Hwf as [[Hb0 _] _]. unfold NULL. lia. }
    exists new.
    split; [exact Hh | split; [lia | split; [exact Hb|]]].
    split; [right; exact Hwf'|].
    split; [intros Hp; split; [exact Hwf' | exact (Hok Hp)]|].
    split; [|intros _; exact Hlink].
    intros x Hx Hnew. apply Hfoot; [apply Hx; exact Hne | exact Hnew].
Qed.

(** ** Arena: progress, invariant, footprint *)

(** X8.  A request that fits an empty block whatever the rounding
    ([size + align] at most the payload plus one) never fails while the
    backing allocator has a block to hand out: [arena_alloc] returns a
    non-null pointer, from the most recent block if it has room and
    from a new block if not. *)
Theorem arena_alloc_small_succeeds a w size align :
  arena_wf a w -> request_ok (size, align) ->
  size + align <= Arena.ARENA_BLOCK_SIZE - Arena.HEADER_SIZE + 1 ->
  Forall valid_block (Arena.heap w) -> Arena.heap w <> [] ->
  exists p a' w',
    Arena.arena_alloc a size align w = Ok (p, a', w') /\ p <> NULL.
Proof.
  intros Hwf Hreq Hsmall Hheap Hsome.
  assert (Hnonempty : forall a0 w0,
             block_wf (Arena.mem w0) (Arena.blocks a0) ->
             Forall valid_block (Arena.heap w0) ->
             (Arena.heap w0 <> []
              \/ load64 (Arena.mem w0) (Arena.head_field (Arena.blocks a0))
                 = Arena.blocks a0 + Arena.HEADER_SIZE) ->
             exists p a' w',
               Arena.arena_alloc a0 size align w0 = Ok (p, a', w') /\ p <> NULL).
  { intros a0 w0 Hwf0 Hheap0 Hroom.
    destruct (arena_alloc_outcomes a0 w0 size align Hwf0 Hreq Hheap0)
      as [(_ & Hnn & _ & E)|[(Hbig & Hnil & _)|(Hbig & q & rest & _ & Hq & _ & Hcases)]].
    - eexists. eexists. eexists. split; [exact E | exact Hnn].
    - destruct Hroom as [Hne|Hfresh]; [contradiction|].
      rewrite Hfresh in Hbig.
      pose proof (fresh_block_fits (Arena.blocks a0) size align
                    (proj1 Hwf0) Hreq Hsmall). lia.
    - destruct Hcases as [(_ & Hnn & _ & E)|(Hbig2 & _)].
      + eexists. eexists. eexists. split; [exact E | exact Hnn].
      + pose proof (fresh_block_fits q size align Hq Hreq Hsmall). lia. }
  destruct Hwf as [He|Hwf].
  - destruct (Arena.heap w) as [|q1 rest] eqn:Eh; [contradiction|].
    inversion Hheap as [|? ? Hq1 Hrest]; subst.
    assert (Hq1n : q1 <> NULL) by (destruct Hq1; unfold NULL; lia).
    rewrite (arena_alloc_lazy a size align w q1 rest He Eh Hq1n).
    assert (Hnull : 0 <= NULL < 2 ^ 64) by (unfold NULL; lia).
    apply Hnonempty; cbn [Arena.blocks Arena.mem Arena.heap].
    + apply arena_block_init_wf; assumption.
    + exact Hrest.
    + right. apply arena_block_init_fields; assumption.
  - apply Hnonempty; [exact Hwf | exact Hheap | left; exact Hsome].
Qed.

Lemma arena_alloc_small_succeeds_witness :
  exists p a' w',
    Arena.arena_alloc full_block_arena 1000 1 (full_block_world [8192])
      = Ok (p, a', w') /\ p <> NULL.
Proof.
  apply arena_alloc_small_succeeds.
  - right. apply full_block_wf.
  - apply request_ok_intro; [by_computation | exact pow2_align_1].
  - by_computation.
  - constructor; [by_computation | constructor].
  - discriminate.
Defined.

(** X9.  [arena_alloc] keeps the arena well formed, and a pointer it
    returns designates [size] bytes inside the payload of the block
    that is the most recent one after the call: not before byte
    [HEADER_SIZE] of the block, not past its end, with the head of the
    block left just after them. *)
Theorem arena_alloc_keeps_wf a w size align p a' w' :
  arena_wf a w -> request_ok (size, align) ->
  Forall valid_block (Arena.heap w) ->
  Arena.arena_alloc a size align w = Ok (p, a', w') ->
  arena_wf a' w'
  /\ Forall valid_block (Arena.heap w')
  /\ (p <> NULL ->
      Arena.blocks a' <> NULL
      /\ Arena.blocks a' + Arena.HEADER_SIZE <= p
      /\ p + size <= Arena.blocks a' + Arena.ARENA_BLOCK_SIZE
      /\ load64 (Arena.mem w') (Arena.head_field (Arena.blocks a')) = p + size).
Proof.
  intros Hwf Hreq Hheap Hcall.
  destruct (arena_alloc_step a w size align p a' w' Hwf Hreq Hheap Hcall)
    as (new & Hh & _ & _ & Hwf' & Hok & _).
  split; [exact Hwf'|]. split.
  - rewrite Hh in Hheap. apply Forall_app in Hheap. apply Hheap.
  - intros Hp. destruct (Hok Hp) as ([[Hb _] _] & (H1 & _ & H3) & Hhead).
    unfold entry_block, entry_ptr, entry_size in *. cbn [fst snd] in *.
    split; [unfold NULL; lia|].
    split; [exact H1 | split; [exact H3 | exact Hhead]].
Qed.

Lemma arena_alloc_keeps_wf_witness :
  returned (Arena.arena_alloc empty_arena 4 4 (blank_world [4096])) = Some 4120
  /\ 4096 + Arena.HEADER_SIZE <= 4120
  /\ 4120 + 4 <= 4096 + Arena.ARENA_BLOCK_SIZE.
Proof.
  assert (Hret : match Arena.arena_alloc empty_arena 4 4 (blank_world [4096]) with
                 | Ok (p, a, _) => Some (p, Arena.blocks a)
                 | Fault => None
                 end = Some (4120, 4096)) by (vm_compute; reflexivity).
  destruct (Arena.arena_alloc empty_arena 4 4 (blank_world [4096]))
    as [|[[p a'] w']] eqn:Ecall; [discriminate|].
  injection Hret as -> Hb. cbn [returned].
  split; [reflexivity|].
  destruct (arena_alloc_keeps_wf empty_arena (blank_world [4096]) 4 4 4120 a' w')
    as (_ & _ & Hok).
  - left. reflexivity.
  - apply request_ok_intro; [by_computation | exact pow2_align_4].
  - constructor; [by_computation | constructor].
  - exact Ecall.
  - destruct Hok as (_ & Hlo & Hhi & _); [discriminate|].
    rewrite Hb in Hlo, Hhi. split; assumption.
Defined.

(** X10.  [arena_alloc] writes nowhere but in the [head] field of the
    most recent block and in the headers of blocks the backing
    allocator hands out during the call: every other byte of memory,
    the payload of every block and the headers of the older blocks
    among them, is after the call what it was before. *)
Theorem arena_alloc_footprint a w size align p a' w' x :
  arena_wf a w -> request_ok (size, align) ->
  Forall valid_block (Arena.heap w) ->
  Arena.arena_alloc a size align w = Ok (p, a', w') ->
  (Arena.blocks a <> NULL -> ~ in_head_field (Arena.blocks a) x) ->
  Forall (fun q => ~ in_header q x) (Arena.heap w) ->
  Arena.mem w' x = Arena.mem w x.
Proof.
  intros Hwf Hreq Hheap Hcall Hx Hfresh.
  destruct (arena_alloc_step a w size align p a' w' Hwf Hreq Hheap Hcall)
    as (new & Hh & _ & _ & _ & _ & Hfoot & _).
  apply Hfoot; [exact Hx|].
  rewrite Hh in Hfresh. apply Forall_app in Hfresh. destruct Hfresh as [Hnew _].
  rewrite Forall_forall in Hnew |- *.
  intros q Hq. apply Hnew. apply in_rev in Hq. exact Hq.
Qed.

Lemma arena_alloc_footprint_witness :
  match Arena.arena_alloc full_block_arena 16 8 (full_block_world [8192]) with
  | Ok (p, _, w') =>
      p = 8192 + Arena.HEADER_SIZE
      /\ Arena.mem w' (4096 + 100)
         = Arena.mem (full_block_world [8192]) (4096 + 100)
  | Fault => False
  end.
Proof.
  assert (Hret : returned (Arena.arena_alloc full_block_arena 16 8
                             (full_block_world [8192]))
                 = Some (8192 + Arena.HEADER_SIZE)) by (vm_compute; reflexivity).
  destruct (Arena.arena_alloc full_block_arena 16 8 (full_block_world [8192]))
    as [|[[p a'] w']] eqn:Ecall; [discriminate|].
  cbn [returned] in Hret. injection Hret as ->.
  split; [reflexivity|].
  apply (arena_alloc_footprint full_block_arena (full_block_world [8192])
           16 8 (8192 + Arena.HEADER_SIZE) a' w' (4096 + 100)).
  - right. apply full_block_wf.
  - apply request_ok_intro; [by_computation | exact pow2_align_8].
  - constructor; [by_computation | constructor].
  - exact Ecall.
  - intros _. unfold in_head_field, Arena.head_field. cbn. lia.
  - constructor; [|constructor].
    unfold in_header, Arena.HEADER_SIZE. lia.
Defined.

(** ** Arena: the chain of blocks and [arena_clear] *)

Lemma block_list_hd m b l : block_list m b l -> b = hd NULL l.
Proof. intros H. inversion H; reflexivity. Qed.

Lemma linked_block_list m new : forall b0 l,
  linked m new b0 -> block_list m b0 l ->
  block_list m (hd b0 new) (new ++ l).
Proof.
  induction new as [|q rest IH]; intros b0 l Hlink Hl.
  - exact Hl.
  - cbn [linked] in Hlink. destruct Hlink as (Hq & Hnext & Hrest).
    cbn [hd app]. constructor; [exact Hq|].
    rewrite Hnext. apply IH; assumption.
Qed.

Lemma pairwise_disjoint_perm l l' :
  Permutation l l' -> pairwise_disjoint l -> pairwise_disjoint l'.
Proof.
  intros Hperm [Hnd Hdis]. split.
  - eapply Permutation_NoDup; eassumption.
  - intros x y Hx Hy Hne.
    apply Hdis; [| |exact Hne]; eapply Permutation_in;
      try eassumption; apply Permutation_sym; exact Hperm.
Qed.

Lemma pairwise_disjoint_app_l l1 l2 :
  pairwise_disjoint (l1 ++ l2) -> pairwise_disjoint l1.
Proof.
  intros [Hnd Hdis]. split.
  - eapply NoDup_app_remove_r. exact Hnd.
  - intros x y Hx Hy. apply Hdis; apply in_or_app; left; assumption.
Qed.

Lemma pairwise_disjoint_across l1 l2 x y :
  pairwise_disjoint (l1 ++ l2) -> In x l1 -> In y l2 -> blocks_disjoint x y.
Proof.
  intros [Hnd Hdis] Hx Hy.
  apply Hdis; [apply in_or_app; left; exact Hx
              | apply in_or_app; right; exact Hy |].
  intros ->. revert Hnd Hx Hy. clear. induction l1 as [|a l1 IH]; intros Hnd Hx Hy.
  - destruct Hx.
  - cbn [app] in Hnd. inversion Hnd as [|? ? Hna Hnd']; subst.
    destruct Hx as [->|Hx].
    + apply Hna. apply in_or_app. right. exact Hy.
    + apply IH; assumption.
Qed.

(** One call and the chain of blocks: the blocks the call adds come in
    front of the chain, which is otherwise untouched, and the blocks
    still to be handed out stay apart from it. *)
Lemma arena_alloc_chain a w size align p a' w' l :
  arena_wf a w -> request_ok (size, align) ->
  block_list (Arena.mem w) (Arena.blocks a) l ->
  blocks_separate (Arena.heap w) l ->
  Arena.arena_alloc a size align w = Ok (p, a', w') ->
  exists new,
    Arena.heap w = rev new ++ Arena.heap w'
    /\ arena_wf a' w'
    /\ block_list (Arena.mem w') (Arena.blocks a') (new ++ l)
    /\ blocks_separate (Arena.heap w') (new ++ l).
Proof.
  intros Hwf Hreq Hl [Hvalid Hsep] Hcall.
  destruct (arena_alloc_step a w size align p a' w' Hwf Hreq Hvalid Hcall)
    as (new & Hh & _ & Hb & Hwf' & _ & Hfoot & Hlink).
  exists new. split; [exact Hh | split; [exact Hwf'|]].
  rewrite Hh in Hsep, Hvalid.
  assert (Hnew : pairwise_disjoint new).
  { apply (pairwise_disjoint_perm (rev new)); [apply Permutation_sym, Permutation_rev|].
    rewrite <- app_assoc in Hsep. eapply pairwise_disjoint_app_l. exact Hsep. }
  assert (Hperm : Permutation ((rev new ++ Arena.heap w') ++ l)
                              (Arena.heap w' ++ new ++ l)).
  { rewrite <- app_assoc.
    eapply Permutation_trans;
      [apply Permutation_app_tail, Permutation_sym, Permutation_rev|].
    apply Permutation_app_swap_app. }
  split; [|split].
  - rewrite Hb. apply linked_block_list; [apply Hlink; exact Hnew|].
    apply (block_list_frame (Arena.mem w)); [exact Hl|].
    rewrite Forall_forall. intros x Hx.
    apply load64_ext. intros i Hi. apply Hfoot.
    + intros Hne. pose proof (block_list_hd _ _ _ Hl) as Hhd.
      destruct l as [|b l0]; [contradiction|]. cbn [hd] in Hhd.
      unfold in_head_field, Arena.next_field, Arena.head_field.
      destruct Hx as [<-|Hx]; [rewrite Hhd; lia|].
      assert (Hd : blocks_disjoint b x).
      { destruct Hsep as [Hnd Hdis].
        apply Hdis.
        - apply in_or_app. right. left. reflexivity.
        - apply in_or_app. right. right. exact Hx.
        - intros ->. apply NoDup_app_remove_l in Hnd.
          inversion Hnd; contradiction. }
      rewrite Hhd. unfold blocks_disjoint, Arena.ARENA_BLOCK_SIZE in Hd. lia.
    + rewrite Forall_forall. intros q Hq.
      assert (Hd : blocks_disjoint q x).
      { apply (pairwise_disjoint_across _ _ q x Hsep); [|exact Hx].
        apply in_or_app. left. apply in_rev in Hq. exact Hq. }
      unfold blocks_disjoint, in_header, Arena.next_field,
        Arena.ARENA_BLOCK_SIZE, Arena.HEADER_SIZE in *. lia.
  - apply Forall_app in Hvalid. apply Hvalid.
  - eapply pairwise_disjoint_perm; eassumption.
Qed.

(** A run of calls and the chain of blocks. *)
Lemma arena_alloc_all_chain reqs : forall a w l tr a' w',
  arena_wf a w -> Forall request_ok reqs ->
  block_list (Arena.mem w) (Arena.blocks a) l ->
  blocks_separate (Arena.heap w) l ->
  Arena.arena_alloc_all a w reqs = Ok (tr, a', w') ->
  exists new,
    Arena.heap w = rev new ++ Arena.heap w'
    /\ arena_wf a' w'
    /\ block_list (Arena.mem w') (Arena.blocks a') (new ++ l)
    /\ blocks_separate (Arena.heap w') (new ++ l).
Proof.
  induction reqs as [|[size align] rest IH]; intros a w l tr a' w' Hwf Hreqs Hl Hsep Hrun.
  - cbn in Hrun. injection Hrun as _ <- <-. exists [].
    split; [reflexivity | split; [exact Hwf | split; assumption]].
  - inversion Hreqs as [|? ? Hreq Hrest]; subst.
    cbn [Arena.arena_alloc_all] in Hrun.
    destruct (Arena.arena_alloc a size align w) as [|[[p a1] w1]] eqn:Ecall;
      [discriminate|].
    destruct (Arena.arena_alloc_all a1 w1 rest) as [|[[tr1 a2] w2]] eqn:Erest;
      [discriminate|].
    injection Hrun as _ <- <-.
    destruct (arena_alloc_chain a w size align p a1 w1 l Hwf Hreq Hl Hsep Ecall)
      as (new1 & Hh1 & Hwf1 & Hl1 & Hsep1).
    destruct (IH a1 w1 (new1 ++ l) tr1 a2 w2 Hwf1 Hrest Hl1 Hsep1 Erest)
      as (new2 & Hh2 & Hwf2 & Hl2 & Hsep2).
    exists (new2 ++ new1).
    rewrite <- app_assoc.
    split; [|split; [exact Hwf2 | split; assumption]].
    rewrite Hh1, Hh2, rev_app_distr, <- app_assoc. reflexivity.
Qed.

(** Handing the first block of a chain to [free] leaves the rest of the
    chain in place. *)
Lemma spares_block_list free b rest w next :
  spares free b rest ->
  block_list (Arena.mem w) next rest ->
  block_list (Arena.mem (free b w)) next rest.
Proof.
  intros Hsp Hl. apply (block_list_frame (Arena.mem w)); [exact Hl|].
  rewrite Forall_forall. intros x Hx. apply load64_ext. intros i Hi.
  apply Hsp. apply Exists_exists. exists x. split; [exact Hx|].
  unfold Arena.next_field, Arena.ARENA_BLOCK_SIZE. lia.
Qed.

Lemma arena_clear_loop_walks free l : forall b fuel w,
  block_list (Arena.mem w) b l -> frees_in_order free l ->
  (length l <= fuel)%nat ->
  Arena.arena_clear_loop free fuel b w = Some (released free l w).
Proof.
  induction l as [|x l IH]; intros b fuel w Hl Hfree Hfuel; inversion Hl; subst.
  - destruct fuel; reflexivity.
  - destruct fuel as [|fuel]; [cbn in Hfuel; lia|].
    cbn [Arena.arena_clear_loop].
    match goal with H : x <> NULL |- _ => apply Z.eqb_neq in H; rewrite H end.
    change (released free (x :: l) w) with (released free l (free x w)).
    destruct Hfree as [Hsp Hrest].
    apply IH; [apply spares_block_list; assumption | exact Hrest
              | cbn in Hfuel; lia].
Qed.

Lemma arena_clear_loop_short free l : forall b fuel w,
  block_list (Arena.mem w) b l -> frees_in_order free l ->
  (fuel < length l)%nat ->
  Arena.arena_clear_loop free fuel b w = None.
Proof.
  induction l as [|x l IH]; intros b fuel w Hl Hfree Hfuel; inversion Hl; subst.
  - cbn in Hfuel. lia.
  - match goal with H : x <> NULL |- _ => apply Z.eqb_neq in H; rename H into Hx end.
    destruct fuel as [|fuel]; cbn [Arena.arena_clear_loop]; rewrite Hx;
      [reflexivity|].
    destruct Hfree as [Hsp Hrest].
    apply IH; [apply spares_block_list; assumption | exact Hrest
              | cbn in Hfuel; lia].
Qed.

(** [scribbling_free] writes into the block it is given only. *)
Lemma scribbling_free_spares b live :
  Forall (blocks_disjoint b) live -> spares scribbling_free b live.
Proof.
  intros Hd w x Hex. apply Exists_exists in Hex. destruct Hex as (b' & Hin & Hx).
  rewrite Forall_forall in Hd. specialize (Hd _ Hin).
  unfold scribbling_free. cbn [Arena.mem Arena.set_mem].
  unfold blocks_disjoint, Arena.ARENA_BLOCK_SIZE in *.
  rewrite !store64_out by lia. reflexivity.
Qed.

(** X11.  From the empty arena, after any run of calls that does not
    fault, whatever the calls returned: the blocks the backing
    allocator has handed out are exactly the chain of blocks of the
    arena, the last one handed out first.  [arena_clear] then hands
    each of them to [free], once and in that order, and leaves the arena
    empty: for every [free] that leaves the blocks still in use alone,
    the world after [arena_clear] is the world after those calls of
    [free], reached in as many steps as there are blocks. *)
Theorem arena_clear_after_run free w reqs tr a' w' :
  Forall request_ok reqs -> blocks_separate (Arena.heap w) [] ->
  Arena.arena_alloc_all empty_arena w reqs = Ok (tr, a', w') ->
  exists chain,
    Arena.heap w = rev chain ++ Arena.heap w'
    /\ block_list (Arena.mem w') (Arena.blocks a') chain
    /\ (frees_in_order free chain ->
        Arena.arena_clear free (length chain) a' w'
        = Some (empty_arena, released free chain w')).
Proof.
  intros Hreqs Hsep Hrun.
  destruct (arena_alloc_all_chain reqs empty_arena w [] tr a' w')
    as (chain & Hh & _ & Hl & _); try assumption.
  - left. reflexivity.
  - constructor.
  - rewrite app_nil_r in Hl. exists chain.
    split; [exact Hh | split; [exact Hl|]].
    intros Hfree. unfold Arena.arena_clear.
    rewrite (arena_clear_loop_walks free chain) by (try assumption; lia).
    reflexivity.
Qed.

(** The run of [arena.c], which takes two blocks, cleared with a [free]
    that overwrites the links of the blocks it takes back. *)
Lemma arena_clear_after_run_witness :
  match Arena.arena_alloc_all empty_arena (blank_world [4096; 8192])
          [(4, 4); (16, 4); (990, 1)] with
  | Ok (_, a', w') =>
      Arena.arena_clear scribbling_free 2 a' w'
      = Some (empty_arena, scribbling_free 4096 (scribbling_free 8192 w'))
  | Fault => False
  end.
Proof.
  assert (Hleft : match Arena.arena_alloc_all empty_arena
                          (blank_world [4096; 8192])
                          [(4, 4); (16, 4); (990, 1)] with
                  | Ok (_, _, w') => Some (Arena.heap w')
                  | Fault => None
                  end = Some [])
    by (vm_compute; reflexivity).
  destruct (Arena.arena_alloc_all empty_arena (blank_world [4096; 8192])
              [(4, 4); (16, 4); (990, 1)]) as [|[[tr a'] w']] eqn:Erun;
    [discriminate|].
  injection Hleft as Hleft.
  destruct (arena_clear_after_run scribbling_free (blank_world [4096; 8192])
              [(4, 4); (16, 4); (990, 1)] tr a' w') as (chain & Hh & _ & Hclear).
  - repeat (apply Forall_cons || apply Forall_nil);
      apply request_ok_intro;
      first [exact pow2_align_4 | exact pow2_align_1 | by_computation].
  - split; [|split].
    + constructor; [by_computation | constructor; [by_computation | constructor]].
    + cbn [app Arena.heap blank_world].
      constructor; [intros [H|[]]; discriminate|].
      constructor; [intros []|constructor].
    + cbn [app Arena.heap blank_world]. intros x y [<-|[<-|[]]] [<-|[<-|[]]] Hne;
        try (exfalso; apply Hne; reflexivity).
      * left. by_computation.
      * right. by_computation.
  - exact Erun.
  - rewrite Hleft, app_nil_r in Hh. cbn [Arena.heap blank_world] in Hh.
    assert (Hchain : chain = [8192; 4096]).
    { rewrite <- (rev_involutive chain), <- Hh. reflexivity. }
    subst chain. apply Hclear.
    split; [|split; [|exact I]]; apply scribbling_free_spares.
    + constructor; [right; by_computation | constructor].
    + constructor.
Defined.

(** X12.  [arena_clear] on an arena whose chain has [n] blocks, with a
    [free] that leaves the blocks still in use alone: the loop reads the
    [next] field of a block before it hands the block to [free], calls
    [free] on every block of the chain once, in chain order, and ends
    after exactly [n] steps, so fuel [n] or more gives the empty arena in
    the world those calls of [free] leave, and less fuel gives nothing.
    On the empty arena [free] is not called and nothing changes,
    whatever the fuel. *)
Theorem arena_clear_steps free a w l fuel :
  block_list (Arena.mem w) (Arena.blocks a) l ->
  frees_in_order free l ->
  ((length l <= fuel)%nat ->
   Arena.arena_clear free fuel a w = Some (empty_arena, released free l w))
  /\ ((fuel < length l)%nat -> Arena.arena_clear free fuel a w = None)
  /\ (forall fuel',
         Arena.arena_clear free fuel' empty_arena w = Some (empty_arena, w)).
Proof.
  intros Hl Hfree. split; [|split].
  - intros Hfuel. unfold Arena.arena_clear.
    rewrite (arena_clear_loop_walks free l) by assumption. reflexivity.
  - intros Hfuel. unfold Arena.arena_clear.
    rewrite (arena_clear_loop_short free l) by assumption. reflexivity.
  - intros fuel'. destruct fuel'; reflexivity.
Qed.

Lemma arena_clear_steps_witness :
  Arena.arena_clear scribbling_free 1 full_block_arena (full_block_world [])
    = Some (empty_arena, scribbling_free 4096 (full_block_world []))
  /\ Arena.arena_clear scribbling_free 0 full_block_arena (full_block_world [])
     = None.
Proof.
  assert (Hfree : frees_in_order scribbling_free [4096]).
  { split; [apply scribbling_free_spares; constructor | exact I]. }
  destruct (arena_clear_steps scribbling_free full_block_arena
              (full_block_world []) [4096] 1 (full_block_list []) Hfree)
    as (Hdone & _ & _).
  destruct (arena_clear_steps scribbling_free full_block_arena
              (full_block_world []) [4096] 0 (full_block_list []) Hfree)
    as (_ & Hshort & _).
  split; [apply Hdone; cbn; lia | apply Hshort; cbn; lia].
Defined.

(** ** Block allocator: cells, round trips, misuse *)

Lemma byte_of_load64 m p i :
  0 <= i < 8 -> byte_of (load64 m p) i = (m (p + i)) mod 256.
Proof.
  intros Hi. unfold byte_of, load64.
  assert (Hcases : i = 0 \/ i = 1 \/ i = 2 \/ i = 3 \/ i = 4 \/ i = 5
                   \/ i = 6 \/ i = 7) by lia.
  assert (Hp0 : p + 0 = p) by lia.
  destruct Hcases as [->|[->|[->|[->|[->|[->|[->| ->]]]]]]];
    rewrite ?Hp0;
    pose proof (Z.mod_pos_bound (m p) 256 ltac:(lia));
    pose proof (Z.mod_pos_bound (m (p + 1)) 256 ltac:(lia));
    pose proof (Z.mod_pos_bound (m (p + 2)) 256 ltac:(lia));
    pose proof (Z.mod_pos_bound (m (p + 3)) 256 ltac:(lia));
    pose proof (Z.mod_pos_bound (m (p + 4)) 256 ltac:(lia));
    pose proof (Z.mod_pos_bound (m (p + 5)) 256 ltac:(lia));
    pose proof (Z.mod_pos_bound (m (p + 6)) 256 ltac:(lia));
    pose proof (Z.mod_pos_bound (m (p + 7)) 256 ltac:(lia));
    generalize dependent ((m p) mod 256);
    generalize dependent ((m (p + 1)) mod 256);
    generalize dependent ((m (p + 2)) mod 256);
    generalize dependent ((m (p + 3)) mod 256);
    generalize dependent ((m (p + 4)) mod 256);
    generalize dependent ((m (p + 5)) mod 256);
    generalize dependent ((m (p + 6)) mod 256);
    generalize dependent ((m (p + 7)) mod 256);
    intros; cbn [Z.mul Pos.mul];
    change (2 ^ 0) with 1; change (2 ^ 8) with 256;
    change (2 ^ 16) with 65536; change (2 ^ 24) with 16777216;
    change (2 ^ 32) with 4294967296; change (2 ^ 40) with 1099511627776;
    change (2 ^ 48) with 281474976710656;
    change (2 ^ 56) with 72057594037927936;
    Z.div_mod_to_equations; lia.
Qed.

Lemma StronglySorted_app_l (A : Type) (R : A -> A -> Prop) (l1 l2 : list A) :
  StronglySorted R (l1 ++ l2) -> StronglySorted R l1.
Proof.
  induction l1 as [|x l1 IH]; intros H; [constructor|].
  cbn [app] in H. inversion H as [|? ? Hs Hx]; subst.
  constructor; [apply IH; exact Hs|].
  apply Forall_app in Hx. apply Hx.
Qed.

Lemma cells_desc_sorted buffer item_size n :
  BlockAllocator.LINK_SIZE <= item_size ->
  StronglySorted (cell_below item_size) (cells_desc buffer item_size n).
Proof.
  intros Hi. induction n as [|n IH]; cbn [cells_desc]; constructor; [exact IH|].
  eapply Forall_impl; [|exact (cells_desc_bounds buffer item_size Hi n)].
  intros c [_ Hhi]. exact Hhi.
Qed.

(** X13.  The cells the block allocator hands out after [ba_init] never
    overlap: the first [n] calls of [ba_alloc], for [n] up to the number
    of cells, return non-null pointers of which each one later in the
    run lies a whole [item_size] below the earlier ones. *)
Theorem ba_cells_never_overlap buffer buffer_size item_size m n :
  0 < buffer -> BlockAllocator.LINK_SIZE <= item_size ->
  0 <= buffer_size -> buffer + buffer_size < 2 ^ 64 ->
  (n <= Z.to_nat (buffer_size / item_size))%nat ->
  exists ba m0,
    BlockAllocator.ba_init buffer buffer_size item_size m = Ok (ba, m0)
    /\ length (fst (fst (BlockAllocator.ba_alloc_n n ba m0))) = n
    /\ Forall (fun p => p <> NULL) (fst (fst (BlockAllocator.ba_alloc_n n ba m0)))
    /\ StronglySorted (cell_below item_size)
         (fst (fst (BlockAllocator.ba_alloc_n n ba m0))).
Proof.
  intros Hb Hi Hs Hfit Hn.
  destruct (ba_init_free_list buffer item_size Hb Hi buffer_size m Hs Hfit)
    as (m0 & Hinit & Hl).
  set (count := Z.to_nat (buffer_size / item_size)) in *.
  set (cells := cells_desc buffer item_size count) in *.
  eexists. exists m0. split; [exact Hinit|].
  assert (Hlen : length (firstn n cells) = n).
  { apply firstn_length_le. unfold cells. rewrite cells_desc_length. exact Hn. }
  destruct (ba_alloc_n_pops (firstn n cells)
              {| BlockAllocator.buffer := buffer;
                 BlockAllocator.buffer_end := buffer + buffer_size;
                 BlockAllocator.blocks := hd NULL cells |} m0 (skipn n cells))
    as (m' & Hrun & _).
  { rewrite firstn_skipn. exact Hl. }
  { rewrite firstn_skipn. apply cells_desc_apart; assumption. }
  rewrite Hlen in Hrun. rewrite Hrun. cbn [fst].
  split; [exact Hlen|]. split.
  - pose proof (cells_desc_bounds buffer item_size Hi count) as Hbounds.
    fold cells in Hbounds. rewrite <- (firstn_skipn n cells) in Hbounds.
    apply Forall_app in Hbounds. destruct Hbounds as [Hfirst _].
    eapply Forall_impl; [|exact Hfirst].
    intros c [Hlo _]. unfold NULL. lia.
  - apply (StronglySorted_app_l _ _ _ (skipn n cells)).
    rewrite firstn_skipn. apply cells_desc_sorted. exact Hi.
Qed.

Lemma ba_cells_never_overlap_witness :
  exists ba m0,
    BlockAllocator.ba_init 4096 100 32 (fun _ => 0) = Ok (ba, m0)
    /\ StronglySorted (cell_below 32)
         (fst (fst (BlockAllocator.ba_alloc_n 3 ba m0))).
Proof.
  assert (H2 : BlockAllocator.LINK_SIZE <= 32) by by_computation.
  assert (H4 : 4096 + 100 < 2 ^ 64) by by_computation.
  assert (Hn : (3 <= Z.to_nat (100 / 32))%nat) by (vm_compute; lia).
  destruct (ba_cells_never_overlap 4096 100 32 (fun _ => 0) 3
              ltac:(lia) H2 ltac:(lia) H4 Hn)
    as (ba & m0 & Hinit & _ & _ & Hsorted).
  exists ba, m0. split; [exact Hinit | exact Hsorted].
Defined.

(** X14.  [ba_alloc] and [ba_free] undo each other.  Allocating and
    freeing the pointer obtained gives back the allocator, and every
    byte of memory has the value it had, the link of the cell having
    been zero in between.  Freeing an accepted pointer and allocating
    returns that pointer and gives back the allocator, with nothing
    but the link of the cell changed, which is zero. *)
Theorem ba_alloc_free_inverse ba m :
  0 <= BlockAllocator.blocks ba < 2 ^ 64 ->
  (head_in_buffer ba -> BlockAllocator.blocks ba <> NULL ->
   let '(p, ba1, m1) := BlockAllocator.ba_alloc ba m in
   let '(ba2, m2) := BlockAllocator.ba_free ba1 p m1 in
   p = BlockAllocator.blocks ba /\ load64 m1 p = 0
   /\ ba2 = ba /\ (forall x, (m2 x) mod 256 = (m x) mod 256))
  /\ (forall ptr,
      BlockAllocator.buffer ba <= ptr <= BlockAllocator.buffer_end ba ->
      ptr <> NULL ->
      let '(ba1, m1) := BlockAllocator.ba_free ba ptr m in
      let '(p, ba2, m2) := BlockAllocator.ba_alloc ba1 m1 in
      p = ptr /\ ba2 = ba /\ load64 m2 ptr = 0
      /\ (forall x, x < ptr \/ ptr + BlockAllocator.LINK_SIZE <= x ->
                    m2 x = m x)).
Proof.
  intros Hword. split.
  - intros Hin Hne. unfold BlockAllocator.ba_alloc.
    pose proof Hne as Hne'. apply Z.eqb_neq in Hne'. rewrite Hne'.
    destruct Hin as [Hin|Hin]; [contradiction|].
    unfold BlockAllocator.ba_free.
    cbn [BlockAllocator.buffer BlockAllocator.buffer_end BlockAllocator.blocks].
    replace (BlockAllocator.blocks ba <? BlockAllocator.buffer ba) with false
      by (symmetry; apply Z.ltb_ge; lia).
    replace (BlockAllocator.blocks ba >? BlockAllocator.buffer_end ba) with false
      by (symmetry; apply gtb_false; lia).
    cbn [orb].
    split; [reflexivity|]. split; [apply load64_store64_same; lia|].
    split; [destruct ba; reflexivity|].
    intros x. set (p := BlockAllocator.blocks ba).
    destruct (Z_lt_dec x p) as [Hlt|Hge];
      [rewrite !store64_out by lia; reflexivity|].
    destruct (Z_le_dec (p + 8) x) as [Hhi|Hlo];
      [rewrite !store64_out by lia; reflexivity|].
    rewrite store64_in by lia. rewrite byte_of_mod.
    rewrite byte_of_load64 by lia. f_equal. f_equal. lia.
  - intros ptr Hin Hne. unfold BlockAllocator.ba_free.
    replace (ptr <? BlockAllocator.buffer ba) with false
      by (symmetry; apply Z.ltb_ge; lia).
    replace (ptr >? BlockAllocator.buffer_end ba) with false
      by (symmetry; apply gtb_false; lia).
    cbn [orb]. unfold BlockAllocator.ba_alloc.
    cbn [BlockAllocator.buffer BlockAllocator.buffer_end BlockAllocator.blocks].
    apply Z.eqb_neq in Hne. rewrite Hne.
    rewrite load64_store64_same by exact Hword.
    split; [reflexivity|]. split; [destruct ba; reflexivity|].
    split; [apply load64_store64_same; lia|].
    intros x Hx. unfold BlockAllocator.LINK_SIZE in Hx.
    rewrite !store64_out by lia. reflexivity.
Qed.

Lemma ba_alloc_free_inverse_witness :
  (let '(p, ba1, m1) := BlockAllocator.ba_alloc two_cell_ba two_cell_memory in
   let '(ba2, m2) := BlockAllocator.ba_free ba1 p m1 in
   p = 4132 /\ ba2 = two_cell_ba)
  /\ (let '(ba1, m1) := BlockAllocator.ba_free two_cell_ba 4096 two_cell_memory in
      let '(p, ba2, m2) := BlockAllocator.ba_alloc ba1 m1 in
      p = 4096 /\ ba2 = two_cell_ba).
Proof.
  assert (Hword : 0 <= BlockAllocator.blocks two_cell_ba < 2 ^ 64)
    by by_computation.
  destruct (ba_alloc_free_inverse two_cell_ba two_cell_memory Hword)
    as [Haf Hfa].
  split.
  - assert (Hin : head_in_buffer two_cell_ba) by (right; by_computation).
    assert (Hne : BlockAllocator.blocks two_cell_ba <> NULL) by discriminate.
    specialize (Haf Hin Hne).
    destruct (BlockAllocator.ba_alloc two_cell_ba two_cell_memory)
      as [[p ba1] m1].
    destruct (BlockAllocator.ba_free ba1 p m1) as [ba2 m2].
    destruct Haf as (Hp & _ & Hba & _). split; [exact Hp | exact Hba].
  - assert (Hr : BlockAllocator.buffer two_cell_ba <= 4096
                 <= BlockAllocator.buffer_end two_cell_ba) by by_computation.
    assert (Hne : 4096 <> NULL) by discriminate.
    specialize (Hfa 4096 Hr Hne).
    destruct (BlockAllocator.ba_free two_cell_ba 4096 two_cell_memory)
      as [ba1 m1].
    destruct (BlockAllocator.ba_alloc ba1 m1) as [[p ba2] m2].
    destruct Hfa as (Hp & Hba & _). split; [exact Hp | exact Hba].
Defined.

Lemma ForallOrdPairs_app_r (A : Type) (R : A -> A -> Prop) (l1 l2 : list A) :
  ForallOrdPairs R (l1 ++ l2) -> ForallOrdPairs R l2.
Proof.
  induction l1 as [|x l1 IH]; intros H; [exact H|].
  cbn [app] in H. inversion H; subst. apply IH. assumption.
Qed.

(** Calls of [ba_free] in a row push the pointers on the free list, the
    last one freed in front. *)
Lemma ba_free_all_free_list ptrs : forall ba m l,
  0 <= BlockAllocator.buffer ba -> BlockAllocator.buffer_end ba < 2 ^ 64 ->
  0 <= BlockAllocator.blocks ba < 2 ^ 64 ->
  free_list m (BlockAllocator.blocks ba) l ->
  Forall (fun p => p <> NULL
                   /\ BlockAllocator.buffer ba <= p <= BlockAllocator.buffer_end ba)
         ptrs ->
  ForallOrdPairs apart (rev ptrs ++ l) ->
  let (ba1, m1) := ba_free_all ba ptrs m in
  BlockAllocator.buffer ba1 = BlockAllocator.buffer ba
  /\ BlockAllocator.buffer_end ba1 = BlockAllocator.buffer_end ba
  /\ BlockAllocator.blocks ba1 = hd NULL (rev ptrs ++ l)
  /\ free_list m1 (BlockAllocator.blocks ba1) (rev ptrs ++ l).
Proof.
  induction ptrs as [|p rest IH]; intros ba m l Hb He Hword Hl Hin Hap.
  - cbn [ba_free_all rev app].
    split; [reflexivity | split; [reflexivity|]].
    split; [apply (free_list_hd _ _ _ Hl) | exact Hl].
  - cbn [ba_free_all]. inversion Hin as [|? ? [Hp Hr] Hrest]; subst.
    cbn [rev] in Hap |- *. rewrite <- app_assoc in Hap |- *. cbn [app] in Hap |- *.
    unfold BlockAllocator.ba_free.
    replace (p <? BlockAllocator.buffer ba) with false
      by (symmetry; apply Z.ltb_ge; lia).
    replace (p >? BlockAllocator.buffer_end ba) with false
      by (symmetry; apply gtb_false; lia).
    cbn [orb].
    match goal with
    | |- context [ba_free_all ?b rest ?mm] =>
        specialize (IH b mm (p :: l)); destruct (ba_free_all b rest mm) as [ba1 m1]
    end.
    cbn [BlockAllocator.buffer BlockAllocator.buffer_end BlockAllocator.blocks] in IH.
    apply IH; try assumption; try lia.
    constructor; [exact Hp|].
    rewrite load64_store64_same by exact Hword.
    apply free_list_store; [exact Hl|].
    apply ForallOrdPairs_app_r in Hap. inversion Hap; assumption.
Qed.

(** X15.  The free list is a stack.  After freeing the pointers of a
    list one after the other, all accepted by [ba_free], non-null, and
    with links that overlap neither each other nor those of the free
    cells, as many calls of [ba_alloc] return the same pointers in the
    opposite order and bring the allocator and its free list back to
    what they were before the frees. *)
Theorem ba_free_then_alloc_reverses ba m l ptrs :
  0 <= BlockAllocator.buffer ba -> BlockAllocator.buffer_end ba < 2 ^ 64 ->
  0 <= BlockAllocator.blocks ba < 2 ^ 64 ->
  free_list m (BlockAllocator.blocks ba) l ->
  Forall (fun p => p <> NULL
                   /\ BlockAllocator.buffer ba <= p <= BlockAllocator.buffer_end ba)
         ptrs ->
  ForallOrdPairs apart (rev ptrs ++ l) ->
  let (ba1, m1) := ba_free_all ba ptrs m in
  let '(ps, ba2, m2) := BlockAllocator.ba_alloc_n (length ptrs) ba1 m1 in
  ps = rev ptrs /\ ba2 = ba /\ free_list m2 (BlockAllocator.blocks ba2) l.
Proof.
  intros Hb He Hword Hl Hin Hap.
  pose proof (ba_free_all_free_list ptrs ba m l Hb He Hword Hl Hin Hap) as Hfree.
  destruct (ba_free_all ba ptrs m) as [ba1 m1].
  destruct Hfree as (Hb1 & He1 & _ & Hl1).
  destruct (ba_alloc_n_pops (rev ptrs) ba1 m1 l Hl1 Hap) as (m2 & Hrun & Hl2).
  rewrite length_rev in Hrun. rewrite Hrun.
  split; [reflexivity|].
  rewrite Hb1, He1, <- (free_list_hd _ _ _ Hl).
  split; [destruct ba; reflexivity|].
  cbn [BlockAllocator.blocks]. rewrite (free_list_hd _ _ _ Hl). exact Hl2.
Qed.

Lemma ba_free_then_alloc_reverses_witness :
  let '(ba1, m1) := ba_free_all exhausted_ba [4096; 4196; 4296] (fun _ => 0) in
  let '(ps, ba2, m2) := BlockAllocator.ba_alloc_n 3 ba1 m1 in
  ps = [4296; 4196; 4096] /\ ba2 = exhausted_ba.
Proof.
  assert (Hin : Forall (fun p => p <> NULL
                   /\ BlockAllocator.buffer exhausted_ba <= p
                      <= BlockAllocator.buffer_end exhausted_ba)
                  [4096; 4196; 4296]).
  { repeat (apply Forall_cons || apply Forall_nil);
      (split; [discriminate | by_computation]). }
  assert (Hap : ForallOrdPairs apart (rev [4096; 4196; 4296] ++ [])).
  { cbn [rev app].
    constructor; [constructor; [right; by_computation|];
                  constructor; [right; by_computation | constructor]|].
    constructor; [constructor; [right; by_computation | constructor]|].
    constructor; [constructor | constructor]. }
  pose proof (ba_free_then_alloc_reverses exhausted_ba (fun _ => 0) []
                [4096; 4196; 4296] ltac:(by_computation) ltac:(by_computation)
                ltac:(by_computation) (free_list_nil _) Hin Hap) as H.
  destruct (ba_free_all exhausted_ba [4096; 4196; 4296] (fun _ => 0)) as [ba1 m1].
  cbn [length] in H.
  destruct (BlockAllocator.ba_alloc_n 3 ba1 m1) as [[ps ba2] m2].
  destruct H as (Hps & Hba & _). split; [exact Hps | exact Hba].
Defined.

(** X16.  Freeing the same pointer twice is not detected.  The second
    [ba_free] links the cell to itself: the next two calls of [ba_alloc]
    both return that cell, and the second leaves the free list empty,
    so that the cells that were free before are lost. *)
Theorem ba_double_free ba m ptr :
  BlockAllocator.buffer ba <= ptr <= BlockAllocator.buffer_end ba ->
  0 < ptr < 2 ^ 64 ->
  let '(ba1, m1) := BlockAllocator.ba_free ba ptr m in
  let '(ba2, m2) := BlockAllocator.ba_free ba1 ptr m1 in
  let '(ps, ba3, m3) := BlockAllocator.ba_alloc_n 2 ba2 m2 in
  ps = [ptr; ptr] /\ BlockAllocator.blocks ba3 = NULL.
Proof.
  intros Hin Hword.
  unfold BlockAllocator.ba_free.
  replace (ptr <? BlockAllocator.buffer ba) with false
    by (symmetry; apply Z.ltb_ge; lia).
  replace (ptr >? BlockAllocator.buffer_end ba) with false
    by (symmetry; apply gtb_false; lia).
  cbn [orb BlockAllocator.buffer BlockAllocator.buffer_end BlockAllocator.blocks].
  replace (ptr <? BlockAllocator.buffer ba) with false
    by (symmetry; apply Z.ltb_ge; lia).
  replace (ptr >? BlockAllocator.buffer_end ba) with false
    by (symmetry; apply gtb_false; lia).
  cbn [orb BlockAllocator.ba_alloc_n]. unfold BlockAllocator.ba_alloc.
  cbn [BlockAllocator.buffer BlockAllocator.buffer_end BlockAllocator.blocks].
  assert (Hne : (ptr =? NULL) = false) by (apply Z.eqb_neq; unfold NULL; lia).
  rewrite Hne.
  cbn [BlockAllocator.buffer BlockAllocator.buffer_end BlockAllocator.blocks].
  rewrite load64_store64_same by lia. rewrite Hne.
  cbn [BlockAllocator.blocks].
  rewrite load64_store64_same by lia.
  split; reflexivity.
Qed.

Lemma ba_double_free_witness :
  let '(ba1, m1) := BlockAllocator.ba_free two_cell_ba 4132 two_cell_memory in
  let '(ba2, m2) := BlockAllocator.ba_free ba1 4132 m1 in
  let '(ps, ba3, m3) := BlockAllocator.ba_alloc_n 2 ba2 m2 in
  ps = [4132; 4132] /\ BlockAllocator.blocks ba3 = NULL.
Proof.
  apply (ba_double_free two_cell_ba two_cell_memory 4132); by_computation.
Defined.

Lemma ba_init_loop_footprint buffer item_size n : forall j prev m x,
  0 < buffer -> BlockAllocator.LINK_SIZE <= item_size ->
  buffer + Z.of_nat (j + n) * item_size < 2 ^ 64 ->
  x < cell buffer item_size (Z.of_nat j)
  \/ cell buffer item_size (Z.of_nat (j + n)) <= x ->
  snd (BlockAllocator.ba_init_loop n (Z.of_nat j) buffer item_size prev m) x
  = m x.
Proof.
  induction n as [|n IH]; intros j prev m x Hb Hi Hfit Hx.
  - reflexivity.
  - cbn [BlockAllocator.ba_init_loop].
    unfold BlockAllocator.LINK_SIZE in Hi. unfold cell in Hx.
    assert (Hj : 0 <= Z.of_nat j * item_size
                 /\ buffer + Z.of_nat j * item_size + item_size < 2 ^ 64) by nia.
    rewrite (wrap_small (Z.of_nat j * item_size)) by lia.
    rewrite (wrap_small (buffer + _)) by lia.
    replace (Z.of_nat j + 1) with (Z.of_nat (S j)) by lia.
    rewrite IH.
    + apply store64_out. nia.
    + exact Hb.
    + unfold BlockAllocator.LINK_SIZE. exact Hi.
    + replace (S j + n)%nat with (j + S n)%nat by lia. exact Hfit.
    + unfold cell. replace (S j + n)%nat with (j + S n)%nat by lia. nia.
Qed.

(** X17.  [ba_init] stops on its assertion when [item_size] is smaller
    than a link.  Otherwise it writes inside the cells only: every
    byte before the buffer, every byte of the trailing remainder and
    every byte after the buffer is left as it was; and when the buffer
    is smaller than one item there is no cell, nothing is written and
    the free list is empty. *)
Theorem ba_init_footprint :
  (forall buffer buffer_size item_size m,
      item_size < BlockAllocator.LINK_SIZE ->
      BlockAllocator.ba_init buffer buffer_size item_size m = Fault)
  /\ (forall buffer buffer_size item_size m,
      0 < buffer -> BlockAllocator.LINK_SIZE <= item_size ->
      0 <= buffer_size -> buffer + buffer_size < 2 ^ 64 ->
      exists ba m',
        BlockAllocator.ba_init buffer buffer_size item_size m = Ok (ba, m')
        /\ BlockAllocator.buffer ba = buffer
        /\ BlockAllocator.buffer_end ba = buffer + buffer_size
        /\ (forall x,
              x < buffer
              \/ buffer + buffer_size / item_size * item_size <= x ->
              m' x = m x)
        /\ (buffer_size < item_size ->
            BlockAllocator.blocks ba = NULL /\ forall x, m' x = m x)).
Proof.
  split.
  - intros buffer buffer_size item_size m Hsmall. unfold BlockAllocator.ba_init.
    replace (item_size >=? BlockAllocator.LINK_SIZE) with false; [reflexivity|].
    symmetry. rewrite Z.geb_leb. apply Z.leb_gt. exact Hsmall.
  - intros buffer buffer_size item_size m Hb Hi Hs Hfit.
    pose proof Hi as Hi'. unfold BlockAllocator.LINK_SIZE in Hi'.
    assert (Hq : 0 <= buffer_size / item_size) by (apply Z.div_pos; lia).
    assert (Hmul : buffer_size / item_size * item_size <= buffer_size).
    { rewrite Z.mul_comm. apply Z.mul_div_le. lia. }
    pose proof (ba_init_loop_footprint buffer item_size
                  (Z.to_nat (buffer_size / item_size)) 0 NULL m) as Hfoot.
    cbn [Nat.add Z.of_nat] in Hfoot.
    unfold BlockAllocator.ba_init.
    replace (negb (item_size >=? BlockAllocator.LINK_SIZE)) with false.
    2:{ symmetry. apply negb_false_iff. apply Z.geb_le. exact Hi. }
    destruct (BlockAllocator.ba_init_loop (Z.to_nat (buffer_size / item_size))
                0 buffer item_size NULL m) as [prev m'] eqn:Eloop.
    cbn [snd] in Hfoot.
    assert (Hout : forall x,
               x < buffer \/ buffer + buffer_size / item_size * item_size <= x ->
               m' x = m x).
    { intros x Hx. apply Hfoot; try assumption.
      - rewrite Z2Nat.id by exact Hq. lia.
      - unfold cell. rewrite Z2Nat.id by exact Hq. lia. }
    eexists. exists m'. split; [reflexivity|].
    cbn [BlockAllocator.buffer BlockAllocator.buffer_end BlockAllocator.blocks].
    split; [reflexivity|]. split; [apply wrap_small; lia|].
    split; [exact Hout|].
    intros Hless.
    assert (Hzero : buffer_size / item_size = 0) by (apply Z.div_small; lia).
    rewrite Hzero in Eloop, Hout. cbn in Eloop. injection Eloop as <- <-.
    split; [reflexivity | intros x; reflexivity].
Qed.

Lemma ba_init_footprint_witness :
  BlockAllocator.ba_init 4096 100 4 (fun _ => 0) = Fault
  /\ exists ba m',
       BlockAllocator.ba_init 4096 100 32 (fun _ => 7) = Ok (ba, m')
       /\ m' (4096 + 96) = 7 /\ m' 4095 = 7.
Proof.
  destruct ba_init_footprint as [Hfault Hfoot].
  split; [apply Hfault; by_computation|].
  assert (H2 : BlockAllocator.LINK_SIZE <= 32) by by_computation.
  assert (H4 : 4096 + 100 < 2 ^ 64) by by_computation.
  destruct (Hfoot 4096 100 32 (fun _ => 7) ltac:(lia) H2 ltac:(lia) H4)
    as (ba & m' & Hinit & _ & _ & Hout & _).
  exists ba, m'. split; [exact Hinit|]. split.
  - apply (Hout (4096 + 96)). right. by_computation.
  - apply (Hout 4095). left. by_computation.
Defined.

(** ** Order and separation of the returned ranges *)

Lemma Forall_filter_keeps (A : Type) (P : A -> Prop) (f : A -> bool)
  (l : list A) : Forall P l -> Forall P (filter f l).
Proof.
  rewrite !Forall_forall. intros H x Hx. apply filter_In in Hx. apply H, Hx.
Qed.

(** The successful calls of a run of the linear allocator lay their
    ranges out in call order, failed calls in between or not, as long as
    the head has not wrapped around. *)
Lemma allocate_all_successes_laid_out buffer sizes : forall head,
  0 < buffer /\ buffer + Linear.BUFFER_SIZE < 2 ^ 64 ->
  0 <= head -> Forall (fun size => 0 <= size) sizes ->
  head + fold_right Z.add 0 sizes < 2 ^ 64 ->
  StronglySorted laid_out
    (filter succeeded
       (combine (fst (Linear.allocate_all buffer head sizes)) sizes))
  /\ Forall (fun x => buffer + head <= fst x)
       (filter succeeded
          (combine (fst (Linear.allocate_all buffer head sizes)) sizes)).
Proof.
  induction sizes as [|size rest IH]; intros head Hb Hh Hs Hfit.
  - cbn. split; constructor.
  - inversion Hs as [|? ? Hs0 Hrest]; subst.
    cbn [fold_right] in Hfit.
    assert (Hr : 0 <= fold_right Z.add 0 rest).
    { clear -Hrest. induction Hrest; cbn [fold_right]; lia. }
    destruct (IH (head + size) Hb) as [Hsorted Hlow];
      [lia | exact Hrest | lia |].
    cbn [Linear.allocate_all].
    rewrite (allocate_no_wrap buffer Hb) by lia.
    destruct (head + size >? Linear.BUFFER_SIZE) eqn:E;
      destruct (Linear.allocate_all buffer (head + size) rest) as [qs h2];
      cbn [fst] in Hsorted, Hlow; cbn [fst combine filter].
    + change (succeeded (NULL, size)) with false. cbn iota.
      split; [exact Hsorted|].
      eapply Forall_impl; [|exact Hlow].
      intros x Hx. cbn beta in Hx |- *. lia.
    + assert (Hnn : succeeded (buffer + head, size) = true).
      { unfold succeeded. cbn [fst].
        replace (buffer + head =? NULL) with false; [reflexivity|].
        symmetry. apply Z.eqb_neq. unfold NULL. lia. }
      rewrite Hnn. split.
      * constructor; [exact Hsorted|].
        eapply Forall_impl; [|exact Hlow].
        intros x Hx. cbn beta in Hx. unfold laid_out. cbn [fst snd]. lia.
      * constructor; [cbn [fst]; lia|].
        eapply Forall_impl; [|exact Hlow].
        intros x Hx. cbn beta in Hx |- *. lia.
Qed.

(** The same for the fixed buffer allocator, whose failed calls leave
    the head where it was. *)
Lemma fba_alloc_all_successes_laid_out reqs : forall fba,
  fba_wf fba -> Forall request_ok reqs ->
  StronglySorted laid_out
    (filter succeeded
       (combine (fst (Fba.fba_alloc_all fba reqs)) (map fst reqs)))
  /\ Forall (fun x => Fba.head fba <= fst x)
       (filter succeeded
          (combine (fst (Fba.fba_alloc_all fba reqs)) (map fst reqs))).
Proof.
  induction reqs as [|[size align] rest IH]; intros fba Hwf Hreqs.
  - cbn. split; constructor.
  - inversion Hreqs as [|? ? Hreq Hrest]; subst.
    cbn [Fba.fba_alloc_all].
    pose proof (fba_alloc_opt_wf fba size align) as Hwf'.
    destruct (fba_alloc_opt_cases fba size align Hwf Hreq)
      as [[_ E]|(Hfit & E & Hnn & Hle & _)];
      rewrite E in Hwf' |- *.
    + destruct (IH fba Hwf Hrest) as [Hsorted Hlow].
      destruct (Fba.fba_alloc_all fba rest) as [qs f2].
      cbn [fst] in Hsorted, Hlow. cbn [fst combine map filter].
      change (succeeded (NULL, size)) with false. cbn iota.
      split; assumption.
    + match type of E with _ = (_, ?f) => set (fba1 := f) in * end.
      assert (Hwf1 : fba_wf fba1).
      { eapply Hwf'; [exact Hwf | exact Hreq | reflexivity]. }
      destruct (IH fba1 Hwf1 Hrest) as [Hsorted Hlow].
      destruct (Fba.fba_alloc_all fba1 rest) as [qs f2].
      cbn [fst] in Hsorted, Hlow. cbn [fst combine map filter].
      assert (Hs1 : succeeded (ALIGN_TO (Fba.head fba) align, size) = true).
      { unfold succeeded. cbn [fst].
        apply Z.eqb_neq in Hnn. rewrite Hnn. reflexivity. }
      rewrite Hs1.
      destruct Hreq as [Hs _]. cbn [fst] in Hs.
      subst fba1. cbn [Fba.head] in Hlow. split.
      * constructor; [exact Hsorted|].
        eapply Forall_impl; [|exact Hlow].
        intros x Hx. cbn beta in Hx. unfold laid_out. cbn [fst snd]. lia.
      * constructor; [cbn [fst]; lia|].
        eapply Forall_impl; [|exact Hlow].
        intros x Hx. cbn beta in Hx |- *. lia.
Qed.

(** A failed call on an arena that has a block: the backing allocator
    has handed out a block, which is now the most recent one. *)
Lemma arena_alloc_failed_nonempty a w size align a1 w1 :
  block_wf (Arena.mem w) (Arena.blocks a) -> request_ok (size, align) ->
  heap_fresh (Arena.blocks a) (Arena.heap w) ->
  Arena.arena_alloc a size align w = Ok (NULL, a1, w1) ->
  block_wf (Arena.mem w1) (Arena.blocks a1)
  /\ Arena.heap w = Arena.blocks a1 :: Arena.heap w1.
Proof.
  intros Hwf Hreq Hfresh Hcall.
  destruct (arena_alloc_outcomes a w size align Hwf Hreq (proj1 Hfresh))
    as [(_ & Hnn & _ & E)|[(_ & _ & E)|(_ & q & rest & Eh & Hq & Hqwf & Hcases)]].
  - rewrite E in Hcall. injection Hcall as Hp _ _. contradiction.
  - rewrite E in Hcall. discriminate.
  - destruct Hcases as [(_ & Hnn & _ & E)|(_ & E)]; rewrite E in Hcall.
    + injection Hcall as Hp _ _. contradiction.
    + injection Hcall as <- <-. cbn [Arena.blocks Arena.mem Arena.heap].
      split; [exact Hqwf | exact Eh].
Qed.

(** A failed call on any well-formed arena: nothing has changed, the
    arena being empty and the backing allocator refusing, or the most
    recent block is one the backing allocator has handed out during the
    call. *)
Lemma arena_alloc_failed a w size align a1 w1 :
  arena_wf a w -> request_ok (size, align) ->
  heap_fresh (Arena.blocks a) (Arena.heap w) ->
  Arena.arena_alloc a size align w = Ok (NULL, a1, w1) ->
  arena_wf a1 w1
  /\ heap_fresh (Arena.blocks a1) (Arena.heap w1)
  /\ ((Arena.blocks a1 = NULL /\ Arena.heap w1 = Arena.heap w)
      \/ (In (Arena.blocks a1) (Arena.heap w)
          /\ incl (Arena.heap w1) (Arena.heap w))).
Proof.
  intros Hwf Hreq Hfresh Hcall.
  destruct Hwf as [He|Hwf].
  - destruct (Arena.heap w) as [|q1 rest] eqn:Eh.
    + unfold Arena.arena_alloc, Arena.arena_get_block, Arena.arena_new_block,
        Arena.malloc in Hcall.
      rewrite He, Eh in Hcall. cbn in Hcall. injection Hcall as <- <-.
      rewrite Eh. split; [left; exact He|].
      split; [exact Hfresh|].
      left. split; [exact He | reflexivity].
    + pose proof (heap_fresh_tail _ _ _ Hfresh) as Hfresh1.
      destruct Hfresh as (Hv & _ & _). inversion Hv as [|? ? Hq1 Hv']; subst.
      assert (Hq1n : q1 <> NULL) by (destruct Hq1; unfold NULL; lia).
      rewrite (arena_alloc_lazy a size align w q1 rest He Eh Hq1n) in Hcall.
      apply arena_alloc_failed_nonempty in Hcall; try assumption.
      2:{ apply arena_block_init_wf; [exact Hq1 | unfold NULL; lia]. }
      cbn [Arena.blocks Arena.mem Arena.heap] in Hcall.
      destruct Hcall as [Hwf1 Hgrow].
      split; [right; exact Hwf1|].
      rewrite Hgrow in Hfresh1 |- *.
      split; [exact (heap_fresh_tail _ _ _ Hfresh1)|].
      right. split; [right; left; reflexivity|].
      apply incl_tl, incl_tl, incl_refl.
  - apply arena_alloc_failed_nonempty in Hcall; try assumption.
    destruct Hcall as [Hwf1 Hgrow].
    split; [right; exact Hwf1|].
    rewrite Hgrow in Hfresh |- *.
    split; [exact (heap_fresh_tail _ _ _ Hfresh)|].
    right. split; [left; reflexivity | apply incl_tl, incl_refl].
Qed.

(** The successful calls of a run of the arena that does not fault lay
    their ranges out in call order within each block, failed calls in
    between or not. *)
Lemma arena_alloc_all_successes_laid_out reqs : forall a w tr a' w',
  arena_wf a w -> Forall request_ok reqs ->
  heap_fresh (Arena.blocks a) (Arena.heap w) ->
  Arena.arena_alloc_all a w reqs = Ok (tr, a', w') ->
  StronglySorted arena_laid_out (filter entry_succeeded tr)
  /\ Forall in_block (filter entry_succeeded tr)
  /\ Forall (from_state a w) (filter entry_succeeded tr).
Proof.
  induction reqs as [|[size align] rest IH]; intros a w tr a' w' Hwf Hreqs Hfresh Hrun.
  - cbn in Hrun. injection Hrun as <- _ _. repeat split; constructor.
  - inversion Hreqs as [|? ? Hreq Hrest]; subst.
    cbn [Arena.arena_alloc_all] in Hrun.
    destruct (Arena.arena_alloc a size align w) as [|[[p a1] w1]] eqn:Ecall;
      [discriminate|].
    destruct (Arena.arena_alloc_all a1 w1 rest) as [|[[tr1 a2] w2]] eqn:Erest;
      [discriminate|].
    injection Hrun as <- _ _. cbn [filter].
    destruct (Z.eq_dec p NULL) as [->|Hp].
    + change (entry_succeeded (Arena.blocks a1, NULL, size)) with false.
      cbn iota.
      destruct (arena_alloc_failed a w size align a1 w1 Hwf Hreq Hfresh Ecall)
        as (Hwf1 & Hfresh1 & Hwhere).
      destruct (IH a1 w1 tr1 a2 w2 Hwf1 Hrest Hfresh1 Erest)
        as (Hsorted & Hblocks & Hfrom).
      split; [exact Hsorted | split; [exact Hblocks|]].
      eapply Forall_impl; [|exact Hfrom]. intros t [(Hne & Hb & _)|Hin_heap].
      * destruct Hwhere as [[Hnull _]|[Hin_heap _]]; [contradiction|].
        right. rewrite Hb. exact Hin_heap.
      * destruct Hwhere as [[_ Hheap]|[_ Hincl]].
        -- right. rewrite <- Hheap. exact Hin_heap.
        -- right. apply Hincl. exact Hin_heap.
    + assert (Hs1 : entry_succeeded (Arena.blocks a1, p, size) = true).
      { unfold entry_succeeded, entry_ptr. cbn [fst snd].
        apply Z.eqb_neq in Hp. rewrite Hp. reflexivity. }
      rewrite Hs1.
      destruct (arena_alloc_success a w size align p a1 w1 Hwf Hreq Hfresh Ecall Hp)
        as (Hwf1 & Hin & Hhead & Hfresh1 & Hwhere).
      destruct (IH a1 w1 tr1 a2 w2) as (Hsorted & Hblocks & Hfrom); auto.
      { right. exact Hwf1. }
      assert (Hne1 : Arena.blocks a1 <> NULL).
      { destruct Hwf1 as [[Hb _] _]. unfold NULL. lia. }
      assert (Hsize : 0 <= size) by (destruct Hreq as [[Hs _] _]; exact Hs).
      split; [|split].
      * constructor; [exact Hsorted|].
        eapply Forall_impl; [|exact Hfrom]. intros t [(_ & Hb & Hle)|Hin_heap].
        -- unfold arena_laid_out, entry_block, entry_ptr, entry_size in *.
           cbn [fst snd] in *. split; [intros _; lia | intros Hd; congruence].
        -- destruct Hfresh1 as (_ & _ & Hd). specialize (Hd Hne1).
           rewrite Forall_forall in Hd. specialize (Hd _ Hin_heap).
           unfold arena_laid_out. cbn [entry_block entry_ptr entry_size fst snd].
           split; [|intros _; exact Hd].
           intros E. fold (entry_block t) in Hd. rewrite <- E in Hd.
           unfold blocks_disjoint, Arena.ARENA_BLOCK_SIZE in Hd. lia.
      * constructor; assumption.
      * constructor.
        -- destruct Hwhere as [(Hne & Hsame & _ & Hle)|[Hin_heap _]].
           ++ left. cbn [entry_block entry_ptr fst snd].
              split; [exact Hne | split; [exact Hsame | exact Hle]].
           ++ right. exact Hin_heap.
        -- eapply Forall_impl; [|exact Hfrom]. intros t [(_ & Hb & Hle)|Hin_heap].
           ++ destruct Hwhere as [(Hne & Hsame & _ & Hle0)|[Hin_heap _]].
              ** left. split; [exact Hne | split; [congruence|]]. lia.
              ** right. rewrite Hb. exact Hin_heap.
           ++ destruct Hwhere as [(_ & _ & Hheap & _)|[_ Hincl]].
              ** right. rewrite <- Hheap. exact Hin_heap.
              ** right. apply Hincl. exact Hin_heap.
Qed.

(** C8, as the code behaves.  Take any run of calls with no reset or
    clear in between, failed calls included, and of it the calls that
    succeeded, in call order.  For the fixed buffer allocator and for the
    arena, started in a well-formed state, with sizes up to
    [PTRDIFF_MAX] and power-of-two alignments, the arena run not
    faulting and the backing allocator handing out blocks that do not
    overlap: of two successful allocations from one fixed buffer
    allocator or from one block of an arena the later one starts at or
    after the end of the earlier one, so the pointers never decrease,
    they increase strictly past every allocation of positive size, and
    the two ranges share no byte; the ranges of two allocations drawn
    from different blocks of an arena share no byte either.  For the
    linear allocator, whose failed calls advance the head, the same
    holds as long as the head plus the sizes of all the requests of the
    run, failed ones included, stays below [2^64]. *)
Theorem successful_allocations_ordered :
  (forall buffer head sizes,
      0 < buffer /\ buffer + Linear.BUFFER_SIZE < 2 ^ 64 ->
      0 <= head -> Forall (fun size => 0 <= size) sizes ->
      head + fold_right Z.add 0 sizes < 2 ^ 64 ->
      StronglySorted follows
        (filter succeeded
           (combine (fst (Linear.allocate_all buffer head sizes)) sizes)))
  /\ (forall fba reqs,
      fba_wf fba -> Forall request_ok reqs ->
      StronglySorted follows
        (filter succeeded
           (combine (fst (Fba.fba_alloc_all fba reqs)) (map fst reqs))))
  /\ (forall a w reqs tr a' w',
      arena_wf a w -> Forall request_ok reqs ->
      heap_fresh (Arena.blocks a) (Arena.heap w) ->
      Arena.arena_alloc_all a w reqs = Ok (tr, a', w') ->
      StronglySorted arena_follows (filter entry_succeeded tr)).
Proof.
  split; [|split].
  - intros buffer head sizes Hb Hh Hs Hfit.
    destruct (allocate_all_successes_laid_out buffer sizes head Hb Hh Hs Hfit)
      as [Hsorted _].
    apply (StronglySorted_weaken _ laid_out follows (fun x => 0 <= snd x));
      [| |exact Hsorted].
    + intros x y Hx _. apply laid_out_follows. exact Hx.
    + apply Forall_filter_keeps, Forall_combine_snd. exact Hs.
  - intros fba reqs Hwf Hreqs.
    destruct (fba_alloc_all_successes_laid_out reqs fba Hwf Hreqs)
      as [Hsorted _].
    apply (StronglySorted_weaken _ laid_out follows (fun x => 0 <= snd x));
      [| |exact Hsorted].
    + intros x y Hx _. apply laid_out_follows. exact Hx.
    + apply Forall_filter_keeps, Forall_combine_snd. apply Forall_map.
      eapply Forall_impl; [|exact Hreqs]. intros r [[Hsz _] _]. exact Hsz.
  - intros a w reqs tr a' w' Hwf Hreqs Hfresh Hrun.
    destruct (arena_alloc_all_successes_laid_out reqs a w tr a' w'
                Hwf Hreqs Hfresh Hrun) as (Hsorted & Hblocks & _).
    apply (StronglySorted_weaken _ arena_laid_out arena_follows in_block);
      [| exact Hblocks | exact Hsorted].
    intros x y. apply arena_laid_out_follows.
Qed.

(** Runs in the manner of the three demo programs, each with a request
    of 2000 bytes added, which fails: the linear allocator is asked for
    48, 128, 2000 and 8 bytes with the head at 0 and refuses the last
    two, its head having passed the end of the buffer; the fixed buffer
    allocator is asked for an [int], 2000 bytes, a pair of [int] and 32
    characters; the arena for an [int], 2000 bytes, which makes it take
    a second block, and four [int]. *)
Lemma successful_allocations_ordered_witness :
  StronglySorted follows [(4096, 48); (4144, 128)]
  /\ StronglySorted follows [(4096, 4); (4100, 8); (4108, 32)]
  /\ StronglySorted arena_follows [(4096, 4120, 4); (8192, 8216, 16)].
Proof.
  destruct successful_allocations_ordered as (Hlinear & Hfba & Harena).
  split; [|split].
  - apply (Hlinear 4096 0 [48; 128; 2000; 8]).
    + by_computation.
    + lia.
    + repeat (apply Forall_cons || apply Forall_nil); lia.
    + by_computation.
  - apply (Hfba (Fba.fba_init 4096 1024) [(4, 4); (2000, 8); (8, 4); (32, 1)]).
    + by_computation.
    + repeat (apply Forall_cons || apply Forall_nil);
        apply request_ok_intro;
        first [exact pow2_align_4 | exact pow2_align_8 | exact pow2_align_1
              | by_computation].
  - assert (Hv1 : valid_block 4096) by by_computation.
    assert (Hv2 : valid_block 8192) by by_computation.
    assert (Hd : blocks_disjoint 4096 8192) by (left; by_computation).
    assert (Htr : trace_of (Arena.arena_alloc_all empty_arena
                              (blank_world [4096; 8192])
                              [(4, 4); (2000, 8); (16, 4)])
                  = Some [(4096, 4120, 4); (8192, NULL, 2000); (8192, 8216, 16)])
      by (vm_compute; reflexivity).
    destruct (Arena.arena_alloc_all empty_arena (blank_world [4096; 8192])
                [(4, 4); (2000, 8); (16, 4)]) as [|[[tr a'] w']] eqn:Erun;
      [discriminate|].
    cbn [trace_of] in Htr. injection Htr as Htr.
    change (StronglySorted arena_follows
              (filter entry_succeeded
                 [(4096, 4120, 4); (8192, NULL, 2000); (8192, 8216, 16)])).
    rewrite <- Htr.
    apply (Harena empty_arena (blank_world [4096; 8192])
             [(4, 4); (2000, 8); (16, 4)] tr a' w').
    + left. reflexivity.
    + repeat (apply Forall_cons || apply Forall_nil);
        apply request_ok_intro;
        first [exact pow2_align_4 | exact pow2_align_8 | by_computation].
    + split; [|split].
      * constructor; [exact Hv1 | constructor; [exact Hv2 | constructor]].
      * constructor; [constructor; [exact Hd | constructor]|].
        constructor; constructor.
      * intros Hn. exfalso. apply Hn. reflexivity.
    + exact Erun.
Defined.

(** C8, as stated, fails on three runs over a buffer of 1024 bytes at
    4096.  Two successful requests of size zero to [fba_alloc_opt]
    return the same pointer, so the pointers do not increase strictly.
    A request of [2^64 - 8] bytes to [fba_alloc_opt] succeeds,
    [head + size] wrapping around, and moves the head back by 8: the 16
    bytes of the call after it overlap the 16 bytes of the call before
    it.  And [allocate], after a first call that takes the whole buffer,
    fails on a request of [2^63 - 1] bytes and advances the head, which
    a second such request wraps around to 1022: that call and the call
    for 2 bytes after it succeed, and the 2 bytes lie in the range of the
    first call. *)
Lemma successful_allocations_ordered_counterexample :
  fst (Fba.fba_alloc_all (Fba.fba_init 4096 1024) [(0, 1); (0, 1)])
    = [4096; 4096]
  /\ ~ 4096 < 4096
  /\ fst (Fba.fba_alloc_all (Fba.fba_init 4096 1024)
            [(16, 1); (2 ^ 64 - 8, 1); (16, 1)])
     = [4096; 4112; 4104]
  /\ ~ disjoint_ranges 4096 16 4104 16
  /\ Linear.allocate_all 4096 0 [1024; 2 ^ 63 - 1; 2 ^ 63 - 1; 2]
     = ([4096; NULL; 2 ^ 63 + 5119; 5118], 1024)
  /\ ~ disjoint_ranges 4096 1024 5118 2.
Proof.
  split; [reflexivity | split; [lia | split; [reflexivity|]]].
  split; [intros H; apply (H 4104); lia|].
  split; [reflexivity|].
  intros H. apply (H 5118). lia.
Qed.
